(** * fastly-scanner: the staged scanning engine (smart-scan core)

    A shallow embedding of the scanning engine of the repository
    (the CommonJS module exporting [runSmartScan]): the address-range
    helpers, the three probes, the bounded queue and the two-stage scan,
    followed by the properties of the specification that were checked
    against them. *)

From Stdlib Require Import ZArith List String Ascii Bool Lia.
From Stdlib Require Import QArith Qabs Qround Lqa Permutation Sorted.
From Equations Require Import Equations.
Import ListNotations.

Local Open Scope string_scope.
Local Open Scope Z_scope.

(* ===================================================================== *)
(** * Outcomes of a call *)
(* ===================================================================== *)

(** A call returns a value or throws.  [OutOfModel] marks an input on
    which the embedding of a runtime builtin is not exact (see
    [JS.Number]); nothing is claimed about the program there.  [Diverges]
    is a call that does not return: a loop whose fuel ran out, or an
    [await] on a promise that never settles. *)
Inductive outcome (A : Type) : Type :=
| Ret (a : A)
| Throw (msg : string)
| OutOfModel
| Diverges.
Arguments Ret {A} a.
Arguments Throw {A} msg.
Arguments OutOfModel {A}.
Arguments Diverges {A}.

Definition bind {A B} (m : outcome A) (k : A -> outcome B) : outcome B :=
  match m with
  | Ret a => k a
  | Throw e => Throw e
  | OutOfModel => OutOfModel
  | Diverges => Diverges
  end.

Notation "x <- m ;; k" := (bind m (fun x => k))
  (at level 61, m at next level, right associativity).

Fixpoint mapM {A B} (f : A -> outcome B) (l : list A) : outcome (list B) :=
  match l with
  | [] => Ret []
  | x :: r => y <- f x ;; ys <- mapM f r ;; Ret (y :: ys)
  end.

(** [Array.prototype.flatMap] with a callback that may throw. *)
Fixpoint flatMapM {A B} (f : A -> outcome (list B)) (l : list A)
  : outcome (list B) :=
  match l with
  | [] => Ret []
  | x :: r => ys <- f x ;; zs <- flatMapM f r ;; Ret (ys ++ zs)%list
  end.

(* ===================================================================== *)
(** * The runtime's builtins used by the engine *)
(* ===================================================================== *)

Module JS.

(** Strings are sequences of code units below 256. *)

Definition code (c : ascii) : Z := Z.of_nat (nat_of_ascii c).

(** White space and line terminators (TAB, LF, VT, FF, CR, SP, NBSP). *)
Definition isWhite (c : ascii) : bool :=
  let n := code c in
  ((9 <=? n) && (n <=? 13)) || (n =? 32) || (n =? 160).

Definition isDigit (c : ascii) : bool :=
  let n := code c in (48 <=? n) && (n <=? 57).

Definition digitVal (c : ascii) : Z := code c - 48.

Fixpoint trimStart (s : string) : string :=
  match s with
  | String c r => if isWhite c then trimStart r else s
  | EmptyString => EmptyString
  end.

Fixpoint rev_string (s acc : string) : string :=
  match s with
  | EmptyString => acc
  | String c r => rev_string r (String c acc)
  end.

Definition trim (s : string) : string :=
  rev_string (trimStart (rev_string (trimStart s) "")) "".

(** [s.split(sep)] for a one-character separator: never empty. *)
Fixpoint split (sep : ascii) (s : string) : list string :=
  match s with
  | EmptyString => [EmptyString]
  | String c r =>
      if Ascii.eqb c sep then EmptyString :: split sep r
      else match split sep r with
           | h :: t => String c h :: t
           | [] => [String c EmptyString]
           end
  end.

(** [arr.join(sep)] on an array of strings. *)
Fixpoint join (sep : string) (l : list string) : string :=
  match l with
  | [] => EmptyString
  | [x] => x
  | x :: r => x ++ sep ++ join sep r
  end.

(** The longest prefix of decimal digits, and what follows it. *)
Fixpoint spanDigits (s : string) : string * string :=
  match s with
  | String c r =>
      if isDigit c then let (d, t) := spanDigits r in (String c d, t)
      else (EmptyString, s)
  | EmptyString => (EmptyString, EmptyString)
  end.

Fixpoint digitsValue (s : string) (acc : Z) : Z :=
  match s with
  | EmptyString => acc
  | String c r => digitsValue r (10 * acc + digitVal c)
  end.

(** Optional sign in front of a literal: the sign and the rest. *)
Definition stripSign (s : string) : Z * string :=
  match s with
  | String "-" r => (-1, r)
  | String "+" r => (1, r)
  | _ => (1, s)
  end.

(** [parseInt(s, 10)]: [None] is NaN.  Leading white space is skipped, a
    sign is read, then the longest run of digits; what follows is ignored.
    The value is kept exact: the runtime rounds it to a double, which
    changes nothing below 2^53 and keeps larger values larger than 2^53. *)
Definition parseInt (s : string) : option Z :=
  let (sign, r) := stripSign (trimStart s) in
  let (d, _) := spanDigits r in
  match d with
  | EmptyString => None
  | _ => Some (sign * digitsValue d 0)
  end.

(** [String(v)] of a value that is a string or [undefined]. *)
Definition ToString_opt (v : option string) : string :=
  match v with Some s => s | None => "undefined" end.

(** [!v] of a value that is a string or [undefined]. *)
Definition falsy (v : option string) : bool :=
  match v with
  | Some EmptyString => true
  | Some _ => false
  | None => true
  end.

(** [Number(s)] on the integer literals.  The text is trimmed; the empty
    text is 0; an optionally signed run of digits is its value.  The
    embedding is exact for integers up to 2^52 in magnitude (so that the
    additions of [ipToInt] are exact); every other text (fractions,
    exponents, hexadecimal forms, [Infinity], texts that are no number at
    all, longer digit runs) is [OutOfModel]. *)
Definition Number (s : string) : outcome Z :=
  let t := trim s in
  match t with
  | EmptyString => Ret 0
  | _ =>
      let (sign, r) := stripSign t in
      let (d, rest) := spanDigits r in
      match d, rest with
      | String _ _, EmptyString =>
          let v := digitsValue d 0 in
          if v <=? 2 ^ 52 then Ret (sign * v) else OutOfModel
      | _, _ => OutOfModel
      end
  end.

(** [String(n)] of an integer below 10^21 in magnitude. *)
Definition digitChar (d : Z) : ascii := ascii_of_nat (Z.to_nat (48 + d)).

Fixpoint digitsOf (fuel : nat) (n : Z) (acc : string) : string :=
  match fuel with
  | O => acc
  | S f =>
      let acc' := String (digitChar (n mod 10)) acc in
      if n <? 10 then acc' else digitsOf f (n / 10) acc'
  end.

Definition ToString (n : Z) : string :=
  if n <? 0 then String "-" (digitsOf (S (Z.to_nat (Z.log2 (- n)))) (- n) "")
  else digitsOf (S (Z.to_nat (Z.log2 n))) n "".

(** ** 32-bit integer operators on integer-valued numbers *)

Definition ToInt32 (z : Z) : Z := (z + 2 ^ 31) mod 2 ^ 32 - 2 ^ 31.
Definition ToUint32 (z : Z) : Z := z mod 2 ^ 32.

(** [a << n] *)
Definition shl (a n : Z) : Z :=
  ToInt32 (Z.shiftl (ToInt32 a) (Z.land (ToUint32 n) 31)).
(** [a >> n] *)
Definition sar (a n : Z) : Z :=
  Z.shiftr (ToInt32 a) (Z.land (ToUint32 n) 31).
(** [a >>> n] *)
Definition shr (a n : Z) : Z :=
  Z.shiftr (ToUint32 a) (Z.land (ToUint32 n) 31).
(** [a & b] *)
Definition band (a b : Z) : Z := Z.land (ToInt32 a) (ToInt32 b).
(** [a | b] *)
Definition bor (a b : Z) : Z := Z.lor (ToInt32 a) (ToInt32 b).
(** [~a] *)
Definition bnot (a : Z) : Z := Z.lnot (ToInt32 a).

(** [arr.slice(0, k)] for an integer [k]. *)
Definition slice0 {A} (k : Z) (l : list A) : list A :=
  let len := Z.of_nat (List.length l) in
  let e := if k <? 0 then Z.max (len + k) 0 else Z.min k len in
  firstn (Z.to_nat e) l.

(** ** Numbers that are not integers: latencies *)

(** A double: a finite one is the rational it denotes. *)
Inductive float : Type := Fin (q : Q) | PInf | NInf | FNaN.

Definition pow2 (e : Z) : Q :=
  if 0 <=? e then inject_Z (2 ^ e) else Qmake 1 (Z.to_pos (2 ^ (- e))).

Definition round_half_even (m : Q) : Z :=
  let f := Qfloor m in
  match Qcompare (m - inject_Z f)%Q (1 # 2)%Q with
  | Lt => f
  | Gt => f + 1
  | Eq => if Z.even f then f else f + 1
  end.

(** The double nearest to a rational that is not negative (ties to the
    even significand; 53 bits, least exponent -1074, overflow at 2^1024). *)
Definition round64 (x : Q) : float :=
  if Qle_bool x 0 then Fin 0
  else
    let e0 := Z.log2 (Qnum x) - Z.log2 (Zpos (Qden x)) in
    let e := if Qle_bool (pow2 e0) x then e0 else e0 - 1 in
    let ulp := pow2 (Z.max e (-1022) - 52) in
    let r := (inject_Z (round_half_even (x / ulp)) * ulp)%Q in
    if Qle_bool (pow2 1024) r then PInf else Fin (Qred r).

Definition decimal (ip fp : string) : Q :=
  Qmake (digitsValue (ip ++ fp) 0)
        (Z.to_pos (10 ^ Z.of_nat (String.length fp))).

(** [parseFloat(g)] on a text of digits and dots: the longest prefix that
    is a decimal literal. *)
Definition parseFloat (g : string) : float :=
  let (ip, r) := spanDigits g in
  match r with
  | String "." r' =>
      let (fp, _) := spanDigits r' in
      match ip, fp with
      | EmptyString, EmptyString => FNaN
      | _, _ => round64 (decimal ip fp)
      end
  | _ => match ip with
         | EmptyString => FNaN
         | _ => round64 (decimal ip "")
         end
  end.

(** [x - y].  Between finite doubles the exact difference is kept: the
    runtime rounds it, which keeps its sign (a difference of two doubles
    never underflows to zero), and only the sign is used. *)
Definition fsub (x y : float) : float :=
  match x, y with
  | FNaN, _ | _, FNaN => FNaN
  | Fin a, Fin b => Fin (a - b)%Q
  | PInf, PInf | NInf, NInf => FNaN
  | PInf, _ => PInf
  | NInf, _ => NInf
  | Fin _, PInf => NInf
  | Fin _, NInf => PInf
  end.

Definition isNaN (x : float) : bool :=
  match x with FNaN => true | _ => false end.

(** [v > 0] *)
Definition positive (v : float) : bool :=
  match v with
  | Fin q => negb (Qle_bool q 0)
  | PInf => true
  | NInf | FNaN => false
  end.

Definition pad3 (m : Z) : string :=
  String (digitChar (m / 100))
    (String (digitChar ((m / 10) mod 10))
       (String (digitChar (m mod 10)) "")).

(** [x.toFixed(3)]: for a finite number below 10^21 in magnitude, the
    nearest multiple of 1/1000, the larger one on a tie. *)
Definition toFixed3 (x : float) : outcome string :=
  match x with
  | FNaN => Ret "NaN"
  | PInf => Ret "Infinity"
  | NInf => Ret "-Infinity"
  | Fin q =>
      let a := Qabs q in
      if Qle_bool (inject_Z (10 ^ 21)) a then OutOfModel
      else
        let n := Qfloor (a * inject_Z 1000 + (1 # 2))%Q in
        let body := ToString (n / 1000) ++ "." ++ pad3 (n mod 1000) in
        Ret (if Qle_bool 0 q then body else "-" ++ body)
  end.

End JS.

(* ===================================================================== *)
(** * helpers: networking / cidr *)
(* ===================================================================== *)

Module Cidr.
Import JS.

(** [ip.split(".").map(Number).reduce((a, b) => (a << 8) + b)] *)
Definition ipToInt (ip : string) : outcome Z :=
  ns <- mapM Number (split "." ip) ;;
  match ns with
  | [] => Throw "Reduce of empty array with no initial value"
  | a :: rest => Ret (fold_left (fun a b => shl a 8 + b) rest a)
  end.

(** [[n >>> 24, (n >> 16) & 255, (n >> 8) & 255, n & 255].join(".")] *)
Definition intToIp (n : Z) : string :=
  join "." (map ToString
    [shr n 24; band (sar n 16) 255; band (sar n 8) 255; band n 255]).

Record bounds : Type := { first : Z; last : Z }.

Definition parseCIDR (cidr : string) : outcome bounds :=
  let parts := split "/" cidr in
  let base := nth_error parts 0 in
  let bitsStr := nth_error parts 1 in
  let bits := parseInt (ToString_opt bitsStr) in
  match bits with
  | None => Throw ("Bad CIDR: " ++ cidr)
  | Some bits =>
      if falsy base || (bits <? 0) || (bits >? 32)
      then Throw ("Bad CIDR: " ++ cidr)
      else
        baseInt <- ipToInt (ToString_opt base) ;;
        let mask :=
          if bits =? 0 then 0
          else shr (shr (shl (bnot 0) (32 - bits)) 0) 0 in
        let network := band baseInt mask in
        let size := 2 ^ (32 - bits) in
        let first := shr network 0 in
        let last := shr (network + size - 1) 0 in
        Ret {| first := first; last := last |}
  end.

(** [for (let b = start24; b <= end24; b += 256) blocks.push(b >>> 0)] *)
Equations? blocks_loop (b end24 : Z) : list Z
  by wf (Z.to_nat (end24 - b + 1)) lt :=
  blocks_loop b end24 with Z_le_gt_dec b end24 := {
    | left _ := shr b 0 :: blocks_loop (b + 256) end24
    | right _ := [] }.
Proof. lia. Qed.

Definition list24Blocks (cidr : string) : outcome (list Z) :=
  r <- parseCIDR cidr ;;
  let start24 := band (first r) 4294967040 in
  let end24 := band (last r) 4294967040 in
  Ret (blocks_loop start24 end24).

(** The candidate table, after [.map(x => Math.min(254, Math.max(1, x)))]. *)
Definition candidates : list Z :=
  map (fun x => Z.min 254 (Z.max 1 x))
      [10; 42; 77; 99; 123; 150; 180; 200; 220; 240].

(** [picks.add(off)] on a Set, which keeps insertion order. *)
Definition set_add (off : Z) (picks : list Z) : list Z :=
  if existsb (Z.eqb off) picks then picks else (picks ++ [off])%list.

(** The [while] loop of [sampleIPsIn24]; [Diverges] when the fuel runs
    out before the loop condition turns false. *)
Fixpoint sample_loop (fuel : nat) (k : Z) (picks : list Z) (idx : Z)
  : outcome (list Z) :=
  if Z.of_nat (List.length picks) <? Z.min k 254 then
    match fuel with
    | O => Diverges
    | S f =>
        let o :=
          nth (Z.to_nat (Z.rem idx (Z.of_nat (List.length candidates))))
              candidates 0
          + bor (Z.quot idx (Z.of_nat (List.length candidates))) 0 in
        let off := 1 + Z.rem (o - 1) 254 in
        sample_loop f k (set_add off picks) (idx + 1)
    end
  else Ret picks.

Definition sampleIPsIn24 (fuel : nat) (blockStartInt k : Z)
  : outcome (list string) :=
  picks <- sample_loop fuel k [] 0 ;;
  Ret (map (fun off => intToIp (shr (blockStartInt + off) 0))
           (slice0 k picks)).

(** [for (let off = 0; off < Math.min(limit, 256); off++) ips.push(...)] *)
Definition ipsOf24 (blockStartInt limit : Z) : list string :=
  map (fun off => intToIp (shr (blockStartInt + Z.of_nat off) 0))
      (seq 0 (Z.to_nat (Z.min limit 256))).

End Cidr.

(* ===================================================================== *)
(** * Promises *)
(* ===================================================================== *)

Inductive promise (A : Type) : Type :=
| Pending
| Fulfilled (v : A)
| Rejected (e : string).
Arguments Pending {A}.
Arguments Fulfilled {A} v.
Arguments Rejected {A} e.

(** Calling a promise's [resolve]: only the first call counts. *)
Definition resolve {A} (v : A) (p : promise A) : promise A :=
  match p with
  | Pending => Fulfilled v
  | _ => p
  end.

(** [await p] *)
Definition await {A} (p : promise A) : outcome A :=
  match p with
  | Fulfilled v => Ret v
  | Rejected e => Throw e
  | Pending => Diverges
  end.

(* ===================================================================== *)
(** * The three probes *)
(* ===================================================================== *)

Module Probe.
Import JS.

(** ** cheap TCP:80 open check *)

Inductive sock_event : Type := SockConnect | SockTimeout | SockError.

Definition sock_event_eqb (a b : sock_event) : bool :=
  match a, b with
  | SockConnect, SockConnect | SockTimeout, SockTimeout
  | SockError, SockError => true
  | _, _ => false
  end.

(** The socket of one [tcpOpen] call: the [once] listeners still
    registered, whether [destroy] was called, and the returned promise. *)
Record tcp_state : Type := {
  listeners : list sock_event;
  destroyed : bool;
  tcp_promise : promise bool
}.

Definition done (ok : bool) (st : tcp_state) : tcp_state :=
  {| listeners := listeners st;
     destroyed := true;
     tcp_promise := resolve ok (tcp_promise st) |}.

Definition tcp_init : tcp_state :=
  {| listeners := [SockConnect; SockTimeout; SockError];
     destroyed := false;
     tcp_promise := Pending |}.

Definition tcp_on (st : tcp_state) (ev : sock_event) : tcp_state :=
  if existsb (sock_event_eqb ev) (listeners st) then
    let st' := {| listeners :=
                    filter (fun l => negb (sock_event_eqb ev l)) (listeners st);
                  destroyed := destroyed st;
                  tcp_promise := tcp_promise st |} in
    match ev with
    | SockConnect => done true st'
    | SockTimeout => done false st'
    | SockError => done false st'
    end
  else st.

(** The promise of [tcpOpen(ip, timeout)] after the socket's events. *)
Definition tcpOpen (evs : list sock_event) : promise bool :=
  tcp_promise (fold_left tcp_on evs tcp_init).

(** ** optional HTTP HEAD verification *)

Inductive http_event : Type := HttpResponse | HttpTimeout | HttpError.

Record http_state : Type := {
  req_destroyed : bool;
  response_pending : bool;
  http_promise : promise bool
}.

Definition http_init : http_state :=
  {| req_destroyed := false; response_pending := true;
     http_promise := Pending |}.

Definition http_on (st : http_state) (ev : http_event) : http_state :=
  match ev with
  | HttpResponse =>
      if response_pending st then
        {| req_destroyed := req_destroyed st;
           response_pending := false;
           http_promise := resolve true (http_promise st) |}
      else st
  | HttpTimeout =>
      {| req_destroyed := true;
         response_pending := response_pending st;
         http_promise := resolve false (http_promise st) |}
  | HttpError =>
      {| req_destroyed := req_destroyed st;
         response_pending := response_pending st;
         http_promise := resolve false (http_promise st) |}
  end.

(** The promise of [httpHead(ip, hostHeaderVal, timeout)] after the
    request's events. *)
Definition httpHead (evs : list http_event) : promise bool :=
  http_promise (fold_left http_on evs http_init).

(** ** ping *)

(** The [ms] field: [null] or a number. *)
Inductive jsval : Type := VNull | VNumber (x : float).

Definition typeof_number (v : jsval) : bool :=
  match v with VNumber _ => true | VNull => false end.

Record ping_result : Type := { ok : bool; ms : jsval }.

Definition lower (c : ascii) : ascii :=
  let n := code c in
  if (65 <=? n) && (n <=? 90) then ascii_of_nat (Z.to_nat (n + 32)) else c.

(** Consume a literal, ignoring case. *)
Fixpoint eat_ci (lit s : string) : option string :=
  match lit, s with
  | EmptyString, _ => Some s
  | String a lit', String c s' =>
      if Ascii.eqb (lower c) a then eat_ci lit' s' else None
  | String _ _, EmptyString => None
  end.

Definition isNumChar (c : ascii) : bool := isDigit c || Ascii.eqb c ".".

Fixpoint spanNum (s : string) : string * string :=
  match s with
  | String c r =>
      if isNumChar c then let (d, t) := spanNum r in (String c d, t)
      else (EmptyString, s)
  | EmptyString => (EmptyString, EmptyString)
  end.

(** [/time[=<]?\s*([\d.]+)\s*ms/i] anchored at the start of [s]: the
    captured group.  Each greedy piece is followed by a piece that none
    of its own characters can start, so the first greedy choice is the
    only one that can succeed and no backtracking is needed. *)
Definition match_time_here (s : string) : option string :=
  match eat_ci "time" s with
  | None => None
  | Some s1 =>
      let s2 := match s1 with
                | String "=" r => r
                | String "<" r => r
                | _ => s1
                end in
      let (g, s4) := spanNum (trimStart s2) in
      match g with
      | EmptyString => None
      | _ => match eat_ci "ms" (trimStart s4) with
             | Some _ => Some g
             | None => None
             end
      end
  end.

(** [out.match(/time[=<]?\s*([\d.]+)\s*ms/i)]: the group of the leftmost
    match. *)
Fixpoint match_time (out : string) : option string :=
  match match_time_here out with
  | Some g => Some g
  | None => match out with
            | String _ r => match_time r
            | EmptyString => None
            end
  end.

Inductive ping_event : Type :=
| PingStdout (d : string)
| PingStderr (d : string)
| PingKiller
| PingClose
| PingError.

(** The child process of one [pingOnce] call. *)
Record ping_state : Type := {
  out : string;
  killer_armed : bool;
  killed : bool;
  ping_promise : promise ping_result
}.

Definition ping_init : ping_state :=
  {| out := ""; killer_armed := true; killed := false;
     ping_promise := Pending |}.

(** What the [close] handler resolves with, given the collected output:
    [const m = out.match(...); if (m) return resolve({ ok: true, ms:
    parseFloat(m[1]) }); resolve({ ok: false, ms: null });] *)
Definition report (out : string) : ping_result :=
  match match_time out with
  | Some g => {| ok := true; ms := VNumber (parseFloat g) |}
  | None => {| ok := false; ms := VNull |}
  end.

Definition ping_on (st : ping_state) (ev : ping_event) : ping_state :=
  match ev with
  | PingStdout d | PingStderr d =>
      {| out := out st ++ d; killer_armed := killer_armed st;
         killed := killed st; ping_promise := ping_promise st |}
  | PingKiller =>
      if killer_armed st then
        {| out := out st; killer_armed := false; killed := true;
           ping_promise := ping_promise st |}
      else st
  | PingClose =>
      {| out := out st; killer_armed := false; killed := killed st;
         ping_promise := resolve (report (out st)) (ping_promise st) |}
  | PingError =>
      {| out := out st; killer_armed := false; killed := killed st;
         ping_promise := resolve {| ok := false; ms := VNull |}
                                 (ping_promise st) |}
  end.

(** The promise of [pingOnce(ip, timeout)] after the child's events. *)
Definition pingOnce (evs : list ping_event) : promise ping_result :=
  ping_promise (fold_left ping_on evs ping_init).

End Probe.
(* ===================================================================== *)
(** * queue *)
(* ===================================================================== *)

Module Queue.

(** How a task body's promise settles. *)
Inductive settlement : Type :=
| Resolves (v : string)
| Rejects (e : string).

(** A job [{ fn, resolve, reject }] is named by the order of its
    submission. *)
Definition job : Type := nat.

(** The closure of [createQueue(limit)] and what surrounds it: the
    counter [active], the array [q], the jobs whose [fn()] promise is
    still pending ([running]), the jobs whose promise has settled but whose
    [finally] callback has not run yet ([finishing]), and the promises
    returned to the callers ([futures], by job). *)
Record state : Type := {
  active : Z;
  q : list job;
  running : list job;
  finishing : list job;
  futures : list (job * promise string);
  submitted : nat
}.

Definition init : state :=
  {| active := 0; q := []; running := []; finishing := [];
     futures := []; submitted := 0 |}.

(** [while (active < limit && q.length) { active++; const job = q.shift();
    job.fn()... }]: one iteration per queued job that is let in. *)
Fixpoint pump_loop (limit active : Z) (q running : list job)
  : Z * list job * list job :=
  match q with
  | [] => (active, q, running)
  | j :: q' =>
      if active <? limit
      then pump_loop limit (active + 1) q' (running ++ [j])
      else (active, q, running)
  end.

Definition pump (limit : Z) (st : state) : state :=
  let '(a, q', r) := pump_loop limit (active st) (q st) (running st) in
  {| active := a; q := q'; running := r; finishing := finishing st;
     futures := futures st; submitted := submitted st |}.

Inductive event : Type :=
| Submit                              (* a caller invokes the queue *)
| Settle (j : job) (o : settlement)   (* the promise of [job.fn()] settles *)
| Finally (j : job).                  (* the [finally] callback runs *)

Definition remove_job (j : job) (l : list job) : list job :=
  filter (fun x => negb (Nat.eqb x j)) l.

Definition mem_job (j : job) (l : list job) : bool :=
  existsb (Nat.eqb j) l.

Definition settle_future (j : job) (o : settlement)
  (fs : list (job * promise string)) : list (job * promise string) :=
  map (fun jp : job * promise string =>
         if Nat.eqb (fst jp) j then
           (fst jp, match snd jp, o with
                    | Pending, Resolves v => Fulfilled v
                    | Pending, Rejects e => Rejected e
                    | p, _ => p
                    end)
         else jp) fs.

(** One turn of the event loop; [None] when the event cannot happen in
    this state. *)
Definition step (limit : Z) (st : state) (ev : event) : option state :=
  match ev with
  | Submit =>
      let j := submitted st in
      Some (pump limit
        {| active := active st; q := q st ++ [j]; running := running st;
           finishing := finishing st;
           futures := futures st ++ [(j, Pending)];
           submitted := S (submitted st) |})
  | Settle j o =>
      if mem_job j (running st) then
        Some {| active := active st; q := q st;
                running := remove_job j (running st);
                finishing := finishing st ++ [j];
                futures := settle_future j o (futures st);
                submitted := submitted st |}
      else None
  | Finally j =>
      if mem_job j (finishing st) then
        Some (pump limit
          {| active := active st - 1; q := q st; running := running st;
             finishing := remove_job j (finishing st);
             futures := futures st; submitted := submitted st |})
      else None
  end.

Fixpoint run (limit : Z) (st : state) (evs : list event) : option state :=
  match evs with
  | [] => Some st
  | ev :: r => match step limit st ev with
               | Some st' => run limit st' r
               | None => None
               end
  end.

Definition is_submit (ev : event) : bool :=
  match ev with Submit => true | _ => false end.

(** The caller's promise of job [j] has settled. *)
Definition settled (st : state) (j : job) : Prop :=
  exists p, In (j, p) (futures st) /\ p <> Pending.

(** Turns still owed by the jobs already submitted. *)
Definition owed (st : state) : nat :=
  2 * List.length (q st) + 2 * List.length (running st)
  + List.length (finishing st).

End Queue.

(* ===================================================================== *)
(** * main scan *)
(* ===================================================================== *)

Module Scan.
Import JS Cidr Probe.

(** The configuration, once the defaults of the destructuring have been
    applied. *)
Record config : Type := {
  cidrs : list string;
  hostHeader : string;
  timeoutMs : Z;
  concurrency : Z;
  samplesPer24 : Z;
  expandLimitPer24 : Z;
  fallbackFile : string
}.

Inductive stage : Type := StageA | StageB.

(** What the scan does not decide: how the range list is acquired, the
    events that reach each probe (by stage and by the index of the task
    that issues it), and the order in which the tasks of a stage complete
    (given their number). *)
Record world : Type := {
  fastly : outcome (list string);
  readFile : string -> outcome string;
  sockEvents : stage -> nat -> list sock_event;
  httpEvents : stage -> nat -> list http_event;
  pingEvents : nat -> list ping_event;
  orderA : nat -> list nat;
  orderB : nat -> list nat
}.

(** [{ block: b, ip }] *)
Record target : Type := { block : Z; t_ip : string }.

(** [{ ip, ms: p.ms }] *)
Record entry : Type := { ip : string; ms : float }.

Inductive notification : Type :=
| OnStage (name label : string) (total : Z)
| OnProgress (stage : string) (done total : Z)
| OnValid (item : entry)
| OnLog (text : string).

(** The variables that the tasks of the two stages share, and the calls
    made to the hooks so far. *)
Record vars : Type := {
  hotBlocks : list Z;
  stageADone : Z;
  stageBDone : Z;
  valid : list entry;
  emitted : list notification
}.

Module Result.
Record t : Type := {
  hotBlocks : Z;
  totalBlocks : Z;
  validCount : Z;
  valid : list entry;
  txt : string;
  csv : string
}.
End Result.

Definition truthy (s : string) : bool :=
  match s with EmptyString => false | _ => true end.

Definition len {A} (l : list A) : Z := Z.of_nat (List.length l).

(** ** gather cidrs *)

(** The range list that is scanned and the lines logged on the way.  (The
    ellipsis character of the first line is written as three dots.) *)
Definition gatherCidrs (w : world) (config : config)
  : outcome (list string * list notification) :=
  match cidrs config with
  | _ :: _ => Ret (cidrs config, [])
  | [] =>
      let log1 :=
        [OnLog "No CIDR input provided; fetching from Fastly public IP list..."] in
      match fastly w with
      | Ret l =>
          Ret (l, log1 ++ [OnLog ("Fetched " ++ ToString (len l)
                                   ++ " CIDR blocks from Fastly.")])%list
      | Throw msg =>
          let fallbackPath :=
            if truthy (fallbackFile config) then fallbackFile config
            else "cidrs.txt" in
          let combined msg2 :=
            "Fastly fetch failed AND fallback file could not be loaded."
            ++ String "010" ("Fastly error: " ++ msg
            ++ String "010" ("Fallback error: " ++ msg2)) in
          match readFile w fallbackPath with
          | Ret text =>
              (* [split(/\r?\n/)] then [trim]: a carriage return left by
                 splitting at the line feed alone is trimmed away. *)
              let l := filter truthy (map trim (split "010" text)) in
              match l with
              | [] => Throw (combined "Fallback file is empty.")
              | _ =>
                  Ret (l, log1 ++
                    [OnLog ("Fastly fetch failed: " ++ msg);
                     OnLog "Falling back to local CIDR file...";
                     OnLog ("Loaded " ++ ToString (len l)
                            ++ " CIDRs from fallback file: "
                            ++ fallbackPath)])%list
              end
          | Throw msg2 => Throw (combined msg2)
          | OutOfModel => OutOfModel
          | Diverges => Diverges
          end
      | OutOfModel => OutOfModel
      | Diverges => Diverges
      end
  end.

(** ** blocks and sample targets *)

(** Iterations granted to the loop of [sampleIPsIn24]. *)
Definition sample_fuel : nat := 2540.

(** [for (const b of blocks) { const picks = sampleIPsIn24(b, samplesPer24);
    for (const ip of picks) sampleTargets.push({ block: b, ip }); }] *)
Fixpoint sampleTargetsOf (blocks : list Z) (samplesPer24 : Z)
  : outcome (list target) :=
  match blocks with
  | [] => Ret []
  | b :: r =>
      picks <- sampleIPsIn24 sample_fuel b samplesPer24 ;;
      rest <- sampleTargetsOf r samplesPer24 ;;
      Ret (map (fun ip => {| block := b; t_ip := ip |}) picks ++ rest)%list
  end.

(** ** the stages *)

Definition hot_add (b : Z) (st : vars) : vars :=
  {| hotBlocks := set_add b (hotBlocks st);
     stageADone := stageADone st; stageBDone := stageBDone st;
     valid := valid st; emitted := emitted st |}.

Definition emit (n : notification) (st : vars) : vars :=
  {| hotBlocks := hotBlocks st;
     stageADone := stageADone st; stageBDone := stageBDone st;
     valid := valid st; emitted := (emitted st ++ [n])%list |}.

(** [stageADone++; onProgress({ stage: "A", done: stageADone, total })] *)
Definition tickA (total : Z) (st : vars) : vars :=
  emit (OnProgress "A" (stageADone st + 1) total)
    {| hotBlocks := hotBlocks st;
       stageADone := stageADone st + 1; stageBDone := stageBDone st;
       valid := valid st; emitted := emitted st |}.

(** [stageBDone++; onProgress({ stage: "B", done: stageBDone, total })] *)
Definition tickB (total : Z) (st : vars) : vars :=
  emit (OnProgress "B" (stageBDone st + 1) total)
    {| hotBlocks := hotBlocks st;
       stageADone := stageADone st; stageBDone := stageBDone st + 1;
       valid := valid st; emitted := emitted st |}.

(** [valid.push(item); onValid(item)] *)
Definition accept (item : entry) (st : vars) : vars :=
  emit (OnValid item)
    {| hotBlocks := hotBlocks st;
       stageADone := stageADone st; stageBDone := stageBDone st;
       valid := (valid st ++ [item])%list; emitted := emitted st |}.

(** The body of a Stage A task.  Its writes to the shared variables all
    happen after its last [await]. *)
Definition taskA (w : world) (hostHeader : string) (total : Z)
  (i : nat) (t : target) (st : vars) : outcome vars :=
  open <- await (tcpOpen (sockEvents w StageA i)) ;;
  st1 <- (if open : bool then
            if truthy hostHeader then
              ok <- await (httpHead (httpEvents w StageA i)) ;;
              Ret (if ok : bool then hot_add (block t) st else st)
            else Ret (hot_add (block t) st)
          else Ret st) ;;
  Ret (tickA total st1).

(** The body of a Stage B task. *)
Definition taskB (w : world) (hostHeader : string) (total : Z)
  (i : nat) (ip : string) (st : vars) : outcome vars :=
  open <- await (tcpOpen (sockEvents w StageB i)) ;;
  if negb open then Ret (tickB total st)
  else
    let rest :=
      p <- await (pingOnce (pingEvents w i)) ;;
      Ret (tickB total
             match Probe.ok p, Probe.ms p with
             | true, VNumber x => accept {| ip := ip; ms := x |} st
             | _, _ => st
             end) in
    if truthy hostHeader then
      ok <- await (httpHead (httpEvents w StageB i)) ;;
      if negb ok then Ret (tickB total st) else rest
    else rest.

(** [await Promise.all(targets.map((t) => limitQ(async () => ...)))]: the
    tasks take effect in the order in which they complete. *)
Fixpoint run_tasks {T} (task : nat -> T -> vars -> outcome vars)
  (targets : list T) (order : list nat) (st : vars) : outcome vars :=
  match order with
  | [] => Ret st
  | i :: r =>
      match nth_error targets i with
      | Some t => st' <- task i t st ;; run_tasks task targets r st'
      | None => run_tasks task targets r st
      end
  end.

(** ** completion *)

(** [a.ms - b.ms] *)
Definition comparefn (a b : entry) : float := fsub (ms a) (ms b).

Fixpoint insert (x : entry) (l : list entry) : list entry :=
  match l with
  | [] => [x]
  | y :: r =>
      if positive (comparefn x y) then y :: insert x r else x :: y :: r
  end.

(** [valid.sort((a, b) => a.ms - b.ms)].  The builtin is a stable sort;
    with a consistent comparator its result is the one stable ordering,
    computed here by insertion.  With a NaN latency among several entries
    the comparator is not consistent and the order is left to the
    runtime. *)
Definition sort (l : list entry) : outcome (list entry) :=
  match l with
  | [] | [_] => Ret l
  | _ => if existsb (fun e => isNaN (ms e)) l then OutOfModel
         else Ret (fold_right insert [] l)
  end.

Definition csvRow (v : entry) : outcome string :=
  f <- toFixed3 (ms v) ;; Ret (ip v ++ "," ++ f).

Definition finish (blocks : list Z) (st : vars)
  : outcome (Result.t * list notification) :=
  sorted <- sort (valid st) ;;
  rows <- mapM csvRow sorted ;;
  let txt := join (String "010" "") (map ip sorted) in
  let csv := "ip,ping_ms" ++ String "010" (join (String "010" "") rows) in
  Ret ({| Result.hotBlocks := len (hotBlocks st);
          Result.totalBlocks := len blocks;
          Result.validCount := len sorted;
          Result.valid := sorted;
          Result.txt := txt;
          Result.csv := csv |}, emitted st).

(** The blocks and the Stage A sample targets of a range list. *)
Definition planStageA (finalCidrs : list string) (samplesPer24 : Z)
  : outcome (list Z * list target) :=
  blocks <- flatMapM list24Blocks finalCidrs ;;
  match blocks with
  | [] => Throw "No /24 blocks to scan."
  | _ =>
      sampleTargets <- sampleTargetsOf blocks samplesPer24 ;;
      Ret (blocks, sampleTargets)
  end.

(** Has each of [n] tasks completed, and each once? *)
Definition completes (n : nat) (order : list nat) : bool :=
  Nat.eqb (List.length order) n
  && forallb (fun i => existsb (Nat.eqb i) order) (seq 0 n).

(** [const limitQ = createQueue(concurrency)] and
    [await Promise.all(targets.map((t) => limitQ(async () => ...)))].
    The promise of [Promise.all] is fulfilled once every task has
    completed, and at once for an empty array.  The queue starts a job
    only while [active < limit]: with a limit below 1 no task ever
    starts and the stage does not end, and it does not end either while
    a task is missing from the completions. *)
Definition run_stage {T} (concurrency : Z)
  (task : nat -> T -> vars -> outcome vars)
  (targets : list T) (order : list nat) (st : vars) : outcome vars :=
  match targets with
  | [] => Ret st
  | _ :: _ =>
      if (1 <=? concurrency) && completes (List.length targets) order
      then run_tasks task targets order st
      else Diverges
  end.

(** The scan up to [valid.sort]: the blocks, and the shared variables
    when Stage B ends. *)
Definition scanStages (w : world) (config : config)
  : outcome (list Z * vars) :=
  g <- gatherCidrs w config ;;
  let (finalCidrs, log0) := g : list string * list notification in
  plan <- planStageA finalCidrs (samplesPer24 config) ;;
  let (blocks, sampleTargets) := plan : list Z * list target in
  (* Stage A *)
  let totalA := len sampleTargets in
  let st0 :=
    {| hotBlocks := []; stageADone := 0; stageBDone := 0; valid := [];
       emitted := (log0 ++ [OnStage "A" "Stage A (sample)" totalA])%list |} in
  stA <- run_stage (concurrency config)
           (taskA w (hostHeader config) totalA) sampleTargets
           (orderA w (List.length sampleTargets)) st0 ;;
  (* expand list *)
  let expandTargets :=
    flat_map (fun b => ipsOf24 b (expandLimitPer24 config)) (hotBlocks stA) in
  (* Stage B *)
  let totalB := len expandTargets in
  let st1 := emit (OnStage "B" "Stage B (expand)" totalB) stA in
  stB <- run_stage (concurrency config)
           (taskB w (hostHeader config) totalB) expandTargets
           (orderB w (List.length expandTargets)) st1 ;;
  Ret (blocks, stB).

Definition runSmartScan (w : world) (config : config)
  : outcome (Result.t * list notification) :=
  s <- scanStages w config ;;
  let (blocks, stB) := s : list Z * vars in
  finish blocks stB.

End Scan.

(* ===================================================================== *)
(** * Fastly public IP fetch, and the callers of the scan *)
(* ===================================================================== *)

Module Fetch.
Import JS.

(** The document that [res.json()] parses: [null], or a value whose
    [addresses] property is an array of texts or something else. *)
Inductive document : Type :=
| JNull
| JDoc (addresses : option (list string)).

(** The response of [fetch]: [res.ok], [res.status], and what
    [res.json()] settles with. *)
Record response : Type := {
  res_ok : bool;
  status : Z;
  json : outcome document
}.

(** [fetchFastlyCidrs]; [fetched] is what [await fetch(url, ...)] gives,
    a thrown error when the request fails or the timer aborts it. *)
Definition fetchFastlyCidrs (fetched : outcome response)
  : outcome (list string) :=
  res <- fetched ;;
  if negb (res_ok res)
  then Throw ("Fastly API HTTP " ++ ToString (status res))
  else
    doc <- json res ;;
    match doc with
    | JNull => Throw "Cannot read properties of null (reading 'addresses')"
    | JDoc a =>
        let v4 := match a with Some l => l | None => [] end in
        match v4 with
        | [] => Throw "Fastly API returned no IPv4 addresses"
        | _ => Ret v4
        end
    end.

End Fetch.

Module Caller.
Import JS.

(** [text.split(/\r?\n/).map((s) => s.trim()).filter(Boolean)], as the
    file handler of the main process and [readCidrsFromTextarea] of the
    renderer read a range list.  Splitting at the line feed alone leaves a
    carriage return at the end of a piece, which [trim] takes away. *)
Definition cidrLines (text : string) : list string :=
  filter (fun s => match s with EmptyString => false | _ => true end)
         (map trim (split "010" text)).

(** The double nearest to a rational of either sign. *)
Definition nearest (x : Q) : float :=
  if Qle_bool 0 x then round64 x
  else match round64 (- x) with
       | Fin r => Fin (- r)
       | PInf => NInf
       | f => f
       end.

(** The percentage of [setProgress]:
    [total <= 0 ? 0 : Math.floor((done * 100) / total)], for [done] and
    [total] that are integers of at most 2^53 in magnitude (these are
    doubles; the counters of a scan are such).  The product and the
    quotient are the nearest doubles, and [Math.floor] of a double is
    exact. *)
Definition progressPct (done total : Z) : outcome Z :=
  if 2 ^ 53 <? Z.abs total then OutOfModel
  else if total <=? 0 then Ret 0
  else if 2 ^ 53 <? Z.abs done then OutOfModel
  else
    match nearest (inject_Z done * inject_Z 100) with
    | Fin product =>
        match nearest (product / inject_Z total) with
        | Fin quotient => Ret (Qfloor quotient)
        | _ => OutOfModel
        end
    | _ => OutOfModel
    end.

End Caller.

(* ===================================================================== *)
(** * Vocabulary of the properties *)
(* ===================================================================== *)

Module Props.
Import JS Cidr.

Definition octet (n : Z) : Prop := 0 <= n <= 255.

(** The dotted text of four numbers, as [intToIp] writes it. *)
Definition dotted (a b c d : Z) : string :=
  join "." (map ToString [a; b; c; d]).

(** The value that [ipToInt] folds four octets into. *)
Definition fold4 (a b c d : Z) : Z :=
  shl (shl (shl a 8 + b) 8 + c) 8 + d.

(** Does the character occur in the text? *)
Fixpoint has (c : ascii) (s : string) : bool :=
  match s with
  | EmptyString => false
  | String x r => Ascii.eqb x c || has c r
  end.

(** The arithmetic of [parseCIDR] once the base address and the prefix
    length are numbers. *)
Definition networkBounds (baseInt bits : Z) : bounds :=
  let mask :=
    if bits =? 0 then 0
    else shr (shr (shl (bnot 0) (32 - bits)) 0) 0 in
  let network := band baseInt mask in
  let size := 2 ^ (32 - bits) in
  {| first := shr network 0; last := shr (network + size - 1) 0 |}.

(** The first address of the 256-address partition that holds [z]. *)
Definition align24 (z : Z) : Z := 256 * (z / 256).

(** What is checked of the text of a number below 256: it holds neither
    separator, [Number] and [parseInt] read it back, and it is not empty. *)
Definition text_ok (n : Z) : bool :=
  let s := ToString n in
  negb (has "." s) && negb (has "/" s)
  && match Number s with Ret m => m =? n | _ => false end
  && match parseInt s with Some m => m =? n | None => false end
  && match s with EmptyString => false | _ => true end.

(** The two parts of a range text that [parseCIDR] looks at. *)
Definition baseOf (cidr : string) : option string :=
  nth_error (split "/" cidr) 0.
Definition bitsOf (cidr : string) : option Z :=
  parseInt (ToString_opt (nth_error (split "/" cidr) 1)).

Fixpoint nodupb (l : list Z) : bool :=
  match l with
  | [] => true
  | x :: r => negb (existsb (Z.eqb x) r) && nodupb r
  end.

(** What is checked of the sampling loop for one target size: it stops
    within the fuel with that many offsets, no two equal, all in 1..254. *)
Definition sample_ok (t : Z) : bool :=
  match sample_loop Scan.sample_fuel t [] 0 with
  | Ret picks =>
      (Z.of_nat (List.length picks) =? t) && nodupb picks
      && forallb (fun off => (1 <=? off) && (off <=? 254)) picks
  | _ => false
  end.

End Props.


Module QueueProps.
Import Queue.

(** The jobs that have been submitted and whose [finally] callback has
    not run yet. *)
Definition live (st : state) : list job :=
  q st ++ running st ++ finishing st.

(** What holds of the queue between two turns of the event loop. *)
Record Inv (limit : Z) (st : state) : Prop := {
  inv_active :
    active st = Z.of_nat (List.length (running st)
                          + List.length (finishing st));
  inv_limit : active st <= limit;
  inv_full : q st = [] \/ limit <= active st;
  inv_futures : map fst (futures st) = seq 0 (submitted st);
  inv_nodup : NoDup (live st);
  inv_known : forall j, In j (live st) -> (j < submitted st)%nat;
  inv_pending : forall j p, In (j, p) (futures st) ->
                  (p = Pending <-> In j (q st ++ running st))
}.

(** No completion event can happen: nothing runs and no callback is due. *)
Definition quiescent (limit : Z) (st : state) : Prop :=
  forall ev, is_submit ev = false -> step limit st ev = None.

Definition promise_of (o : settlement) : promise string :=
  match o with
  | Resolves v => Fulfilled v
  | Rejects e => Rejected e
  end.

End QueueProps.

Module ProbeProps.
Import JS Probe.

(** Events that neither close the child nor report an error. *)
Definition is_data (ev : ping_event) : bool :=
  match ev with
  | PingStdout _ | PingStderr _ | PingKiller => true
  | PingClose | PingError => false
  end.

(** The output collected from a run of events. *)
Fixpoint collected (evs : list ping_event) : string :=
  match evs with
  | [] => ""
  | PingStdout d :: r | PingStderr d :: r => d ++ collected r
  | _ :: r => collected r
  end.

Fixpoint all_chars (f : ascii -> bool) (s : string) : bool :=
  match s with
  | EmptyString => true
  | String c r => f c && all_chars f r
  end.

Fixpoint lower_text (s : string) : string :=
  match s with
  | EmptyString => EmptyString
  | String c r => String (lower c) (lower_text r)
  end.

(** The text after an optional [=] or [<]. *)
Definition skip_sep (s1 : string) : string :=
  match s1 with
  | String "=" r => r
  | String "<" r => r
  | _ => s1
  end.

(** What the pattern [/time[=<]?\s*([\d.]+)\s*ms/i] asks of a text: it
    holds, somewhere, the word [time] in any case, then at most one of
    [=] and [<], white space, a run [g] of digits and dots that is not
    empty, white space, and [ms] in any case. *)
Definition time_text (o g : string) : Prop :=
  exists pre t sep ws1 ws2 u rest,
    o = pre ++ t ++ sep ++ ws1 ++ g ++ ws2 ++ u ++ rest /\
    lower_text t = "time" /\
    (sep = "" \/ sep = "=" \/ sep = "<") /\
    all_chars isWhite ws1 = true /\
    g <> "" /\ all_chars isNumChar g = true /\
    all_chars isWhite ws2 = true /\
    lower_text u = "ms".

(** A settled ping promise holds a report of the [close] handler or the
    negative result of the [error] handler. *)
Definition ping_shape (p : promise ping_result) : Prop :=
  match p with
  | Pending => True
  | Fulfilled r =>
      r = {| ok := false; ms := VNull |} \/
      exists x, r = {| ok := true; ms := VNumber x |}
  | Rejected _ => False
  end.

End ProbeProps.

Module ScanProps.
Import JS Probe Scan.

(** [x <= y] on numbers; NaN is not comparable. *)
Definition fleb (x y : float) : bool :=
  match x, y with
  | FNaN, _ | _, FNaN => false
  | NInf, _ => true
  | _, PInf => true
  | Fin a, Fin b => Qle_bool a b
  | _, _ => false
  end.

(** The same latency. *)
Definition feqb (x y : float) : bool := fleb x y && fleb y x.

Definition by_latency (a b : entry) : Prop := fleb (ms a) (ms b) = true.

(** Does the entry have latency [v]? *)
Definition same_latency (v : float) (e : entry) : bool := feqb (ms e) v.

(** The entries announced through [onValid], in the order of the calls. *)
Definition validFound (notes : list notification) : list entry :=
  flat_map (fun n => match n with OnValid item => [item] | _ => [] end) notes.

(** A world in which every address answers on TCP and to ping, and no
    HTTP request is answered. *)
Definition world_open : world :=
  {| fastly := Throw "offline";
     readFile := fun _ => Throw "ENOENT";
     sockEvents := fun _ _ => [SockConnect];
     httpEvents := fun _ _ => [HttpError];
     pingEvents := fun _ =>
       [PingStdout "64 bytes from 10.0.0.1: icmp_seq=1 ttl=57 time=12.3 ms";
        PingClose];
     orderA := fun n => seq 0 n;
     orderB := fun n => rev (seq 0 n) |}.

(** A scan of four addresses: one block, one sample, three addresses
    expanded. *)
Definition config_small : config :=
  {| cidrs := ["10.0.0.0/30"]; hostHeader := ""; timeoutMs := 1000;
     concurrency := 4; samplesPer24 := 1; expandLimitPer24 := 3;
     fallbackFile := "" |}.

Definition vars0 : vars :=
  {| hotBlocks := []; stageADone := 0; stageBDone := 0; valid := [];
     emitted := [] |}.

End ScanProps.
(* ===================================================================== *)
(** * Vocabulary of the further properties *)
(* ===================================================================== *)

Module MoreProps.
Import JS Cidr Props.

(** The offsets in the order in which the sampling loop finds them, when
    it is asked for all 254. *)
Definition full_offsets : list Z :=
  match sample_loop Scan.sample_fuel 254 [] 0 with
  | Ret l => l
  | _ => []
  end.

Fixpoint list_eqb (l l' : list Z) : bool :=
  match l, l' with
  | [], [] => true
  | x :: r, y :: r' => (x =? y) && list_eqb r r'
  | _, _ => false
  end.

(** What is checked of the sampling loop for one target size: it returns
    the first offsets of [full_offsets]. *)
Definition nested_ok (t : Z) : bool :=
  match sample_loop Scan.sample_fuel t [] 0 with
  | Ret l => list_eqb l (firstn (Z.to_nat t) full_offsets)
  | _ => false
  end.

(** Every offset from 1 to 254 is among [full_offsets]. *)
Definition covered_ok (off : Z) : bool := existsb (Z.eqb off) full_offsets.

End MoreProps.

Module MoreProbeProps.
Import JS Probe.

(** The socket is destroyed exactly when the promise is fulfilled. *)
Definition tcp_ok (st : tcp_state) : Prop :=
  match tcp_promise st with
  | Pending => destroyed st = false
  | Fulfilled _ => destroyed st = true
  | Rejected _ => False
  end.

(** Does the kill timer fire before the child closes or fails? *)
Fixpoint killer_first (evs : list ping_event) : bool :=
  match evs with
  | [] => false
  | PingKiller :: _ => true
  | PingClose :: _ | PingError :: _ => false
  | _ :: r => killer_first r
  end.

(** A latency that is not negative: a finite number from 0 up, positive
    infinity, or NaN. *)
Definition not_negative (x : float) : Prop :=
  match x with
  | Fin q => (0 <= q)%Q
  | PInf | FNaN => True
  | NInf => False
  end.

(** Does the child process close or fail? *)
Definition closes (evs : list ping_event) : bool :=
  existsb (fun ev => negb (ProbeProps.is_data ev)) evs.

End MoreProbeProps.

Module MoreQueueProps.
Import Queue.

(** The waiting jobs are the latest submitted ones, in the order of their
    submission. *)
Definition fifo (st : state) : Prop :=
  (List.length (q st) <= submitted st)%nat /\
  q st = seq (submitted st - List.length (q st)) (List.length (q st)).

(** Nothing has been started and nothing is settled. *)
Definition starved (st : state) : Prop :=
  active st = 0 /\ running st = [] /\ finishing st = [] /\
  q st = seq 0 (submitted st) /\
  forall j p, In (j, p) (futures st) -> p = Pending.

End MoreQueueProps.


Module CallerProps.
Import JS Props.

(** A line as a range list holds it: not empty, without white space at
    either end, and without a line feed. *)
Definition clean (l : string) : Prop :=
  l <> "" /\ trim l = l /\ has "010" l = false.

(** Does the text begin with a character that is not white space?  (The
    empty text does.) *)
Definition headOk (s : string) : Prop :=
  match s with
  | String c _ => isWhite c = false
  | EmptyString => True
  end.

End CallerProps.

Module MoreScanProps.
Import JS Cidr Probe Scan.

(** Does the Stage A sample of task [i] mark its block hot? *)
Definition answersA (w : world) (hostHeader : string) (i : nat) : bool :=
  match tcpOpen (sockEvents w StageA i) with
  | Fulfilled true =>
      if truthy hostHeader then
        match httpHead (httpEvents w StageA i) with
        | Fulfilled true => true
        | _ => false
        end
      else true
  | _ => false
  end.

(** The shared variables when Stage A starts. *)
Definition startA (log0 : list notification) (totalA : Z) : vars :=
  {| hotBlocks := []; stageADone := 0; stageBDone := 0; valid := [];
     emitted := (log0 ++ [OnStage "A" "Stage A (sample)" totalA])%list |}.

(** The Stage B targets of a list of hot blocks. *)
Definition expandTargets (config : config) (hot : list Z) : list string :=
  flat_map (fun b => ipsOf24 b (expandLimitPer24 config)) hot.

(** The indices of [order] that name a task. *)
Definition arrived {T} (targets : list T) (order : list nat) : list nat :=
  filter (fun i => Nat.ltb i (List.length targets)) order.

(** The [(done, total)] pairs reported through [onProgress] for a stage,
    in the order of the calls. *)
Definition progressOf (stage : string) (notes : list notification)
  : list (Z * Z) :=
  flat_map (fun n => match n with
                     | OnProgress s d t =>
                         if String.eqb s stage then [(d, t)] else []
                     | _ => []
                     end) notes.

(** The stages announced through [onStage], with their totals. *)
Definition stagesOf (notes : list notification) : list (string * Z) :=
  flat_map (fun n => match n with
                     | OnStage name _ total => [(name, total)]
                     | _ => []
                     end) notes.

(** [(from + 1, total), ..., (from + n, total)] *)
Definition countUp (from : Z) (total : Z) (n : nat) : list (Z * Z) :=
  map (fun k => (from + Z.of_nat k, total)) (seq 1 n).

(** What the completion of Stage A task [i] does to the set of hot
    blocks. *)
Definition mark (w : world) (hostHeader : string) (targets : list target)
  (hot : list Z) (i : nat) : list Z :=
  match nth_error targets i with
  | Some t => if answersA w hostHeader i then set_add (block t) hot else hot
  | None => hot
  end.

(** The notification of a [(done, total)] pair of Stage A. *)
Definition noteA (p : Z * Z) : notification :=
  OnProgress "A" (fst p) (snd p).

(** A latency that sorting and the CSV row handle within the model: not
    NaN, and below 10^21 in magnitude when finite. *)
Definition tame (x : float) : bool :=
  match x with
  | Fin q => negb (Qle_bool (inject_Z (10 ^ 21)) (Qabs q))
  | PInf | NInf => true
  | FNaN => false
  end.

(** Every entry found so far has a tame latency. *)
Definition fine (st : vars) : Prop :=
  Forall (fun e => tame (ms e) = true) (valid st).

(** The latency with which Stage B task [i] accepts its address, if it
    does: the TCP check succeeds, the HTTP check succeeds when a host
    header is configured, and the ping reports [ok] with a number. *)
Definition acceptsB (w : world) (hostHeader : string) (i : nat)
  : option float :=
  match tcpOpen (sockEvents w StageB i) with
  | Fulfilled true =>
      match (if truthy hostHeader then httpHead (httpEvents w StageB i)
             else Fulfilled true) with
      | Fulfilled true =>
          match pingOnce (pingEvents w i) with
          | Fulfilled p =>
              match Probe.ok p, Probe.ms p with
              | true, VNumber x => Some x
              | _, _ => None
              end
          | _ => None
          end
      | _ => None
      end
  | _ => None
  end.

(** The entries that the Stage B tasks accept, in the order in which the
    tasks complete. *)
Definition discoveredB (w : world) (hostHeader : string)
  (targets : list string) (order : list nat) : list entry :=
  flat_map (fun i => match nth_error targets i, acceptsB w hostHeader i with
                     | Some a, Some x => [{| ip := a; ms := x |}]
                     | _, _ => []
                     end) order.

(** The hot blocks of a scan with the given sample targets, and the
    entries that its Stage B discovers, in the order of discovery. *)
Definition hotOf (w : world) (config : config) (targets : list target)
  : list Z :=
  fold_left (mark w (hostHeader config) targets)
            (orderA w (List.length targets)) [].

Definition discovered (w : world) (config : config) (targets : list target)
  : list entry :=
  let expand := expandTargets config (hotOf w config targets) in
  discoveredB w (hostHeader config) expand (orderB w (List.length expand)).

(** A world in which every address answers on TCP, and the ping of the
    first Stage B task prints a time that holds no digit. *)
Definition world_nan : world :=
  {| fastly := Throw "offline";
     readFile := fun _ => Throw "ENOENT";
     sockEvents := fun _ _ => [SockConnect];
     httpEvents := fun _ _ => [HttpError];
     pingEvents := fun i =>
       match i with
       | O => [PingStdout "time . ms"; PingClose]
       | _ => [PingStdout "64 bytes from 10.0.0.1: icmp_seq=1 ttl=57 time=12.3 ms";
               PingClose]
       end;
     orderA := fun n => seq 0 n;
     orderB := fun n => seq 0 n |}.

(** A world in which no address answers on TCP. *)
Definition world_closed : world :=
  {| fastly := Throw "offline";
     readFile := fun _ => Throw "ENOENT";
     sockEvents := fun _ _ => [SockError];
     httpEvents := fun _ _ => [HttpError];
     pingEvents := fun _ => [PingError];
     orderA := fun n => seq 0 n;
     orderB := fun n => seq 0 n |}.

(** The configuration of a scan of the given ranges. *)
Definition config_of (ranges : list string) (samples limit : Z) : config :=
  {| cidrs := ranges; hostHeader := ""; timeoutMs := 1000;
     concurrency := 4; samplesPer24 := samples; expandLimitPer24 := limit;
     fallbackFile := "" |}.

(** A world in which the Fastly list is fetched and holds one range. *)
Definition fetched_one : outcome Fetch.response :=
  Ret {| Fetch.res_ok := true; Fetch.status := 200;
         Fetch.json := Ret (Fetch.JDoc (Some ["151.101.0.0/16"])) |}.

Definition world_fetch : world :=
  {| fastly := Fetch.fetchFastlyCidrs fetched_one;
     readFile := fun _ => Throw "ENOENT";
     sockEvents := fun _ _ => [];
     httpEvents := fun _ _ => [];
     pingEvents := fun _ => [];
     orderA := fun n => seq 0 n;
     orderB := fun n => seq 0 n |}.

(** A configuration without ranges of its own. *)
Definition config_auto : config :=
  {| cidrs := []; hostHeader := ""; timeoutMs := 1000;
     concurrency := 4; samplesPer24 := 1; expandLimitPer24 := 3;
     fallbackFile := "" |}.

End MoreScanProps.
(* ===================================================================== *)
(** * The embedding on concrete inputs *)
(* ===================================================================== *)

Module Examples.
Import JS Cidr Probe Queue Scan.

Example intToIp_10_0_0_1 : intToIp 167772161 = "10.0.0.1".
Proof. reflexivity. Qed.

Example ipToInt_high_is_negative : ipToInt "192.168.1.1" = Ret (-1062731519).
Proof. reflexivity. Qed.

Example ipToInt_leading_zero : ipToInt "010.0.0.1" = Ret 167772161.
Proof. reflexivity. Qed.

Example leading_zero_comes_back_canonical :
  (n <- ipToInt "010.0.0.1" ;; Ret (intToIp n)) = Ret "10.0.0.1".
Proof. reflexivity. Qed.

Example ipToInt_fraction_out_of_model : ipToInt "1.5e1.0.0" = OutOfModel.
Proof. reflexivity. Qed.

Example parseCIDR_slash_30 :
  parseCIDR "10.0.0.0/30" = Ret {| first := 167772160; last := 167772163 |}.
Proof. reflexivity. Qed.

Example parseCIDR_unaligned_base :
  parseCIDR "10.1.2.3/8" = Ret {| first := 167772160; last := 184549375 |}.
Proof. reflexivity. Qed.

Example parseCIDR_slash_32_high :
  parseCIDR "200.1.2.3/32"
  = Ret {| first := 3355509251; last := 3355509251 |}.
Proof. reflexivity. Qed.

Example parseCIDR_no_slash : parseCIDR "10.0.0.0" = Throw "Bad CIDR: 10.0.0.0".
Proof. reflexivity. Qed.

Example parseCIDR_trailing_text :
  parseCIDR "10.0.0.0/24abc"
  = Ret {| first := 167772160; last := 167772415 |}.
Proof. reflexivity. Qed.

Example list24Blocks_slash_23 :
  list24Blocks "10.0.0.0/23" = Ret [167772160; 167772416].
Proof. reflexivity. Qed.

Example list24Blocks_slash_30 : list24Blocks "10.0.0.0/30" = Ret [167772160].
Proof. reflexivity. Qed.

Example list24Blocks_high_half :
  list24Blocks "200.1.2.0/23" = Ret [3355509248; 3355509504].
Proof. reflexivity. Qed.

Example sampleIPsIn24_three :
  sampleIPsIn24 100 167772160 3
  = Ret ["10.0.0.10"; "10.0.0.42"; "10.0.0.77"].
Proof. reflexivity. Qed.

Example sampleIPsIn24_second_cycle :
  sampleIPsIn24 100 0 12
  = Ret ["0.0.0.10"; "0.0.0.42"; "0.0.0.77"; "0.0.0.99"; "0.0.0.123";
         "0.0.0.150"; "0.0.0.180"; "0.0.0.200"; "0.0.0.220"; "0.0.0.240";
         "0.0.0.11"; "0.0.0.43"].
Proof. vm_compute. reflexivity. Qed.

Example ipsOf24_two : ipsOf24 167772160 2 = ["10.0.0.0"; "10.0.0.1"].
Proof. reflexivity. Qed.

Example parseFloat_tenth :
  parseFloat "0.1" = Fin (3602879701896397 # 36028797018963968)%Q.
Proof. reflexivity. Qed.

Example parseFloat_stops_at_second_dot : parseFloat "1.5.7" = Fin (3 # 2)%Q.
Proof. reflexivity. Qed.

Example parseFloat_rounds_to_even :
  parseFloat "9007199254740993" = Fin (9007199254740992 # 1)%Q.
Proof. reflexivity. Qed.

Example toFixed3_of_double : toFixed3 (parseFloat "1.2345") = Ret "1.234".
Proof. reflexivity. Qed.

Example ping_linux :
  pingOnce
    [PingStdout "64 bytes from 1.1.1.1: icmp_seq=1 ttl=57 time=12.3 ms";
     PingClose]
  = Fulfilled {| Probe.ok := true;
                 Probe.ms := VNumber (Fin (3462142213541069 # 281474976710656)%Q) |}.
Proof. reflexivity. Qed.

Example ping_windows :
  pingOnce [PingStdout "Reply from 1.1.1.1: bytes=32 time<1ms TTL=57";
            PingClose]
  = Fulfilled {| Probe.ok := true; Probe.ms := VNumber (Fin (1 # 1)%Q) |}.
Proof. reflexivity. Qed.

Example ping_no_time :
  pingOnce [PingStdout "Request timed out."; PingClose]
  = Fulfilled {| Probe.ok := false; Probe.ms := VNull |}.
Proof. reflexivity. Qed.

Example ping_time_without_digits :
  pingOnce [PingStdout "time . ms"; PingClose]
  = Fulfilled {| Probe.ok := true; Probe.ms := VNumber FNaN |}.
Proof. reflexivity. Qed.

Example queue_after_a_rejection :
  option_map
    (fun st => (active st, q st, running st, finishing st, futures st))
    (run 2 init [Submit; Submit; Submit;
                 Settle 0%nat (Rejects "boom"); Finally 0%nat])
  = Some (2, [], [1; 2]%nat, [],
          [(0%nat, Rejected "boom"); (1%nat, Pending); (2%nat, Pending)]).
Proof. reflexivity. Qed.

Example scan_of_four_addresses :
  match runSmartScan ScanProps.world_open ScanProps.config_small with
  | Ret (r, _) =>
      (Result.hotBlocks r, Result.totalBlocks r, Result.validCount r,
       Result.txt r, Result.csv r)
      = (1, 1, 3,
         "10.0.0.2" ++ String "010" ("10.0.0.1" ++ String "010" "10.0.0.0"),
         "ip,ping_ms" ++ String "010" ("10.0.0.2,12.300" ++ String "010"
           ("10.0.0.1,12.300" ++ String "010" "10.0.0.0,12.300")))
  | _ => False
  end.
Proof. vm_compute. reflexivity. Qed.

Example scan_with_concurrency_0 :
  runSmartScan ScanProps.world_open
    {| cidrs := ["10.0.0.0/30"]; hostHeader := ""; timeoutMs := 1000;
       concurrency := 0; samplesPer24 := 1; expandLimitPer24 := 3;
       fallbackFile := "" |}
  = Diverges.
Proof. vm_compute. reflexivity. Qed.

Example cidrLines_keeps_inner_carriage_return :
  Caller.cidrLines
    ("a" ++ String "013" ("b" ++ String "013" (String "010" "c")))
  = ["a" ++ String "013" "b"; "c"].
Proof. vm_compute. reflexivity. Qed.

Example progressPct_third : Caller.progressPct 1 3 = Ret 33.
Proof. vm_compute. reflexivity. Qed.

Example progressPct_rounds_the_product :
  Caller.progressPct 4825431069743787 7311259196581496 = Ret 66 /\
  4825431069743787 * 100 / 7311259196581496 = 65.
Proof. split; vm_compute; reflexivity. Qed.

Example progressPct_beyond_2_53 :
  Caller.progressPct 11529215046068494 11529215046068494 = OutOfModel.
Proof. vm_compute. reflexivity. Qed.

End Examples.

(* ===================================================================== *)
(** * Properties *)
(* ===================================================================== *)

Import JS Cidr Props.

(** ** The 32-bit operators as arithmetic *)

Section Bits.

Lemma ToInt32_range z : - 2 ^ 31 <= ToInt32 z < 2 ^ 31.
Proof.
  unfold ToInt32. pose proof (Z.mod_pos_bound (z + 2 ^ 31) (2 ^ 32)). lia.
Qed.

Lemma ToInt32_small z : - 2 ^ 31 <= z < 2 ^ 31 -> ToInt32 z = z.
Proof.
  intros H. unfold ToInt32. rewrite Z.mod_small; lia.
Qed.

Lemma ToInt32_cong z : exists k, ToInt32 z = z + k * 2 ^ 32.
Proof.
  unfold ToInt32. exists (- ((z + 2 ^ 31) / 2 ^ 32)).
  pose proof (Z.div_mod (z + 2 ^ 31) (2 ^ 32)). lia.
Qed.

Lemma ToUint32_ToInt32 z : ToUint32 (ToInt32 z) = ToUint32 z.
Proof.
  destruct (ToInt32_cong z) as [k ->]. unfold ToUint32.
  apply Z.mod_add. lia.
Qed.

Lemma ToUint32_eq z : ToUint32 z = z mod 2 ^ 32.
Proof. reflexivity. Qed.

Lemma ToUint32_range z : 0 <= ToUint32 z < 2 ^ 32.
Proof. unfold ToUint32. apply Z.mod_pos_bound. lia. Qed.

Lemma ToUint32_small z : 0 <= z < 2 ^ 32 -> ToUint32 z = z.
Proof. intros. unfold ToUint32. apply Z.mod_small. lia. Qed.

Lemma ToInt32_ToUint32 z : ToInt32 (ToUint32 z) = ToInt32 z.
Proof.
  unfold ToInt32. rewrite ToUint32_eq.
  rewrite Z.add_mod_idemp_l by lia. reflexivity.
Qed.

Lemma ToUint32_ToInt32_idem z : ToUint32 (ToUint32 z) = ToUint32 z.
Proof. rewrite !ToUint32_eq. apply Z.mod_mod. lia. Qed.

Lemma shr_0 z : shr z 0 = ToUint32 z.
Proof. unfold shr. reflexivity. Qed.

Lemma shl_8 a : shl a 8 = ToInt32 (ToInt32 a * 256).
Proof. unfold shl. change (Z.land (ToUint32 8) 31) with 8.
  rewrite Z.shiftl_mul_pow2 by lia. reflexivity. Qed.

Lemma shr_24 z : shr z 24 = ToUint32 z / 2 ^ 24.
Proof. unfold shr. change (Z.land (ToUint32 24) 31) with 24.
  apply Z.shiftr_div_pow2. lia. Qed.

Lemma sar_16 z : sar z 16 = ToInt32 z / 2 ^ 16.
Proof. unfold sar. change (Z.land (ToUint32 16) 31) with 16.
  apply Z.shiftr_div_pow2. lia. Qed.

Lemma sar_8 z : sar z 8 = ToInt32 z / 2 ^ 8.
Proof. unfold sar. change (Z.land (ToUint32 8) 31) with 8.
  apply Z.shiftr_div_pow2. lia. Qed.

Lemma band_255 z : band z 255 = ToInt32 z mod 2 ^ 8.
Proof. unfold band. change (ToInt32 255) with (Z.ones 8).
  apply Z.land_ones. lia. Qed.

(** [x & -2^s] clears the low [s] bits. *)
Lemma land_neg_pow2 x s : 0 <= s -> Z.land x (- 2 ^ s) = 2 ^ s * (x / 2 ^ s).
Proof.
  intros Hs.
  replace (- 2 ^ s) with (Z.lnot (Z.ones s)).
  - rewrite <- Z.ldiff_land, Z.ldiff_ones_r by lia.
    rewrite Z.shiftl_mul_pow2, Z.shiftr_div_pow2 by lia. lia.
  - unfold Z.lnot. rewrite Z.ones_equiv. lia.
Qed.

End Bits.

Lemma fold4_value a b c d :
  octet a -> octet b -> octet c -> octet d ->
  fold4 a b c d =
  ToInt32 (a * 2 ^ 24 + b * 2 ^ 16 + c * 2 ^ 8) + d.
Proof.
  unfold octet, fold4. intros Ha Hb Hc Hd.
  rewrite !shl_8.
  rewrite (ToInt32_small a) by lia.
  rewrite (ToInt32_small (a * 256)) by lia.
  rewrite (ToInt32_small (a * 256 + b)) by lia.
  rewrite (ToInt32_small ((a * 256 + b) * 256)) by lia.
  rewrite (ToInt32_small ((a * 256 + b) * 256 + c)) by lia.
  f_equal. f_equal. lia.
Qed.

Lemma fold4_unsigned a b c d :
  octet a -> octet b -> octet c -> octet d ->
  ToUint32 (fold4 a b c d) = a * 2 ^ 24 + b * 2 ^ 16 + c * 2 ^ 8 + d.
Proof.
  intros Ha Hb Hc Hd. rewrite fold4_value by assumption.
  destruct (ToInt32_cong (a * 2 ^ 24 + b * 2 ^ 16 + c * 2 ^ 8)) as [k ->].
  unfold ToUint32, octet in *.
  replace (a * 2 ^ 24 + b * 2 ^ 16 + c * 2 ^ 8 + k * 2 ^ 32 + d)
    with (a * 2 ^ 24 + b * 2 ^ 16 + c * 2 ^ 8 + d + k * 2 ^ 32) by lia.
  rewrite Z.mod_add by lia. apply Z.mod_small. lia.
Qed.

Lemma fold4_int32 a b c d :
  octet a -> octet b -> octet c -> octet d ->
  ToInt32 (fold4 a b c d) = fold4 a b c d.
Proof.
  intros Ha Hb Hc Hd. apply ToInt32_small.
  rewrite fold4_value by assumption.
  unfold ToInt32, octet in *.
  assert (Hm : (a * 2 ^ 24 + b * 2 ^ 16 + c * 2 ^ 8 + 2 ^ 31) mod 2 ^ 32 mod 2 ^ 8 = 0).
  { rewrite Z.mod_mod_divide.
    - replace (a * 2 ^ 24 + b * 2 ^ 16 + c * 2 ^ 8 + 2 ^ 31)
        with (0 + (2 ^ 23 + a * 2 ^ 16 + b * 2 ^ 8 + c) * 2 ^ 8) by lia.
      rewrite Z.mod_add by lia. reflexivity.
    - exists (2 ^ 24). lia. }
  remember (a * 2 ^ 24 + b * 2 ^ 16 + c * 2 ^ 8) as u eqn:Eu.
  pose proof (Z.mod_pos_bound (u + 2 ^ 31) (2 ^ 32)).
  pose proof (Z.div_mod ((u + 2 ^ 31) mod 2 ^ 32) (2 ^ 8)).
  assert ((u + 2 ^ 31) mod 2 ^ 32 / 2 ^ 8 < 2 ^ 24).
  { apply Z.div_lt_upper_bound; lia. }
  lia.
Qed.

(** The four octets come back out of the folded value. *)
Lemma fold4_octets a b c d :
  octet a -> octet b -> octet c -> octet d ->
  shr (fold4 a b c d) 24 = a /\
  band (sar (fold4 a b c d) 16) 255 = b /\
  band (sar (fold4 a b c d) 8) 255 = c /\
  band (fold4 a b c d) 255 = d.
Proof.
  intros Ha Hb Hc Hd.
  pose proof (fold4_unsigned a b c d Ha Hb Hc Hd) as HU.
  pose proof (fold4_int32 a b c d Ha Hb Hc Hd) as HI.
  pose proof (ToInt32_range (fold4 a b c d)) as HR. rewrite HI in HR.
  remember (fold4 a b c d) as n eqn:En. clear En.
  assert (Hn : exists k, n = a * 2 ^ 24 + b * 2 ^ 16 + c * 2 ^ 8 + d + k * 2 ^ 32).
  { exists (n / 2 ^ 32). rewrite ToUint32_eq in HU.
    pose proof (Z.div_mod n (2 ^ 32)). lia. }
  destruct Hn as [k Hk]. unfold octet in *.
  rewrite shr_24, sar_16, sar_8, !band_255, HU, HI.
  assert (E16 : n / 2 ^ 16 = a * 2 ^ 8 + b + k * 2 ^ 16).
  { symmetry. apply (Z.div_unique n (2 ^ 16) _ (c * 2 ^ 8 + d)); lia. }
  assert (E8 : n / 2 ^ 8 = a * 2 ^ 16 + b * 2 ^ 8 + c + k * 2 ^ 24).
  { symmetry. apply (Z.div_unique n (2 ^ 8) _ d); lia. }
  rewrite E16, E8.
  assert (R16 : - 2 ^ 31 <= a * 2 ^ 8 + b + k * 2 ^ 16 < 2 ^ 31) by lia.
  assert (R8 : - 2 ^ 31 <= a * 2 ^ 16 + b * 2 ^ 8 + c + k * 2 ^ 24 < 2 ^ 31) by lia.
  rewrite (ToInt32_small _ R16), (ToInt32_small _ R8).
  repeat split.
  - symmetry. apply (Z.div_unique _ (2 ^ 24) _ (b * 2 ^ 16 + c * 2 ^ 8 + d)); lia.
  - symmetry. apply (Z.mod_unique _ (2 ^ 8) (a + k * 2 ^ 8)); lia.
  - symmetry. apply (Z.mod_unique _ (2 ^ 8) (a * 2 ^ 8 + b + k * 2 ^ 16)); lia.
  - symmetry. apply (Z.mod_unique _ (2 ^ 8) (a * 2 ^ 16 + b * 2 ^ 8 + c + k * 2 ^ 24)); lia.
Qed.

(** ** Splitting and joining *)

Lemma has_app c x y : has c (x ++ y) = has c x || has c y.
Proof.
  induction x as [|a x IH]; simpl; [reflexivity|].
  rewrite IH. apply orb_assoc.
Qed.

Lemma split_without sep x : has sep x = false -> split sep x = [x].
Proof.
  induction x as [|a x IH]; simpl; intros H; [reflexivity|].
  apply orb_false_iff in H. destruct H as [Ha Hx].
  rewrite Ha, (IH Hx). reflexivity.
Qed.

Lemma split_at sep x y :
  has sep x = false -> split sep (x ++ String sep y) = x :: split sep y.
Proof.
  induction x as [|a x IH]; simpl; intros H.
  - rewrite Ascii.eqb_refl. reflexivity.
  - apply orb_false_iff in H. destruct H as [Ha Hx].
    rewrite Ha, (IH Hx). reflexivity.
Qed.

Lemma split_nonempty sep s : split sep s <> [].
Proof.
  destruct s as [|a s]; simpl; [discriminate|].
  destruct (Ascii.eqb a sep); [discriminate|].
  destruct (split sep s); discriminate.
Qed.

(** ** The texts of the numbers below 256 *)

Lemma all_texts_ok : forallb text_ok (map Z.of_nat (seq 0 256)) = true.
Proof. vm_compute. reflexivity. Qed.

Lemma octet_text_ok n : octet n -> text_ok n = true.
Proof.
  intros [H0 H1].
  pose proof all_texts_ok as H. rewrite forallb_forall in H.
  apply H. apply in_map_iff. exists (Z.to_nat n). split; [lia|].
  apply in_seq. lia.
Qed.

Lemma octet_text n :
  octet n ->
  has "." (ToString n) = false /\ has "/" (ToString n) = false /\
  Number (ToString n) = Ret n /\ parseInt (ToString n) = Some n /\
  ToString n <> "".
Proof.
  intros H. apply octet_text_ok in H. unfold text_ok in H.
  repeat (apply andb_true_iff in H; destruct H as [H ?]).
  split; [|split; [|split; [|split]]].
  - now apply negb_true_iff.
  - now apply negb_true_iff.
  - destruct (Number (ToString n)); try discriminate.
    f_equal. now apply Z.eqb_eq.
  - destruct (parseInt (ToString n)); try discriminate.
    f_equal. now apply Z.eqb_eq.
  - destruct (ToString n); [discriminate|discriminate].
Qed.

Lemma dotted_eq a b c d :
  dotted a b c d =
  ToString a ++ String "." (ToString b ++ String "."
    (ToString c ++ String "." (ToString d))).
Proof. reflexivity. Qed.

Lemma split_dotted a b c d :
  octet a -> octet b -> octet c -> octet d ->
  split "." (dotted a b c d) = map ToString [a; b; c; d].
Proof.
  intros Ha Hb Hc Hd. rewrite dotted_eq.
  destruct (octet_text a Ha) as (Da & _).
  destruct (octet_text b Hb) as (Db & _).
  destruct (octet_text c Hc) as (Dc & _).
  destruct (octet_text d Hd) as (Dd & _).
  rewrite (split_at _ _ _ Da), (split_at _ _ _ Db), (split_at _ _ _ Dc).
  rewrite (split_without _ _ Dd). reflexivity.
Qed.

Lemma dotted_no_slash a b c d :
  octet a -> octet b -> octet c -> octet d ->
  has "/" (dotted a b c d) = false.
Proof.
  intros Ha Hb Hc Hd. rewrite dotted_eq.
  destruct (octet_text a Ha) as (_ & Da & _).
  destruct (octet_text b Hb) as (_ & Db & _).
  destruct (octet_text c Hc) as (_ & Dc & _).
  destruct (octet_text d Hd) as (_ & Dd & _).
  rewrite has_app, Da. simpl. rewrite has_app, Db. simpl.
  rewrite has_app, Dc. simpl. exact Dd.
Qed.

Lemma dotted_nonempty a b c d : dotted a b c d <> "".
Proof. rewrite dotted_eq. destruct (ToString a); discriminate. Qed.

Lemma ipToInt_dotted a b c d :
  octet a -> octet b -> octet c -> octet d ->
  ipToInt (dotted a b c d) = Ret (fold4 a b c d).
Proof.
  intros Ha Hb Hc Hd. unfold ipToInt.
  rewrite (split_dotted a b c d Ha Hb Hc Hd). cbn [map mapM].
  destruct (octet_text a Ha) as (_ & _ & -> & _).
  destruct (octet_text b Hb) as (_ & _ & -> & _).
  destruct (octet_text c Hc) as (_ & _ & -> & _).
  destruct (octet_text d Hd) as (_ & _ & -> & _).
  cbn [bind fold_left]. unfold fold4. reflexivity.
Qed.

Lemma intToIp_fold4 a b c d :
  octet a -> octet b -> octet c -> octet d ->
  intToIp (fold4 a b c d) = dotted a b c d.
Proof.
  intros Ha Hb Hc Hd. unfold intToIp.
  destruct (fold4_octets a b c d Ha Hb Hc Hd) as (-> & -> & -> & ->).
  reflexivity.
Qed.

Lemma intToIp_ToUint32 n : intToIp (ToUint32 n) = intToIp n.
Proof.
  unfold intToIp, shr, sar, band.
  now rewrite !ToUint32_ToInt32_idem, !ToInt32_ToUint32.
Qed.

(** The address at an offset of a block that starts at [a.b.c.0]. *)
Lemma intToIp_in_block a b c off :
  octet a -> octet b -> octet c -> octet off ->
  intToIp (shr (a * 2 ^ 24 + b * 2 ^ 16 + c * 2 ^ 8 + off) 0)
  = dotted a b c off.
Proof.
  intros Ha Hb Hc Ho.
  rewrite <- (fold4_unsigned a b c off Ha Hb Hc Ho).
  rewrite shr_0, ToUint32_ToInt32_idem, intToIp_ToUint32.
  now apply intToIp_fold4.
Qed.

(** Dotted texts that differ in their last octet differ. *)
Lemma dotted_last_inj a b c x y :
  octet a -> octet b -> octet c -> octet x -> octet y ->
  dotted a b c x = dotted a b c y -> x = y.
Proof.
  intros Ha Hb Hc Hx Hy E.
  pose proof (ipToInt_dotted a b c x Ha Hb Hc Hx) as Ex.
  pose proof (ipToInt_dotted a b c y Ha Hb Hc Hy) as Ey.
  rewrite E, Ey in Ex. injection Ex as Ef.
  destruct (fold4_octets a b c x Ha Hb Hc Hx) as (_ & _ & _ & <-).
  destruct (fold4_octets a b c y Ha Hb Hc Hy) as (_ & _ & _ & <-).
  now rewrite Ef.
Qed.

(** C10.  The address conversions round-trip on dotted texts: for four
    octets in 0..255 written in decimal and joined by dots, [ipToInt]
    returns a number (negative as soon as the first octet is 128 or more)
    from which [intToIp] writes the same text back. *)
Theorem ip_roundtrip a b c d :
  octet a -> octet b -> octet c -> octet d ->
  exists n,
    ipToInt (dotted a b c d) = Ret n /\
    intToIp n = dotted a b c d /\
    (128 <= a -> n < 0) /\
    (n <- ipToInt (dotted a b c d) ;; Ret (intToIp n)) = Ret (dotted a b c d).
Proof.
  intros Ha Hb Hc Hd. exists (fold4 a b c d).
  pose proof (ipToInt_dotted a b c d Ha Hb Hc Hd) as E.
  pose proof (intToIp_fold4 a b c d Ha Hb Hc Hd) as R.
  split; [exact E|]. split; [exact R|]. split.
  - intros Hneg. rewrite fold4_value by assumption.
    unfold octet in *. unfold ToInt32.
    replace (a * 2 ^ 24 + b * 2 ^ 16 + c * 2 ^ 8 + 2 ^ 31)
      with (a * 2 ^ 24 + b * 2 ^ 16 + c * 2 ^ 8 - 2 ^ 31 + 1 * 2 ^ 32) by lia.
    rewrite Z.mod_add by lia. rewrite Z.mod_small by lia. lia.
  - rewrite E. cbn [bind]. now rewrite R.
Qed.

Lemma ip_roundtrip_witness :
  exists n,
    ipToInt (dotted 192 168 1 1) = Ret n /\
    intToIp n = dotted 192 168 1 1 /\
    (128 <= 192 -> n < 0) /\
    (n <- ipToInt (dotted 192 168 1 1) ;; Ret (intToIp n))
    = Ret (dotted 192 168 1 1).
Proof.
  apply (ip_roundtrip 192 168 1 1); unfold octet; lia.
Defined.

(** ** Network bounds *)

Lemma parseCIDR_unfold cidr :
  parseCIDR cidr =
  match bitsOf cidr with
  | None => Throw ("Bad CIDR: " ++ cidr)
  | Some bits =>
      if falsy (baseOf cidr) || (bits <? 0) || (bits >? 32)
      then Throw ("Bad CIDR: " ++ cidr)
      else baseInt <- ipToInt (ToString_opt (baseOf cidr)) ;;
           Ret (networkBounds baseInt bits)
  end.
Proof. reflexivity. Qed.

Lemma split_range base bitsStr :
  has "/" base = false -> has "/" bitsStr = false ->
  split "/" (base ++ String "/" bitsStr) = [base; bitsStr].
Proof.
  intros Hb Hs. rewrite (split_at _ _ _ Hb), (split_without _ _ Hs).
  reflexivity.
Qed.

Lemma mask_value bits :
  1 <= bits <= 32 ->
  ToInt32 (shr (shr (shl (bnot 0) (32 - bits)) 0) 0) = - 2 ^ (32 - bits).
Proof.
  intros H.
  assert (D : bits = 1 \/ bits = 2 \/ bits = 3 \/ bits = 4 \/ bits = 5 \/
    bits = 6 \/ bits = 7 \/ bits = 8 \/ bits = 9 \/ bits = 10 \/ bits = 11 \/
    bits = 12 \/ bits = 13 \/ bits = 14 \/ bits = 15 \/ bits = 16 \/
    bits = 17 \/ bits = 18 \/ bits = 19 \/ bits = 20 \/ bits = 21 \/
    bits = 22 \/ bits = 23 \/ bits = 24 \/ bits = 25 \/ bits = 26 \/
    bits = 27 \/ bits = 28 \/ bits = 29 \/ bits = 30 \/ bits = 31 \/
    bits = 32) by lia.
  repeat (destruct D as [-> | D]; [vm_compute; reflexivity|]).
  subst bits. vm_compute. reflexivity.
Qed.

Lemma network_value baseInt bits :
  1 <= bits <= 32 ->
  band baseInt (shr (shr (shl (bnot 0) (32 - bits)) 0) 0)
  = 2 ^ (32 - bits) * (ToInt32 baseInt / 2 ^ (32 - bits)).
Proof.
  intros H. unfold band. rewrite (mask_value bits H).
  apply land_neg_pow2. lia.
Qed.

(** The bounds computed from any base value and any prefix length. *)
Lemma networkBounds_spec baseInt bits :
  0 <= bits <= 32 ->
  let r := networkBounds baseInt bits in
  0 <= first r /\ first r <= last r /\ last r < 2 ^ 32 /\
  last r - first r + 1 = 2 ^ (32 - bits) /\
  first r <= ToUint32 baseInt <= last r /\
  first r mod 2 ^ (32 - bits) = 0.
Proof.
  intros H. unfold networkBounds. cbn [first last].
  destruct (Z.eqb_spec bits 0) as [->|Hne].
  - change (band baseInt 0) with (Z.land (ToInt32 baseInt) 0).
    rewrite Z.land_0_r. change (2 ^ (32 - 0)) with (2 ^ 32).
    rewrite !shr_0. rewrite (ToUint32_small 0) by lia.
    rewrite (ToUint32_small (0 + 2 ^ 32 - 1)) by lia.
    pose proof (ToUint32_range baseInt). repeat split; try lia.
  - rewrite network_value by lia. rewrite !shr_0.
    set (s := 32 - bits).
    assert (Hs : 0 <= s <= 31) by (subst s; lia).
    assert (P : 0 < 2 ^ s) by (apply Z.pow_pos_nonneg; lia).
    assert (E32 : 2 ^ 32 = 2 ^ s * 2 ^ bits).
    { rewrite <- Z.pow_add_r by lia. f_equal. subst s. lia. }
    assert (Pb : 0 < 2 ^ bits) by (apply Z.pow_pos_nonneg; lia).
    pose proof (ToInt32_cong baseInt) as [k Hk].
    remember (ToInt32 baseInt) as x eqn:Ex.
    remember (2 ^ s) as m eqn:Em.
    remember (2 ^ bits) as t eqn:Et.
    (* the network, unsigned: m times (x / m mod t) *)
    assert (U : ToUint32 (m * (x / m)) = m * ((x / m) mod t)).
    { rewrite ToUint32_eq, E32. rewrite Z.mul_mod_distr_l by lia. reflexivity. }
    assert (B : 0 <= (x / m) mod t < t) by (apply Z.mod_pos_bound; lia).
    assert (Hx : x = m * (x / m) + x mod m) by (apply Z.div_mod; lia).
    assert (Hr : 0 <= x mod m < m) by (apply Z.mod_pos_bound; lia).
    assert (Ub : m * ((x / m) mod t) + m <= 2 ^ 32) by (rewrite E32; nia).
    assert (L : ToUint32 (m * (x / m) + m - 1) = m * ((x / m) mod t) + m - 1).
    { rewrite ToUint32_eq.
      pose proof (Z.div_mod (x / m) t) as Hq.
      replace (m * (x / m) + m - 1)
        with (m * ((x / m) mod t) + m - 1 + (x / m / t) * 2 ^ 32)
        by (rewrite E32; nia).
      rewrite Z.mod_add by lia. apply Z.mod_small. nia. }
    assert (V : ToUint32 baseInt = m * ((x / m) mod t) + x mod m).
    { rewrite <- ToUint32_ToInt32, <- Ex, ToUint32_eq.
      pose proof (Z.div_mod (x / m) t) as Hq.
      replace x with (m * ((x / m) mod t) + x mod m + (x / m / t) * 2 ^ 32) at 1
        by (rewrite E32; nia).
      rewrite Z.mod_add by lia. apply Z.mod_small. nia. }
    rewrite U, L, V.
    assert (M0 : (m * ((x / m) mod t)) mod m = 0).
    { rewrite Z.mul_comm. apply Z.mod_mul. lia. }
    rewrite M0. repeat split; try nia.
Qed.

Lemma parseCIDR_dotted a b c d p :
  octet a -> octet b -> octet c -> octet d -> 0 <= p <= 32 ->
  parseCIDR (dotted a b c d ++ "/" ++ ToString p)
  = Ret (networkBounds (fold4 a b c d) p).
Proof.
  intros Ha Hb Hc Hd Hp.
  assert (Op : octet p) by (unfold octet; lia).
  destruct (octet_text p Op) as (_ & Sp & _ & Ip & _).
  rewrite parseCIDR_unfold. unfold bitsOf, baseOf.
  change (dotted a b c d ++ "/" ++ ToString p)
    with (dotted a b c d ++ String "/" (ToString p)).
  rewrite (split_range _ _ (dotted_no_slash a b c d Ha Hb Hc Hd) Sp).
  cbn [nth_error ToString_opt]. rewrite Ip.
  assert (F : falsy (Some (dotted a b c d)) = false).
  { pose proof (dotted_nonempty a b c d).
    unfold falsy. destruct (dotted a b c d); congruence. }
  rewrite F. cbn [orb].
  replace (p <? 0) with false by (symmetry; apply Z.ltb_ge; lia).
  replace (p >? 32) with false
    by (symmetry; rewrite Z.gtb_ltb; apply Z.ltb_ge; lia).
  cbn [orb]. rewrite (ipToInt_dotted a b c d Ha Hb Hc Hd). reflexivity.
Qed.

(** C4.  For a base address of four octets in 0..255, aligned or not, and
    a prefix length 0..32, [parseCIDR] returns unsigned 32-bit bounds with
    [first <= last] and [last - first + 1 = 2^(32 - prefix)]; prefix 0
    gives the whole address space and prefix 32 the single address. *)
Theorem networkBounds_size a b c d p :
  octet a -> octet b -> octet c -> octet d -> 0 <= p <= 32 ->
  exists r,
    parseCIDR (dotted a b c d ++ "/" ++ ToString p) = Ret r /\
    0 <= first r /\ first r <= last r /\ last r < 2 ^ 32 /\
    last r - first r + 1 = 2 ^ (32 - p) /\
    (p = 0 -> first r = 0 /\ last r = 2 ^ 32 - 1) /\
    (p = 32 -> first r = last r /\ intToIp (first r) = dotted a b c d).
Proof.
  intros Ha Hb Hc Hd Hp.
  exists (networkBounds (fold4 a b c d) p).
  pose proof (networkBounds_spec (fold4 a b c d) p Hp) as S.
  cbv zeta in S. destruct S as (S1 & S2 & S3 & S4 & S5 & S6).
  split; [apply parseCIDR_dotted; assumption|].
  split; [exact S1|]. split; [exact S2|]. split; [exact S3|].
  split; [exact S4|]. split.
  - intros ->. change (2 ^ (32 - 0)) with (2 ^ 32) in S4. lia.
  - intros ->. change (2 ^ (32 - 32)) with 1 in S4.
    assert (E : first (networkBounds (fold4 a b c d) 32) =
                ToUint32 (fold4 a b c d)) by lia.
    split; [lia|]. rewrite E.
    rewrite <- (intToIp_fold4 a b c d Ha Hb Hc Hd).
    apply intToIp_ToUint32.
Qed.

Lemma networkBounds_size_witness :
  exists r,
    parseCIDR (dotted 10 0 0 5 ++ "/" ++ ToString 30) = Ret r /\
    0 <= first r /\ first r <= last r /\ last r < 2 ^ 32 /\
    last r - first r + 1 = 2 ^ (32 - 30) /\
    (30 = 0 -> first r = 0 /\ last r = 2 ^ 32 - 1) /\
    (30 = 32 -> first r = last r /\ intToIp (first r) = dotted 10 0 0 5).
Proof.
  apply (networkBounds_size 10 0 0 5 30); unfold octet; lia.
Defined.

(** ** When parsing fails *)

Lemma Number_cases s : (exists z, Number s = Ret z) \/ Number s = OutOfModel.
Proof.
  unfold Number. destruct (trim s) as [|c t] eqn:E; [left; eauto|].
  destruct (stripSign (String c t)) as [sign r].
  destruct (spanDigits r) as [dg rest].
  destruct dg; [right; reflexivity|].
  destruct rest; [|right; reflexivity].
  match goal with |- context [if ?b then _ else _] => destruct b end;
    [left; eauto | right; reflexivity].
Qed.

Lemma mapM_Number_cases l :
  (exists zs, mapM Number l = Ret zs /\ List.length zs = List.length l)
  \/ mapM Number l = OutOfModel.
Proof.
  induction l as [|s l IH]; cbn [mapM]; [left; exists []; auto|].
  destruct (Number_cases s) as [[z ->] | ->]; cbn [bind]; [|right; reflexivity].
  destruct IH as [(zs & -> & Hl) | ->]; cbn [bind]; [|right; reflexivity].
  left. exists (z :: zs). split; [reflexivity|]. simpl. now rewrite Hl.
Qed.

(** [ipToInt] never throws: a text always splits into at least one part. *)
Lemma ipToInt_cases s : (exists z, ipToInt s = Ret z) \/ ipToInt s = OutOfModel.
Proof.
  unfold ipToInt.
  destruct (mapM_Number_cases (split "." s)) as [(zs & -> & Hl) | ->];
    cbn [bind]; [|right; reflexivity].
  destruct zs as [|a rest]; [|left; eauto].
  exfalso. destruct (split "." s) eqn:E; [|discriminate].
  now apply split_nonempty in E.
Qed.

Lemma baseOf_some cidr : exists base, baseOf cidr = Some base.
Proof.
  unfold baseOf. destruct (split "/" cidr) eqn:E.
  - now apply split_nonempty in E.
  - simpl. eauto.
Qed.

(** C3, as the code has it.  [parseCIDR] throws exactly when the text
    before the first slash is empty, or the text after it (the text
    [undefined] when there is no slash) does not start, after optional
    white space and a sign, with a decimal integer between 0 and 32; the
    error then names the range.  The base address is not examined. *)
Theorem parseCIDR_throws_iff cidr :
  (exists msg, parseCIDR cidr = Throw msg) <->
  (baseOf cidr = Some "" \/
   match bitsOf cidr with
   | None => True
   | Some bits => bits < 0 \/ 32 < bits
   end).
Proof.
  rewrite parseCIDR_unfold.
  destruct (baseOf_some cidr) as [base Hb]. rewrite Hb.
  destruct (bitsOf cidr) as [bits|].
  2:{ split; [intros _; right; exact I | intros _; eauto]. }
  cbn [ToString_opt].
  destruct base as [|c base].
  - cbn [falsy orb]. split; [intros _; left; reflexivity | intros _; eauto].
  - cbn [falsy orb].
    destruct (Z.ltb_spec bits 0) as [Hlt|Hge]; cbn [orb].
    { split; [intros _; right; left; exact Hlt | intros _; eauto]. }
    rewrite Z.gtb_ltb.
    destruct (Z.ltb_spec 32 bits) as [Hgt|Hle].
    { split; [intros _; right; right; exact Hgt | intros _; eauto]. }
    split.
    + intros [msg H].
      destruct (ipToInt_cases (String c base)) as [[z E] | E];
        rewrite E in H; cbn [bind] in H; discriminate.
    + intros [H | [H | H]]; [discriminate | lia | lia].
Qed.

(** C3, counterexample.  Bases that are not four octets in 0..255 are
    accepted: three octets, five octets, an octet of 999. *)
Lemma parseCIDR_accepts_malformed_base :
  parseCIDR "1.2.3/24" = Ret {| first := 66048; last := 66303 |} /\
  parseCIDR "1.2.3.4.5/24" = Ret {| first := 33752064; last := 33752319 |} /\
  parseCIDR "10.0.0.999/24" = Ret {| first := 167772928; last := 167773183 |}.
Proof. repeat split; vm_compute; reflexivity. Qed.

(** ** Enumerating the /24 blocks *)

Lemma blocks_loop_stop b end24 : end24 < b -> blocks_loop b end24 = [].
Proof.
  intros H. rewrite blocks_loop_equation_1.
  destruct (Z_le_gt_dec b end24) as [L|G]; [lia|]. reflexivity.
Qed.

Lemma blocks_loop_step b end24 :
  b <= end24 ->
  blocks_loop b end24 = shr b 0 :: blocks_loop (b + 256) end24.
Proof.
  intros H. rewrite blocks_loop_equation_1.
  destruct (Z_le_gt_dec b end24) as [L|G]; [|lia]. reflexivity.
Qed.

(** The loop runs [n] times when [end24] lies in the [n]-th step. *)
Lemma blocks_loop_count n : forall b end24,
  b + 256 * Z.of_nat n - 256 <= end24 < b + 256 * Z.of_nat n ->
  blocks_loop b end24 =
  map (fun i => shr (b + 256 * Z.of_nat i) 0) (seq 0 n).
Proof.
  induction n as [|n IH]; intros b end24 H.
  - apply blocks_loop_stop. lia.
  - rewrite blocks_loop_step by lia.
    rewrite (IH (b + 256) end24) by lia.
    cbn [seq map]. f_equal.
    + f_equal. lia.
    + rewrite <- seq_shift, map_map. apply map_ext. intros i. f_equal. lia.
Qed.

Lemma band_align z : band z 4294967040 = 256 * (ToInt32 z / 256).
Proof.
  unfold band. change (ToInt32 4294967040) with (- 2 ^ 8).
  rewrite land_neg_pow2 by lia. reflexivity.
Qed.

(** When both bounds lie on the same side of 2^31, the loop enumerates
    every partition start from the first to the last, stepping by 256. *)
Lemma blocks_same_half f l :
  0 <= f -> f <= l -> l < 2 ^ 32 ->
  (f < 2 ^ 31 <-> l < 2 ^ 31) ->
  blocks_loop (band f 4294967040) (band l 4294967040) =
  map (fun i => align24 f + 256 * Z.of_nat i)
      (seq 0 (Z.to_nat ((align24 l - align24 f) / 256 + 1))).
Proof.
  intros Hf Hfl Hl Hh. rewrite !band_align. unfold align24.
  assert (Hq : f / 256 <= l / 256) by (apply Z.div_le_mono; lia).
  assert (Hq0 : 0 <= f / 256) by (apply Z.div_pos; lia).
  assert (HqM : l / 256 < 2 ^ 24) by (apply Z.div_lt_upper_bound; lia).
  assert (Hn : (256 * (l / 256) - 256 * (f / 256)) / 256 = l / 256 - f / 256).
  { replace (256 * (l / 256) - 256 * (f / 256))
      with ((l / 256 - f / 256) * 256) by lia.
    apply Z.div_mul. lia. }
  rewrite Hn.
  assert (C : forall k, ToInt32 (f + k * 2 ^ 32) = f + k * 2 ^ 32 ->
                        ToInt32 (l + k * 2 ^ 32) = l + k * 2 ^ 32 ->
    blocks_loop (256 * (ToInt32 (f + k * 2 ^ 32) / 256))
                (256 * (ToInt32 (l + k * 2 ^ 32) / 256)) =
    map (fun i => 256 * (f / 256) + 256 * Z.of_nat i)
        (seq 0 (Z.to_nat (l / 256 - f / 256 + 1)))).
  { intros k Ef El. rewrite Ef, El.
    assert (Df : (f + k * 2 ^ 32) / 256 = f / 256 + k * 2 ^ 24).
    { replace (f + k * 2 ^ 32) with (f + (k * 2 ^ 24) * 256) by lia.
      apply Z.div_add. lia. }
    assert (Dl : (l + k * 2 ^ 32) / 256 = l / 256 + k * 2 ^ 24).
    { replace (l + k * 2 ^ 32) with (l + (k * 2 ^ 24) * 256) by lia.
      apply Z.div_add. lia. }
    rewrite Df, Dl.
    rewrite (blocks_loop_count (Z.to_nat (l / 256 - f / 256 + 1))) by lia.
    apply map_ext_in. intros i Hi. apply in_seq in Hi.
    rewrite shr_0, ToUint32_eq.
    replace (256 * (f / 256 + k * 2 ^ 24) + 256 * Z.of_nat i)
      with (256 * (f / 256) + 256 * Z.of_nat i + k * 2 ^ 32) by lia.
    rewrite Z.mod_add by lia. apply Z.mod_small. lia. }
  destruct (Z_lt_ge_dec f (2 ^ 31)) as [Lo|Hi].
  - specialize (C 0). rewrite !Z.add_0_r in C.
    apply C; apply ToInt32_small; lia.
  - assert (Hl31 : 2 ^ 31 <= l) by lia.
    specialize (C (-1)).
    assert (Ef : ToInt32 (f + -1 * 2 ^ 32) = f + -1 * 2 ^ 32)
      by (apply ToInt32_small; lia).
    assert (El : ToInt32 (l + -1 * 2 ^ 32) = l + -1 * 2 ^ 32)
      by (apply ToInt32_small; lia).
    specialize (C Ef El).
    assert (Tf : ToInt32 f = ToInt32 (f + -1 * 2 ^ 32)).
    { unfold ToInt32. f_equal.
      replace (f + -1 * 2 ^ 32 + 2 ^ 31) with (f + 2 ^ 31 + -1 * 2 ^ 32) by lia.
      now rewrite Z.mod_add by lia. }
    assert (Tl : ToInt32 l = ToInt32 (l + -1 * 2 ^ 32)).
    { unfold ToInt32. f_equal.
      replace (l + -1 * 2 ^ 32 + 2 ^ 31) with (l + 2 ^ 31 + -1 * 2 ^ 32) by lia.
      now rewrite Z.mod_add by lia. }
    rewrite Tf, Tl. exact C.
Qed.

(** For every prefix length from 1 to 32 the enumeration is the one
    described: from the aligned first address to the aligned last one
    inclusive, stepping by 256. *)
Lemma list24Blocks_prefix_ge_1 a b c d p :
  octet a -> octet b -> octet c -> octet d -> 1 <= p <= 32 ->
  exists r,
    parseCIDR (dotted a b c d ++ "/" ++ ToString p) = Ret r /\
    list24Blocks (dotted a b c d ++ "/" ++ ToString p) =
    Ret (map (fun i => align24 (first r) + 256 * Z.of_nat i)
             (seq 0 (Z.to_nat
                ((align24 (last r) - align24 (first r)) / 256 + 1)))).
Proof.
  intros Ha Hb Hc Hd Hp.
  assert (Hp0 : 0 <= p <= 32) by lia.
  pose proof (parseCIDR_dotted a b c d p Ha Hb Hc Hd Hp0) as E.
  exists (networkBounds (fold4 a b c d) p). split; [exact E|].
  remember (networkBounds (fold4 a b c d) p) as r eqn:Er.
  pose proof (networkBounds_spec (fold4 a b c d) p Hp0) as S.
  cbv zeta in S. rewrite <- Er in S.
  destruct S as (S1 & S2 & S3 & S4 & _ & S6).
  unfold list24Blocks. rewrite E. cbn [bind]. f_equal.
  apply blocks_same_half; try assumption.
  (* both bounds lie in the same half: the network size divides 2^31 *)
  set (s := 32 - p) in *.
  assert (Hs : 0 <= s <= 31) by (subst s; lia).
  assert (P : 0 < 2 ^ s) by (apply Z.pow_pos_nonneg; lia).
  assert (E31 : 2 ^ 31 = 2 ^ s * 2 ^ (31 - s)).
  { rewrite <- Z.pow_add_r by lia. f_equal. lia. }
  assert (P' : 0 < 2 ^ (31 - s)) by (apply Z.pow_pos_nonneg; lia).
  pose proof (Z.div_mod (first r) (2 ^ s)) as D.
  remember (2 ^ s) as m. remember (2 ^ (31 - s)) as h.
  remember (first r / m) as j.
  split; [|lia]. intros Hlo.
  assert (Hj : j < h).
  { apply (Z.mul_lt_mono_pos_l m); lia. }
  assert (m * (j + 1) <= m * h) by (apply Z.mul_le_mono_nonneg_l; lia).
  lia.
Qed.

(** C2, at the whole address space.  For prefix length 0 the bounds are 0
    and 2^32 - 1, which lie on both sides of 2^31: the aligned last
    address is read as the signed value -256, the loop condition fails at
    once and no block is returned. *)
Theorem list24Blocks_prefix_0_empty :
  parseCIDR "0.0.0.0/0" = Ret {| first := 0; last := 4294967295 |} /\
  band 4294967295 4294967040 = -256 /\
  list24Blocks "0.0.0.0/0" = Ret [] /\
  (align24 4294967295 - align24 0) / 256 + 1 = 2 ^ 24.
Proof. repeat split; vm_compute; reflexivity. Qed.

(** ** Sampling a block *)

Lemma all_samples_ok : forallb sample_ok (map Z.of_nat (seq 0 255)) = true.
Proof. vm_compute. reflexivity. Qed.

Lemma sample_ok_upto t : 0 <= t <= 254 -> sample_ok t = true.
Proof.
  intros H. pose proof all_samples_ok as A. rewrite forallb_forall in A.
  apply A. apply in_map_iff. exists (Z.to_nat t). split; [lia|].
  apply in_seq. lia.
Qed.

Lemma sample_ok_eq t :
  sample_ok t =
  match sample_loop Scan.sample_fuel t [] 0 with
  | Ret picks =>
      (Z.of_nat (List.length picks) =? t) && nodupb picks
      && forallb (fun off => (1 <=? off) && (off <=? 254)) picks
  | _ => false
  end.
Proof. reflexivity. Qed.

Lemma sample_fuel_eq : Scan.sample_fuel = 2540%nat.
Proof. reflexivity. Qed.

Lemma sample_loop_result t :
  0 <= t <= 254 ->
  exists offs,
    sample_loop Scan.sample_fuel t [] 0 = Ret offs /\
    Z.of_nat (List.length offs) = t /\
    nodupb offs = true /\
    forallb (fun off => (1 <=? off) && (off <=? 254)) offs = true.
Proof.
  intros H. generalize (sample_ok_upto t H). rewrite sample_ok_eq.
  remember (sample_loop Scan.sample_fuel t [] 0) as o eqn:Eo. clear Eo.
  destruct o as [offs| | |]; try discriminate.
  intros S. exists offs.
  apply andb_true_iff in S. destruct S as [S Hr].
  apply andb_true_iff in S. destruct S as [Hl Hn].
  apply Z.eqb_eq in Hl. auto.
Qed.

(** Only [Math.min(k, 254)] matters to the loop. *)
Lemma sample_loop_min fuel : forall k picks idx,
  sample_loop fuel k picks idx = sample_loop fuel (Z.min k 254) picks idx.
Proof.
  induction fuel as [|fuel IH]; intros k picks idx; cbn [sample_loop];
    rewrite <- Z.min_assoc, Z.min_id; [reflexivity|].
  destruct (_ <? _); [apply IH | reflexivity].
Qed.

(** More fuel does not change a result. *)
Lemma sample_loop_more fuel : forall k picks idx r,
  sample_loop fuel k picks idx = Ret r ->
  forall fuel', (fuel <= fuel')%nat -> sample_loop fuel' k picks idx = Ret r.
Proof.
  induction fuel as [|fuel IH]; intros k picks idx r H fuel' Hle.
  - cbn [sample_loop] in H.
    destruct (Z.of_nat (List.length picks) <? Z.min k 254) eqn:E;
      [discriminate|].
    destruct fuel'; cbn [sample_loop]; rewrite E; exact H.
  - destruct fuel' as [|fuel']; [lia|].
    cbn [sample_loop] in *.
    destruct (Z.of_nat (List.length picks) <? Z.min k 254); [|exact H].
    apply (IH _ _ _ _ H). lia.
Qed.

Lemma nodupb_NoDup l : nodupb l = true -> NoDup l.
Proof.
  induction l as [|x l IH]; cbn [nodupb]; intros H; constructor.
  - apply andb_true_iff in H. destruct H as [H _].
    apply negb_true_iff in H. intros Hin.
    assert (E : existsb (Z.eqb x) l = true).
    { apply existsb_exists. exists x. split; [exact Hin | apply Z.eqb_refl]. }
    congruence.
  - apply IH. apply andb_true_iff in H. tauto.
Qed.

Lemma slice0_all {A} k (l : list A) :
  Z.of_nat (List.length l) <= k -> slice0 k l = l.
Proof.
  intros H. unfold slice0.
  replace (k <? 0) with false by (symmetry; apply Z.ltb_ge; lia).
  rewrite Z.min_r by lia. rewrite Nat2Z.id. apply firstn_all.
Qed.

(** The offsets picked for a given [k]: found within the fuel, the same
    for every block and every larger fuel. *)
Lemma sample_offsets k :
  1 <= k ->
  exists offs,
    Z.of_nat (List.length offs) = Z.min k 254 /\
    NoDup offs /\
    Forall (fun off => 1 <= off <= 254) offs /\
    (forall fuel b, (2540 <= fuel)%nat ->
       sample_loop fuel k [] 0 = Ret offs /\
       sampleIPsIn24 fuel b k =
       Ret (map (fun off => intToIp (shr (b + off) 0)) offs)).
Proof.
  intros Hk.
  assert (Ht : 0 <= Z.min k 254 <= 254) by lia.
  destruct (sample_loop_result _ Ht) as (offs & E & Hl & Hn & Hr).
  rewrite <- sample_loop_min in E.
  apply nodupb_NoDup in Hn.
  assert (Hrange : Forall (fun off => 1 <= off <= 254) offs).
  { apply Forall_forall. intros off Hin.
    rewrite forallb_forall in Hr. specialize (Hr off Hin).
    apply andb_true_iff in Hr. destruct Hr as [H1 H2].
    apply Z.leb_le in H1. apply Z.leb_le in H2. lia. }
  exists offs. split; [exact Hl|]. split; [exact Hn|].
  split; [exact Hrange|].
  intros fuel b Hf.
  assert (L : sample_loop fuel k [] 0 = Ret offs).
  { apply (sample_loop_more _ _ _ _ _ E). rewrite sample_fuel_eq. exact Hf. }
  split; [exact L|].
  unfold sampleIPsIn24. rewrite L. cbn [bind].
  rewrite slice0_all by lia. reflexivity.
Qed.

(** C5.  For every block and every [k >= 1] the sampling loop stops (2540
    iterations are enough, and more fuel gives the same answer), and
    [sampleIPsIn24] returns the addresses of exactly [min(k, 254)] offsets,
    no two equal and all in 1..254; the offsets depend on [k] only, so two
    calls with the same block and [k] return the same sequence.  In a
    block that starts at [a.b.c.0] the addresses are [a.b.c.off] for
    these offsets, and no two are equal. *)
Theorem sampleIPsIn24_spec blockStartInt k :
  1 <= k ->
  exists offs,
    (forall fuel, (2540 <= fuel)%nat ->
       sampleIPsIn24 fuel blockStartInt k =
       Ret (map (fun off => intToIp (shr (blockStartInt + off) 0)) offs)) /\
    Z.of_nat (List.length offs) = Z.min k 254 /\
    NoDup offs /\
    Forall (fun off => 1 <= off <= 254) offs /\
    (forall a b c,
       octet a -> octet b -> octet c ->
       blockStartInt = a * 2 ^ 24 + b * 2 ^ 16 + c * 2 ^ 8 ->
       map (fun off => intToIp (shr (blockStartInt + off) 0)) offs
       = map (dotted a b c) offs /\
       NoDup (map (dotted a b c) offs)).
Proof.
  intros Hk. destruct (sample_offsets k Hk) as (offs & Hl & Hn & Hr & R).
  exists offs. split; [intros fuel Hf; apply R; exact Hf|].
  split; [exact Hl|]. split; [exact Hn|]. split; [exact Hr|].
  intros a b c Ha Hb Hc ->.
  rewrite Forall_forall in Hr.
  assert (Oct : forall off, In off offs -> octet off).
  { intros off Hin. specialize (Hr off Hin). unfold octet. lia. }
  split.
  - apply map_ext_in. intros off Hin.
    now apply intToIp_in_block; [| | |apply Oct].
  - clear R Hl. induction offs as [|x offs IH]; cbn [map]; [constructor|].
    inversion Hn as [|? ? Hx Hn']; subst. constructor.
    + intros Hin. apply in_map_iff in Hin. destruct Hin as (y & E & Hy).
      apply Hx.
      assert (y = x); [|now subst].
      apply (dotted_last_inj a b c y x); auto.
      * apply Oct. now right.
      * apply Oct. now left.
    + apply IH; [exact Hn'| |].
      * intros off Hin. apply Hr. now right.
      * intros off Hin. apply Oct. now right.
Qed.

Lemma sampleIPsIn24_spec_witness :
  exists offs,
    (forall fuel, (2540 <= fuel)%nat ->
       sampleIPsIn24 fuel 167772160 3 =
       Ret (map (fun off => intToIp (shr (167772160 + off) 0)) offs)) /\
    Z.of_nat (List.length offs) = Z.min 3 254 /\
    NoDup offs /\
    Forall (fun off => 1 <= off <= 254) offs /\
    (forall a b c,
       octet a -> octet b -> octet c ->
       167772160 = a * 2 ^ 24 + b * 2 ^ 16 + c * 2 ^ 8 ->
       map (fun off => intToIp (shr (167772160 + off) 0)) offs
       = map (dotted a b c) offs /\
       NoDup (map (dotted a b c) offs)).
Proof.
  apply (sampleIPsIn24_spec 167772160 3). lia.
Defined.

(** ** The Stage A sample targets *)

Import Scan.

Lemma sampleTargetsOf_offsets k offs :
  (forall fuel b, (2540 <= fuel)%nat ->
     sample_loop fuel k [] 0 = Ret offs /\
     sampleIPsIn24 fuel b k =
     Ret (map (fun off => intToIp (shr (b + off) 0)) offs)) ->
  forall blocks,
    sampleTargetsOf blocks k =
    Ret (flat_map
           (fun b => map (fun off =>
                            {| block := b;
                               t_ip := intToIp (shr (b + off) 0) |}) offs)
           blocks).
Proof.
  intros R blocks. induction blocks as [|b blocks IH]; [reflexivity|].
  cbn [sampleTargetsOf flat_map].
  assert (F : (2540 <= sample_fuel)%nat) by (rewrite sample_fuel_eq; lia).
  destruct (R sample_fuel b F) as [_ ->]. cbn [bind].
  rewrite IH. cbn [bind]. rewrite map_map. reflexivity.
Qed.

Lemma blocks_of_targets (offs : list Z) (blocks : list Z) :
  map block
    (flat_map
       (fun b => map (fun off =>
                        {| block := b;
                           t_ip := intToIp (shr (b + off) 0) |}) offs)
       blocks)
  = flat_map (fun b => repeat b (List.length offs)) blocks.
Proof.
  induction blocks as [|b blocks IH]; [reflexivity|].
  cbn [flat_map]. rewrite map_app, IH. f_equal.
  rewrite map_map. cbn [block].
  clear. induction offs as [|o offs IH]; [reflexivity|].
  cbn [map List.length repeat]. now rewrite IH.
Qed.

Lemma count_occ_repeat_blocks (n : nat) (blocks : list Z) (b : Z) :
  count_occ Z.eq_dec (flat_map (fun x => repeat x n) blocks) b
  = (count_occ Z.eq_dec blocks b * n)%nat.
Proof.
  induction blocks as [|x blocks IH]; [reflexivity|].
  cbn [flat_map]. rewrite count_occ_app, IH. cbn [count_occ].
  destruct (Z.eq_dec x b) as [->|Hne].
  - rewrite count_occ_repeat_eq by reflexivity. lia.
  - rewrite count_occ_repeat_neq by congruence. lia.
Qed.

(** C1, as the code has it.  The blocks of the input ranges are
    concatenated without deduplication, and every occurrence of a block is
    sampled: the blocks of the sample targets are the enumerated blocks in
    order, each repeated [min(samplesPer24, 254)] times, so a block that
    [n] ranges contribute gets [n] sets of targets. *)
Theorem sampleTargets_per_occurrence finalCidrs samplesPer24 blocks :
  1 <= samplesPer24 ->
  flatMapM list24Blocks finalCidrs = Ret blocks ->
  blocks <> [] ->
  exists sampleTargets,
    planStageA finalCidrs samplesPer24 = Ret (blocks, sampleTargets) /\
    map block sampleTargets =
      flat_map (fun b => repeat b (Z.to_nat (Z.min samplesPer24 254))) blocks /\
    forall b,
      Z.of_nat (count_occ Z.eq_dec (map block sampleTargets) b) =
      Z.of_nat (count_occ Z.eq_dec blocks b) * Z.min samplesPer24 254.
Proof.
  intros Hk Hb Hne.
  destruct (sample_offsets samplesPer24 Hk) as (offs & Hl & _ & _ & R).
  pose proof (sampleTargetsOf_offsets samplesPer24 offs R blocks) as T.
  eexists. split; [|split].
  - unfold planStageA. rewrite Hb. cbn [bind].
    destruct blocks as [|b0 blocks']; [congruence|].
    rewrite T. cbn [bind]. reflexivity.
  - rewrite blocks_of_targets. f_equal.
    replace (Z.to_nat (Z.min samplesPer24 254)) with (List.length offs) by lia.
    reflexivity.
  - intros b. rewrite blocks_of_targets, count_occ_repeat_blocks. lia.
Qed.

Lemma sampleTargets_per_occurrence_witness :
  exists sampleTargets,
    planStageA ["10.0.0.0/24"; "10.0.0.0/25"] 3
      = Ret ([167772160; 167772160], sampleTargets) /\
    map block sampleTargets =
      flat_map (fun b => repeat b (Z.to_nat (Z.min 3 254)))
               [167772160; 167772160] /\
    forall b,
      Z.of_nat (count_occ Z.eq_dec (map block sampleTargets) b) =
      Z.of_nat (count_occ Z.eq_dec [167772160; 167772160] b) * Z.min 3 254.
Proof.
  apply (sampleTargets_per_occurrence ["10.0.0.0/24"; "10.0.0.0/25"] 3).
  - lia.
  - vm_compute. reflexivity.
  - discriminate.
Defined.

(** C1, counterexample.  Two ranges that yield the same block: the block
    is enumerated twice and gets two sets of three targets, six in all,
    where sampling it once would give three. *)
Lemma duplicate_block_sampled_twice :
  planStageA ["10.0.0.0/24"; "10.0.0.0/25"] 3 =
  Ret ([167772160; 167772160],
       map (fun i => {| block := 167772160; t_ip := i |})
           ["10.0.0.10"; "10.0.0.42"; "10.0.0.77";
            "10.0.0.10"; "10.0.0.42"; "10.0.0.77"]).
Proof. vm_compute. reflexivity. Qed.

(** ** The bounded queue *)

Import Queue QueueProps.

Section QueueFacts.

Variable limit : Z.

Lemma pump_loop_spec : forall q0 a r a' q' r',
  pump_loop limit a q0 r = (a', q', r') ->
  exists moved,
    q0 = (moved ++ q')%list /\ r' = (r ++ moved)%list /\
    a' = a + Z.of_nat (List.length moved) /\
    (q' = [] \/ limit <= a') /\
    (a <= limit -> a' <= limit).
Proof.
  induction q0 as [|j q0 IH]; intros a r a' q' r' H; cbn [pump_loop] in H.
  - inversion H; subst. exists []. rewrite !app_nil_r. cbn.
    split; [reflexivity|]. split; [reflexivity|]. split; [lia|].
    split; [left; reflexivity | lia].
  - destruct (Z.ltb_spec a limit) as [Hlt|Hge].
    + apply IH in H. destruct H as (moved & -> & -> & -> & Hfull & Hle).
      exists (j :: moved). rewrite <- app_assoc. cbn [app List.length].
      split; [reflexivity|]. split; [reflexivity|]. split; [lia|].
      split; [|lia].
      destruct Hfull as [Hfull|Hfull]; [left; exact Hfull | right; lia].
    + inversion H; subst. exists []. rewrite !app_nil_r. cbn.
      split; [reflexivity|]. split; [reflexivity|]. split; [lia|].
      split; [right; lia | lia].
Qed.

Lemma In_remove_job j x l : In x (remove_job j l) <-> In x l /\ x <> j.
Proof.
  unfold remove_job. rewrite filter_In, negb_true_iff, Nat.eqb_neq. tauto.
Qed.

Lemma mem_job_In j l : mem_job j l = true <-> In j l.
Proof.
  unfold mem_job. rewrite existsb_exists. split.
  - intros (x & Hx & E). apply Nat.eqb_eq in E. now subst.
  - intros H. exists j. split; [exact H | apply Nat.eqb_refl].
Qed.

Lemma remove_job_absent j l : ~ In j l -> remove_job j l = l.
Proof.
  induction l as [|x l IH]; intros H; [reflexivity|].
  unfold remove_job in *. cbn [filter].
  destruct (Nat.eqb_spec x j) as [->|Hne]; cbn [negb].
  - exfalso. apply H. now left.
  - rewrite IH; [reflexivity|]. intros Hin. apply H. now right.
Qed.

Lemma remove_job_perm j l :
  NoDup l -> In j l -> Permutation l (j :: remove_job j l).
Proof.
  induction l as [|x l IH]; intros Hnd Hin; [destruct Hin|].
  inversion Hnd as [|? ? Hx Hl]; subst.
  unfold remove_job in *. cbn [filter].
  destruct (Nat.eqb_spec x j) as [->|Hne]; cbn [negb].
  - fold (remove_job j l). rewrite (remove_job_absent j l Hx). reflexivity.
  - destruct Hin as [E|Hin]; [congruence|].
    rewrite perm_swap. constructor. apply IH; assumption.
Qed.

Lemma remove_job_length j l :
  NoDup l -> In j l -> S (List.length (remove_job j l)) = List.length l.
Proof.
  intros Hnd Hin. apply remove_job_perm in Hin; [|exact Hnd].
  apply Permutation_length in Hin. cbn in Hin. lia.
Qed.

Lemma NoDup_app_l {A} (l1 l2 : list A) : NoDup (l1 ++ l2) -> NoDup l1.
Proof.
  induction l1 as [|x l1 IH]; intros H; [constructor|].
  inversion H as [|? ? Hx Hl]; subst. constructor.
  - intros Hin. apply Hx. apply in_or_app. now left.
  - now apply IH.
Qed.

Lemma NoDup_app_r {A} (l1 l2 : list A) : NoDup (l1 ++ l2) -> NoDup l2.
Proof.
  induction l1 as [|x l1 IH]; intros H; [exact H|].
  inversion H; subst. now apply IH.
Qed.

Lemma NoDup_app_disjoint {A} (l1 l2 : list A) x :
  NoDup (l1 ++ l2) -> In x l1 -> In x l2 -> False.
Proof.
  induction l1 as [|y l1 IH]; intros H H1 H2; [destruct H1|].
  inversion H as [|? ? Hy Hl]; subst. destruct H1 as [->|H1].
  - apply Hy. apply in_or_app. now right.
  - now apply IH.
Qed.


Hypothesis limit_pos : 1 <= limit.

Lemma Inv_init : Inv limit init.
Proof.
  constructor; cbn; try reflexivity; try lia.
  all: try (left; reflexivity); try constructor.
  all: try (intros j []); try (intros j p []).
Qed.

(** [pump] restores the invariant from a state in which only the
    saturation of the slots may fail. *)
Lemma pump_Inv st :
  active st = Z.of_nat (List.length (running st)
                        + List.length (finishing st)) ->
  active st <= limit ->
  map fst (futures st) = seq 0 (submitted st) ->
  NoDup (live st) ->
  (forall j, In j (live st) -> (j < submitted st)%nat) ->
  (forall j p, In (j, p) (futures st) ->
     (p = Pending <-> In j (q st ++ running st))) ->
  Inv limit (pump limit st).
Proof.
  intros Ha Hl Hf Hn Hk Hp. unfold pump.
  destruct (pump_loop limit (active st) (q st) (running st))
    as [[a' q'] r'] eqn:E.
  apply pump_loop_spec in E.
  destruct E as (moved & Eq & -> & -> & Hfull & Hle).
  assert (P : Permutation (live st)
                (q' ++ (running st ++ moved) ++ finishing st)).
  { unfold live. rewrite Eq. rewrite <- !app_assoc.
    rewrite (Permutation_app_comm moved). rewrite <- !app_assoc.
    apply Permutation_app_head. apply Permutation_app_head.
    apply Permutation_app_comm. }
  constructor; cbn.
  - rewrite Ha, length_app. lia.
  - apply Hle. exact Hl.
  - exact Hfull.
  - exact Hf.
  - unfold live. cbn. apply (Permutation_NoDup P Hn).
  - unfold live. cbn. intros j Hj. apply Hk.
    apply (Permutation_in _ (Permutation_sym P) Hj).
  - intros j p Hj. rewrite (Hp j p Hj). rewrite Eq.
    rewrite !in_app_iff. tauto.
Qed.

Lemma future_known st j p :
  map fst (futures st) = seq 0 (submitted st) ->
  In (j, p) (futures st) -> (j < submitted st)%nat.
Proof.
  intros Hf Hin.
  assert (H : In j (map fst (futures st))).
  { apply in_map_iff. exists (j, p). split; [reflexivity | exact Hin]. }
  rewrite Hf in H. apply in_seq in H. lia.
Qed.

Lemma known_future st j :
  map fst (futures st) = seq 0 (submitted st) ->
  (j < submitted st)%nat -> exists p, In (j, p) (futures st).
Proof.
  intros Hf Hj.
  assert (H : In j (map fst (futures st))).
  { rewrite Hf. apply in_seq. lia. }
  apply in_map_iff in H. destruct H as ((j', p) & E & Hin).
  cbn in E. subst j'. eauto.
Qed.

Lemma settle_future_fst j o fs : map fst (settle_future j o fs) = map fst fs.
Proof.
  unfold settle_future. rewrite map_map. apply map_ext.
  intros [j' p]. cbn. now destruct (Nat.eqb j' j).
Qed.

Lemma settle_future_In j o fs j' p' :
  In (j', p') (settle_future j o fs) ->
  exists p, In (j', p) fs /\
    p' = if Nat.eqb j' j
         then match p, o with
              | Pending, Resolves v => Fulfilled v
              | Pending, Rejects e => Rejected e
              | p, _ => p
              end
         else p.
Proof.
  unfold settle_future. intros H. apply in_map_iff in H.
  destruct H as ((j0, p0) & E & Hin). cbn [fst snd] in E.
  destruct (Nat.eqb_spec j0 j) as [->|Hne].
  - inversion E; subst. exists p0. split; [exact Hin|].
    rewrite Nat.eqb_refl. now destruct p0.
  - inversion E; subst. exists p'. split; [exact Hin|].
    destruct (Nat.eqb_spec j' j); [congruence|reflexivity].
Qed.

Lemma settle_future_delivers j o fs :
  In (j, Pending) fs -> In (j, promise_of o) (settle_future j o fs).
Proof.
  intros H. unfold settle_future. apply in_map_iff.
  exists (j, Pending). split; [|exact H].
  cbn [fst snd]. rewrite Nat.eqb_refl. now destruct o.
Qed.

Lemma step_Inv st ev st' :
  Inv limit st -> step limit st ev = Some st' -> Inv limit st'.
Proof.
  intros I H. destruct I as [Ha Hl Hfull Hf Hn Hk Hp].
  destruct ev as [|j o|j]; cbn [step] in H.
  - (* Submit *)
    inversion H; subst st'; clear H. apply pump_Inv; cbn -[seq].
    + exact Ha.
    + exact Hl.
    + rewrite map_app, Hf, seq_S. reflexivity.
    + unfold live in *. cbn.
      apply (Permutation_NoDup (l := submitted st :: q st ++ running st
                                       ++ finishing st)).
      * rewrite <- !app_assoc. cbn. apply Permutation_middle.
      * constructor; [|exact Hn]. intros Hin. apply Hk in Hin. lia.
    + unfold live in *. cbn. intros j Hj.
      rewrite <- app_assoc in Hj. apply in_app_or in Hj.
      destruct Hj as [Hj|[<-|Hj]]; [| lia |].
      * assert (j < submitted st)%nat; [|lia].
        apply Hk. apply in_or_app. now left.
      * assert (j < submitted st)%nat; [|lia].
        apply Hk. apply in_or_app. now right.
    + intros j p Hj. apply in_app_or in Hj. destruct Hj as [Hj|[E|[]]].
      * pose proof (future_known st j p Hf Hj) as Hlt.
        rewrite (Hp j p Hj). rewrite !in_app_iff. cbn. split; [tauto|].
        intros [[H|[H|[]]]|H]; [tauto | lia | tauto].
      * inversion E; subst. split; [|reflexivity]. intros _.
        rewrite !in_app_iff. cbn. tauto.
  - (* Settle *)
    destruct (mem_job j (running st)) eqn:M; [|discriminate].
    apply mem_job_In in M. inversion H; subst st'; clear H.
    assert (Nr : NoDup (running st)).
    { unfold live in Hn. apply NoDup_app_r in Hn.
      now apply NoDup_app_l in Hn. }
    pose proof (remove_job_perm j _ Nr M) as Pr.
    assert (P : Permutation (live st)
                  (q st ++ remove_job j (running st)
                        ++ finishing st ++ [j])).
    { unfold live. apply Permutation_app_head. rewrite Pr at 1. cbn.
      rewrite (Permutation_app_comm (finishing st)). cbn.
      apply Permutation_middle. }
    constructor; cbn.
    + rewrite Ha, length_app. cbn.
      pose proof (remove_job_length j _ Nr M). lia.
    + exact Hl.
    + exact Hfull.
    + rewrite settle_future_fst. exact Hf.
    + unfold live. cbn. apply (Permutation_NoDup P Hn).
    + unfold live. cbn. intros x Hx. apply Hk.
      apply (Permutation_in _ (Permutation_sym P) Hx).
    + intros j' p' Hj'. apply settle_future_In in Hj'.
      destruct Hj' as (p & Hin & E).
      pose proof (Hp j' p Hin) as Hpend.
      rewrite in_app_iff, In_remove_job.
      destruct (Nat.eqb_spec j' j) as [->|Hne].
      * assert (Pp : p = Pending).
        { apply Hpend. apply in_or_app. now right. }
        subst p. split.
        -- intros E'. subst p'. destruct o; discriminate.
        -- intros [Hq|[_ Hx]]; [|congruence]. exfalso.
           unfold live in Hn.
           apply (NoDup_app_disjoint _ _ j Hn Hq).
           apply in_or_app. now left.
      * subst p'. rewrite Hpend, in_app_iff. tauto.
  - (* Finally *)
    destruct (mem_job j (finishing st)) eqn:M; [|discriminate].
    apply mem_job_In in M. inversion H; subst st'; clear H.
    assert (Nf : NoDup (finishing st)).
    { unfold live in Hn. apply NoDup_app_r in Hn.
      now apply NoDup_app_r in Hn. }
    pose proof (remove_job_perm j _ Nf M) as Pf.
    assert (P : Permutation (live st)
                  (j :: q st ++ running st ++ remove_job j (finishing st))).
    { unfold live. rewrite Pf at 1. rewrite !app_assoc.
      symmetry. apply Permutation_middle. }
    apply pump_Inv; cbn.
    + pose proof (remove_job_length j _ Nf M). lia.
    + lia.
    + exact Hf.
    + unfold live. cbn.
      pose proof (Permutation_NoDup P Hn) as N. now inversion N.
    + unfold live. cbn. intros x Hx. apply Hk.
      apply (Permutation_in _ (Permutation_sym P)). now right.
    + exact Hp.
Qed.

Lemma run_Inv evs : forall st st',
  Inv limit st -> run limit st evs = Some st' -> Inv limit st'.
Proof.
  induction evs as [|ev evs IH]; intros st st' I H; cbn [run] in H.
  - inversion H; subst. exact I.
  - destruct (step limit st ev) as [st1|] eqn:E; [|discriminate].
    apply (IH st1 st'); [|exact H]. apply (step_Inv st ev st1 I E).
Qed.


Lemma pump_owed st :
  owed (pump limit st) = owed st /\
  finishing (pump limit st) = finishing st /\
  futures (pump limit st) = futures st /\
  submitted (pump limit st) = submitted st.
Proof.
  unfold pump, owed.
  destruct (pump_loop limit (active st) (q st) (running st))
    as [[a' q'] r'] eqn:E.
  apply pump_loop_spec in E.
  destruct E as (moved & Eq & -> & -> & _). cbn.
  rewrite Eq, !length_app. repeat split; lia.
Qed.

Lemma step_owed st ev st' :
  Inv limit st -> is_submit ev = false -> step limit st ev = Some st' ->
  (owed st' < owed st)%nat.
Proof.
  intros I Hs H. destruct I as [Ha Hl Hfull Hf Hn Hk Hp].
  destruct ev as [|j o|j]; [discriminate| |]; cbn [step] in H.
  - destruct (mem_job j (running st)) eqn:M; [|discriminate].
    apply mem_job_In in M. inversion H; subst st'; clear H.
    assert (Nr : NoDup (running st)).
    { unfold live in Hn. apply NoDup_app_r in Hn.
      now apply NoDup_app_l in Hn. }
    pose proof (remove_job_length j _ Nr M).
    unfold owed. cbn. rewrite length_app. cbn. lia.
  - destruct (mem_job j (finishing st)) eqn:M; [|discriminate].
    apply mem_job_In in M. inversion H; subst st'; clear H.
    assert (Nf : NoDup (finishing st)).
    { unfold live in Hn. apply NoDup_app_r in Hn.
      now apply NoDup_app_r in Hn. }
    pose proof (remove_job_length j _ Nf M).
    match goal with |- (owed (pump limit ?s) < _)%nat =>
      destruct (pump_owed s) as (-> & _) end.
    unfold owed. cbn. lia.
Qed.

Lemma step_delivers st j o st' :
  Inv limit st -> step limit st (Settle j o) = Some st' ->
  In (j, promise_of o) (futures st').
Proof.
  intros I H. cbn [step] in H.
  destruct (mem_job j (running st)) eqn:M; [|discriminate].
  apply mem_job_In in M. inversion H; subst st'; clear H. cbn.
  apply settle_future_delivers.
  destruct I as [Ha Hl Hfull Hf Hn Hk Hp].
  assert (Hj : (j < submitted st)%nat).
  { apply Hk. unfold live. rewrite !in_app_iff. tauto. }
  destruct (known_future st j Hf Hj) as [p Hin].
  assert (p = Pending).
  { apply (Hp j p Hin). apply in_or_app. now right. }
  now subst p.
Qed.

(** While a submitted job is unsettled, a completion turn can be taken. *)
Lemma no_stall st j :
  Inv limit st -> (j < submitted st)%nat ->
  settled st j \/
  exists ev st', is_submit ev = false /\ step limit st ev = Some st'.
Proof.
  intros I Hj. destruct I as [Ha Hl Hfull Hf Hn Hk Hp].
  destruct (known_future st j Hf Hj) as [p Hin].
  destruct p as [|v|e].
  2:{ left. exists (Fulfilled v). split; [exact Hin|discriminate]. }
  2:{ left. exists (Rejected e). split; [exact Hin|discriminate]. }
  right.
  assert (Hlive : In j (q st ++ running st)) by (now apply (Hp j Pending Hin)).
  destruct (running st) as [|j0 rest] eqn:Er.
  - (* nothing runs: the slots are taken by callbacks that are due *)
    rewrite app_nil_r in Hlive.
    destruct Hfull as [Hq|Hq]; [rewrite Hq in Hlive; destruct Hlive|].
    destruct (finishing st) as [|j1 rest1] eqn:Ef; [cbn in Ha; lia|].
    exists (Finally j1). eexists. split; [reflexivity|].
    cbn [step]. rewrite Ef. unfold mem_job. cbn [existsb].
    rewrite Nat.eqb_refl. reflexivity.
  - exists (Settle j0 (Resolves "")). eexists. split; [reflexivity|].
    cbn [step]. rewrite Er. unfold mem_job. cbn [existsb].
    rewrite Nat.eqb_refl. reflexivity.
Qed.

Lemma run_submitted evs : forall st st',
  run limit st evs = Some st' ->
  submitted st' = (submitted st + List.length (filter is_submit evs))%nat.
Proof.
  induction evs as [|ev evs IH]; intros st st' H; cbn [run] in H.
  - inversion H; subst. cbn. lia.
  - destruct (step limit st ev) as [st1|] eqn:E; [|discriminate].
    rewrite (IH _ _ H). clear IH H.
    destruct ev as [|j o|j]; cbn [step] in E; cbn [filter is_submit].
    + inversion E; subst st1.
      match goal with |- context [submitted (pump limit ?s)] =>
        destruct (pump_owed s) as (_ & _ & _ & ->) end.
      cbn. lia.
    + destruct (mem_job j (running st)); [|discriminate].
      inversion E; subst st1. cbn. lia.
    + destruct (mem_job j (finishing st)); [|discriminate].
      inversion E; subst st1.
      match goal with |- context [submitted (pump limit ?s)] =>
        destruct (pump_owed s) as (_ & _ & _ & ->) end.
      cbn. lia.
Qed.

Lemma quiescent_settled st :
  Inv limit st -> quiescent limit st ->
  forall j, (j < submitted st)%nat -> settled st j.
Proof.
  intros I Hq j Hj.
  destruct (no_stall st j I Hj) as [S|(ev & st' & Hs & E)]; [exact S|].
  rewrite (Hq ev Hs) in E. discriminate.
Qed.

Lemma idle_quiescent st :
  running st = [] -> finishing st = [] -> quiescent limit st.
Proof.
  intros Hr Hf ev Hs. destruct ev as [|j o|j]; [discriminate| |];
    cbn [step]; rewrite ?Hr, ?Hf; reflexivity.
Qed.

(** From any state of the queue, completion turns can be taken until all
    the submitted jobs are settled, and no more than [owed] of them. *)
Lemma drain n : forall st,
  (owed st <= n)%nat -> Inv limit st ->
  exists evs st',
    forallb (fun ev => negb (is_submit ev)) evs = true /\
    (List.length evs <= owed st)%nat /\
    run limit st evs = Some st' /\
    quiescent limit st' /\
    forall j, (j < submitted st')%nat -> settled st' j.
Proof.
  induction n as [|n IH]; intros st Hn I.
  - exists [], st. unfold owed in Hn.
    assert (Hr : running st = []) by (destruct (running st); [easy|cbn in Hn; lia]).
    assert (Hf : finishing st = []) by (destruct (finishing st); [easy|cbn in Hn; lia]).
    pose proof (idle_quiescent st Hr Hf) as Q.
    split; [reflexivity|]. split; [cbn; lia|]. split; [reflexivity|].
    split; [exact Q | exact (quiescent_settled st I Q)].
  - assert (Next : forall ev st1,
              is_submit ev = false -> step limit st ev = Some st1 ->
              exists evs st',
                forallb (fun ev => negb (is_submit ev)) evs = true /\
                (List.length evs <= owed st)%nat /\
                run limit st evs = Some st' /\
                quiescent limit st' /\
                forall j, (j < submitted st')%nat -> settled st' j).
    { intros ev st1 Hs E.
      pose proof (step_owed st ev st1 I Hs E) as Hlt.
      pose proof (step_Inv st ev st1 I E) as I1.
      destruct (IH st1 ltac:(lia) I1) as (evs & st' & Hall & Hlen & Hrun & Q & S).
      exists (ev :: evs), st'. cbn [forallb run List.length].
      rewrite Hs, E. cbn [negb andb].
      split; [exact Hall|]. split; [lia|]. split; [exact Hrun|].
      split; [exact Q | exact S]. }
    destruct (running st) as [|j0 rest] eqn:Er.
    + destruct (finishing st) as [|j1 rest1] eqn:Ef.
      * exists [], st. pose proof (idle_quiescent st Er Ef) as Q.
        split; [reflexivity|]. split; [cbn; lia|]. split; [reflexivity|].
        split; [exact Q | exact (quiescent_settled st I Q)].
      * apply (Next (Finally j1) (pump limit
          {| active := active st - 1; q := q st; running := running st;
             finishing := remove_job j1 (finishing st);
             futures := futures st; submitted := submitted st |}));
          [reflexivity|].
        cbn [step]. rewrite Ef. unfold mem_job. cbn [existsb].
        rewrite Nat.eqb_refl. reflexivity.
    + apply (Next (Settle j0 (Resolves ""))
          {| active := active st; q := q st;
             running := remove_job j0 (running st);
             finishing := finishing st ++ [j0];
             futures := settle_future j0 (Resolves "") (futures st);
             submitted := submitted st |}); [reflexivity|].
      cbn [step]. rewrite Er. unfold mem_job. cbn [existsb].
      rewrite Nat.eqb_refl. reflexivity.
Qed.

End QueueFacts.

(** C6.  With a limit of at least 1, after any sequence of submissions,
    task settlements and [finally] callbacks: no more than [limit] tasks
    are executing; no job waits while a slot is free; settling a task,
    by resolution or by rejection alike, settles the caller's promise the
    same way; each completion turn reduces the turns owed, and as long as
    a submitted job is unsettled a completion turn is possible; when none
    is possible all the submitted jobs are settled, and completion turns,
    at most [owed] of them, lead to such a state. *)
Theorem bounded_queue limit evs st :
  1 <= limit ->
  run limit init evs = Some st ->
  Z.of_nat (List.length (running st)) <= active st /\
  active st <= limit /\
  (q st = [] \/ active st = limit) /\
  submitted st = List.length (filter is_submit evs) /\
  (forall j o st', step limit st (Settle j o) = Some st' ->
     In (j, promise_of o) (futures st') /\
     active st' = active st /\ q st' = q st) /\
  (forall ev st', is_submit ev = false -> step limit st ev = Some st' ->
     (owed st' < owed st)%nat) /\
  (forall j, (j < submitted st)%nat ->
     settled st j \/
     exists ev st', is_submit ev = false /\ step limit st ev = Some st') /\
  (quiescent limit st ->
   forall j, (j < submitted st)%nat -> settled st j) /\
  (exists evs' st',
     forallb (fun ev => negb (is_submit ev)) evs' = true /\
     (List.length evs' <= owed st)%nat /\
     run limit st evs' = Some st' /\
     quiescent limit st' /\
     forall j, (j < submitted st')%nat -> settled st' j).
Proof.
  intros HL Hrun.
  pose proof (run_Inv limit evs init st (Inv_init limit HL) Hrun) as I.
  pose proof I as [Ha Hl Hfull Hf Hn Hk Hp].
  split; [lia|]. split; [exact Hl|]. split.
  { destruct Hfull as [H|H]; [left; exact H | right; lia]. }
  split.
  { rewrite (run_submitted limit evs init st Hrun). reflexivity. }
  split.
  { intros j o st' H. split; [exact (step_delivers limit st j o st' I H)|].
    cbn [step] in H. destruct (mem_job j (running st)); [|discriminate].
    inversion H; subst st'. cbn. auto. }
  split; [intros ev st'; apply (step_owed limit st ev st' I)|].
  split; [intros j; apply (no_stall limit HL st j I)|].
  split; [exact (quiescent_settled limit HL st I)|].
  exact (drain limit HL (owed st) st (le_n _) I).
Qed.

Lemma bounded_queue_witness :
  let evs := [Submit; Submit; Submit; Settle 0%nat (Rejects "boom");
              Finally 0%nat; Settle 2%nat (Resolves "ok")] in
  exists st,
  run 2 init evs = Some st /\
  Z.of_nat (List.length (running st)) <= active st /\
  active st <= 2 /\
  (q st = [] \/ active st = 2) /\
  submitted st = List.length (filter is_submit evs) /\
  (forall j o st', step 2 st (Settle j o) = Some st' ->
     In (j, promise_of o) (futures st') /\
     active st' = active st /\ q st' = q st) /\
  (forall ev st', is_submit ev = false -> step 2 st ev = Some st' ->
     (owed st' < owed st)%nat) /\
  (forall j, (j < submitted st)%nat ->
     settled st j \/
     exists ev st', is_submit ev = false /\ step 2 st ev = Some st') /\
  (quiescent 2 st ->
   forall j, (j < submitted st)%nat -> settled st j) /\
  (exists evs' st',
     forallb (fun ev => negb (is_submit ev)) evs' = true /\
     (List.length evs' <= owed st)%nat /\
     run 2 st evs' = Some st' /\
     quiescent 2 st' /\
     forall j, (j < submitted st')%nat -> settled st' j).
Proof.
  intros evs. eexists. split; [reflexivity|].
  apply (bounded_queue 2 evs); [lia | reflexivity].
Defined.

(** ** The probes *)

Import Probe ProbeProps.

Lemma resolve_fulfilled {A} (v w : A) : resolve v (Fulfilled w) = Fulfilled w.
Proof. reflexivity. Qed.

Lemma tcp_on_keeps st ev b :
  tcp_promise st = Fulfilled b -> tcp_promise (tcp_on st ev) = Fulfilled b.
Proof.
  intros H. unfold tcp_on.
  destruct (existsb (sock_event_eqb ev) (listeners st)); [|exact H].
  destruct ev; cbn; rewrite H; reflexivity.
Qed.

Lemma tcp_fold_keeps evs : forall st b,
  tcp_promise st = Fulfilled b ->
  tcp_promise (fold_left tcp_on evs st) = Fulfilled b.
Proof.
  induction evs as [|ev evs IH]; intros st b H; [exact H|].
  cbn [fold_left]. apply IH. now apply tcp_on_keeps.
Qed.

Lemma tcp_on_not_rejected st ev :
  (forall e, tcp_promise st <> Rejected e) ->
  forall e, tcp_promise (tcp_on st ev) <> Rejected e.
Proof.
  intros H e. unfold tcp_on.
  destruct (existsb (sock_event_eqb ev) (listeners st)); [|apply H].
  destruct ev; cbn; destruct (tcp_promise st) eqn:E; cbn;
    try discriminate; exfalso; eapply H; reflexivity.
Qed.

Lemma tcp_fold_not_rejected evs : forall st,
  (forall e, tcp_promise st <> Rejected e) ->
  forall e, tcp_promise (fold_left tcp_on evs st) <> Rejected e.
Proof.
  induction evs as [|ev evs IH]; intros st H; [exact H|].
  cbn [fold_left]. apply IH. now apply tcp_on_not_rejected.
Qed.

Lemma tcpOpen_first ev rest :
  tcpOpen (ev :: rest) =
  Fulfilled match ev with
            | SockConnect => true
            | SockTimeout | SockError => false
            end.
Proof.
  unfold tcpOpen. cbn [fold_left]. apply tcp_fold_keeps.
  destruct ev; reflexivity.
Qed.

Lemma tcpOpen_not_rejected evs e : tcpOpen evs <> Rejected e.
Proof.
  unfold tcpOpen. apply tcp_fold_not_rejected. intros e'. discriminate.
Qed.

Lemma http_on_keeps st ev b :
  http_promise st = Fulfilled b -> http_promise (http_on st ev) = Fulfilled b.
Proof.
  intros H. destruct ev; cbn; [destruct (response_pending st); cbn| |];
    rewrite ?H; reflexivity || exact H.
Qed.

Lemma http_fold_keeps evs : forall st b,
  http_promise st = Fulfilled b ->
  http_promise (fold_left http_on evs st) = Fulfilled b.
Proof.
  induction evs as [|ev evs IH]; intros st b H; [exact H|].
  cbn [fold_left]. apply IH. now apply http_on_keeps.
Qed.

Lemma http_on_not_rejected st ev :
  (forall e, http_promise st <> Rejected e) ->
  forall e, http_promise (http_on st ev) <> Rejected e.
Proof.
  intros H e.
  destruct ev; cbn; [destruct (response_pending st); cbn| |];
    try apply H; destruct (http_promise st) eqn:E; cbn;
    try discriminate; exfalso; eapply H; reflexivity.
Qed.

Lemma http_fold_not_rejected evs : forall st,
  (forall e, http_promise st <> Rejected e) ->
  forall e, http_promise (fold_left http_on evs st) <> Rejected e.
Proof.
  induction evs as [|ev evs IH]; intros st H; [exact H|].
  cbn [fold_left]. apply IH. now apply http_on_not_rejected.
Qed.

Lemma httpHead_first ev rest :
  httpHead (ev :: rest) =
  Fulfilled match ev with
            | HttpResponse => true
            | HttpTimeout | HttpError => false
            end.
Proof.
  unfold httpHead. cbn [fold_left]. apply http_fold_keeps.
  destruct ev; reflexivity.
Qed.

Lemma httpHead_not_rejected evs e : httpHead evs <> Rejected e.
Proof.
  unfold httpHead. apply http_fold_not_rejected. intros e'. discriminate.
Qed.

Lemma report_shape o : ping_shape (Fulfilled (report o)).
Proof.
  unfold report. destruct (match_time o); cbn; eauto.
Qed.

Lemma ping_on_shape st ev :
  ping_shape (ping_promise st) -> ping_shape (ping_promise (ping_on st ev)).
Proof.
  intros H. destruct ev; cbn; try exact H.
  - destruct (killer_armed st); exact H.
  - destruct (ping_promise st); cbn; [apply report_shape | exact H | exact H].
  - destruct (ping_promise st); cbn; [now left | exact H | exact H].
Qed.

Lemma ping_fold_shape evs : forall st,
  ping_shape (ping_promise st) ->
  ping_shape (ping_promise (fold_left ping_on evs st)).
Proof.
  induction evs as [|ev evs IH]; intros st H; [exact H|].
  cbn [fold_left]. apply IH. now apply ping_on_shape.
Qed.

Lemma pingOnce_shape evs : ping_shape (pingOnce evs).
Proof. unfold pingOnce. apply ping_fold_shape. exact I. Qed.

Lemma ping_fold_keeps evs : forall st r,
  ping_promise st = Fulfilled r ->
  ping_promise (fold_left ping_on evs st) = Fulfilled r.
Proof.
  induction evs as [|ev evs IH]; intros st r H; [exact H|].
  cbn [fold_left]. apply IH.
  destruct ev; cbn; try exact H; try (rewrite H; reflexivity).
  destruct (killer_armed st); exact H.
Qed.

Lemma ping_fold_data pre : forall st,
  forallb is_data pre = true ->
  ping_promise (fold_left ping_on pre st) = ping_promise st /\
  out (fold_left ping_on pre st) = out st ++ collected pre.
Proof.
  induction pre as [|ev pre IH]; intros st H.
  - cbn. split; [reflexivity|]. clear. induction (out st); cbn; congruence.
  - cbn [forallb] in H. apply andb_true_iff in H. destruct H as [Hd Hp].
    cbn [fold_left]. destruct (IH (ping_on st ev) Hp) as [-> ->].
    destruct ev; try discriminate; cbn.
    + split; [reflexivity|]. clear.
      induction (out st); cbn; congruence.
    + split; [reflexivity|]. clear.
      induction (out st); cbn; congruence.
    + destruct (killer_armed st); cbn; split; reflexivity.
Qed.

Section Pattern.

Lemma numchar_not_white c : isNumChar c = true -> isWhite c = false.
Proof.
  destruct c as [[] [] [] [] [] [] [] []]; vm_compute; congruence.
Qed.

Lemma lower_m_not_white c : lower c = "m"%char -> isWhite c = false.
Proof.
  destruct c as [[] [] [] [] [] [] [] []]; vm_compute; congruence.
Qed.

Lemma lower_m_not_numchar c : lower c = "m"%char -> isNumChar c = false.
Proof.
  destruct c as [[] [] [] [] [] [] [] []]; vm_compute; congruence.
Qed.

Lemma white_not_numchar c : isWhite c = true -> isNumChar c = false.
Proof.
  destruct c as [[] [] [] [] [] [] [] []]; vm_compute; congruence.
Qed.

Lemma eat_ci_app lit : forall t s,
  lower_text t = lit -> eat_ci lit (t ++ s) = Some s.
Proof.
  induction lit as [|a lit IH]; intros [|c t] s H; cbn in H;
    try discriminate; [reflexivity|].
  injection H as Hc Ht. cbn [append eat_ci]. rewrite Hc, Ascii.eqb_refl.
  now apply IH.
Qed.

Lemma eat_ci_inv lit : forall s s1,
  eat_ci lit s = Some s1 -> exists t, s = t ++ s1 /\ lower_text t = lit.
Proof.
  induction lit as [|a lit IH]; intros s s1 H.
  - destruct s; injection H as <-; now exists "".
  - destruct s as [|c s]; cbn [eat_ci] in H; [discriminate|].
    destruct (Ascii.eqb (lower c) a) eqn:E; [|discriminate].
    apply Ascii.eqb_eq in E. destruct (IH _ _ H) as (t & -> & Ht).
    exists (String c t). cbn. now rewrite E, Ht.
Qed.

Lemma trimStart_white w : forall r,
  all_chars isWhite w = true ->
  match r with String c _ => isWhite c = false | EmptyString => True end ->
  trimStart (w ++ r) = r.
Proof.
  induction w as [|c w IH]; intros r Hw Hr.
  - destruct r as [|c r]; [reflexivity|]. cbn. now rewrite Hr.
  - cbn [all_chars] in Hw. apply andb_true_iff in Hw. destruct Hw as [Hc Hw].
    cbn [append trimStart]. rewrite Hc. now apply IH.
Qed.

Lemma trimStart_inv s :
  exists w, s = w ++ trimStart s /\ all_chars isWhite w = true.
Proof.
  induction s as [|c s (w & E & Hw)]; [now exists ""|]. cbn [trimStart].
  destruct (isWhite c) eqn:Hc.
  - exists (String c w). cbn. rewrite Hc, Hw, <- E. now split.
  - now exists "".
Qed.

Lemma spanNum_app g : forall r,
  all_chars isNumChar g = true ->
  match r with String c _ => isNumChar c = false | EmptyString => True end ->
  spanNum (g ++ r) = (g, r).
Proof.
  induction g as [|c g IH]; intros r Hg Hr.
  - destruct r as [|c r]; [reflexivity|]. cbn. now rewrite Hr.
  - cbn [all_chars] in Hg. apply andb_true_iff in Hg. destruct Hg as [Hc Hg].
    cbn [append spanNum]. rewrite Hc, (IH r Hg Hr). reflexivity.
Qed.

Lemma spanNum_inv s : forall g r,
  spanNum s = (g, r) -> s = g ++ r /\ all_chars isNumChar g = true.
Proof.
  induction s as [|c s IH]; intros g r H; cbn [spanNum] in H.
  - injection H as <- <-. now split.
  - destruct (isNumChar c) eqn:Hc.
    + destruct (spanNum s) as [d t]. injection H as <- <-.
      destruct (IH d t eq_refl) as [-> Hd]. cbn. now rewrite Hc, Hd.
    + injection H as <- <-. now split.
Qed.

Lemma match_time_here_eq s :
  match_time_here s =
  match eat_ci "time" s with
  | None => None
  | Some s1 =>
      let (g, s4) := spanNum (trimStart (skip_sep s1)) in
      match g with
      | EmptyString => None
      | _ => match eat_ci "ms" (trimStart s4) with
             | Some _ => Some g
             | None => None
             end
      end
  end.
Proof. reflexivity. Qed.

Lemma skip_sep_other x r :
  Ascii.eqb x "=" = false -> Ascii.eqb x "<" = false ->
  skip_sep (String x r) = String x r.
Proof.
  destruct x as [[] [] [] [] [] [] [] []]; intros E1 E2; try reflexivity;
    vm_compute in E1, E2; discriminate.
Qed.

Lemma white_not_sep x :
  isWhite x = true -> Ascii.eqb x "=" = false /\ Ascii.eqb x "<" = false.
Proof.
  destruct x as [[] [] [] [] [] [] [] []]; vm_compute; intros H;
    (discriminate H || (split; reflexivity)).
Qed.

Lemma numchar_not_sep x :
  isNumChar x = true -> Ascii.eqb x "=" = false /\ Ascii.eqb x "<" = false.
Proof.
  destruct x as [[] [] [] [] [] [] [] []]; vm_compute; intros H;
    (discriminate H || (split; reflexivity)).
Qed.

(** The pattern anchored at the start of a text: the matcher finds the
    group of every text of this form. *)
Lemma match_time_here_complete t sep ws1 g ws2 u rest :
  lower_text t = "time" ->
  sep = "" \/ sep = "=" \/ sep = "<" ->
  all_chars isWhite ws1 = true ->
  g <> "" -> all_chars isNumChar g = true ->
  all_chars isWhite ws2 = true ->
  lower_text u = "ms" ->
  match_time_here (t ++ sep ++ ws1 ++ g ++ ws2 ++ u ++ rest) = Some g.
Proof.
  intros Ht Hsep Hw1 Hg Hn Hw2 Hu. rewrite match_time_here_eq.
  rewrite (eat_ci_app "time" t _ Ht).
  destruct u as [|m [|s' u']]; cbn in Hu; try discriminate.
  injection Hu as Hm Hs Hu'.
  destruct g as [|c g']; [congruence|].
  pose proof Hn as Hn'. cbn [all_chars] in Hn'.
  apply andb_true_iff in Hn'. destruct Hn' as [Hc _].
  assert (Tail : match ws2 ++ String m (String s' u') ++ rest with
                 | String x _ => isNumChar x = false
                 | EmptyString => True
                 end).
  { destruct ws2 as [|x ws2]; cbn.
    - now apply lower_m_not_numchar.
    - cbn [all_chars] in Hw2. apply andb_true_iff in Hw2.
      now apply white_not_numchar. }
  assert (S2 : skip_sep (sep ++ ws1 ++ String c g' ++ ws2
                         ++ String m (String s' u') ++ rest)
               = ws1 ++ String c g' ++ ws2
                 ++ String m (String s' u') ++ rest).
  { destruct Hsep as [->|[->| ->]]; [|reflexivity|reflexivity].
    cbn [append]. destruct ws1 as [|x ws1]; cbn [append].
    - destruct (numchar_not_sep c Hc) as [E1 E2].
      now apply skip_sep_other.
    - cbn [all_chars] in Hw1. apply andb_true_iff in Hw1.
      destruct Hw1 as [Hx _]. destruct (white_not_sep x Hx) as [E1 E2].
      now apply skip_sep_other. }
  rewrite S2.
  rewrite (trimStart_white ws1 _ Hw1)
    by (cbn; now apply numchar_not_white).
  rewrite (spanNum_app (String c g') _ Hn Tail).
  rewrite (trimStart_white ws2 _ Hw2)
    by (cbn; now apply lower_m_not_white).
  rewrite (eat_ci_app "ms" (String m (String s' u')) rest)
    by (cbn; now rewrite Hm, Hs, Hu').
  reflexivity.
Qed.

(** What the matcher finds anchored at the start is a text of this
    form. *)
Lemma match_time_here_sound s g :
  match_time_here s = Some g -> time_text s g.
Proof.
  rewrite match_time_here_eq.
  destruct (eat_ci "time" s) as [s1|] eqn:E1; [|discriminate].
  destruct (eat_ci_inv _ _ _ E1) as (t & -> & Ht).
  assert (Hsep : exists sep, s1 = sep ++ skip_sep s1 /\
                             (sep = "" \/ sep = "=" \/ sep = "<")).
  { destruct s1 as [|x r]; [exists ""; auto|].
    destruct (Ascii.eqb x "=") eqn:Ee.
    { apply Ascii.eqb_eq in Ee. subst x. exists "=". auto. }
    destruct (Ascii.eqb x "<") eqn:El.
    { apply Ascii.eqb_eq in El. subst x. exists "<". auto. }
    exists "". split; [|auto]. cbn [append].
    symmetry. now apply skip_sep_other. }
  destruct Hsep as (sep & Es & Hsep).
  remember (skip_sep s1) as s2 eqn:Hs2. clear Hs2.
  destruct (trimStart_inv s2) as (ws1 & E2 & Hw1).
  destruct (spanNum (trimStart s2)) as [g' s4] eqn:E3.
  destruct (spanNum_inv _ _ _ E3) as [E3' Hn].
  destruct g' as [|c g']; [discriminate|].
  destruct (trimStart_inv s4) as (ws2 & E4 & Hw2).
  destruct (eat_ci "ms" (trimStart s4)) as [rest|] eqn:E5; [|discriminate].
  destruct (eat_ci_inv _ _ _ E5) as (u & E5' & Hu).
  intros H. injection H as <-.
  exists "", t, sep, ws1, ws2, u, rest.
  split.
  - cbn [append]. rewrite Es. rewrite E2 at 1. rewrite E3'.
    rewrite E4 at 1. rewrite E5' at 1. reflexivity.
  - split; [exact Ht|]. split; [exact Hsep|]. split; [exact Hw1|].
    split; [discriminate|]. split; [exact Hn|]. split; [exact Hw2 | exact Hu].
Qed.

Lemma time_text_shift c o g : time_text o g -> time_text (String c o) g.
Proof.
  intros (pre & t & sep & ws1 & ws2 & u & rest & -> & R).
  exists (String c pre), t, sep, ws1, ws2, u, rest. split; [reflexivity|].
  exact R.
Qed.

Lemma match_time_sound o : forall g, match_time o = Some g -> time_text o g.
Proof.
  induction o as [|c o IH]; intros g; cbn [match_time].
  - destruct (match_time_here "") as [g'|] eqn:E; [|discriminate].
    intros H. injection H as <-. now apply match_time_here_sound.
  - destruct (match_time_here (String c o)) as [g'|] eqn:E.
    + intros H. injection H as <-. now apply match_time_here_sound.
    + intros H. apply time_text_shift. now apply IH.
Qed.

Lemma match_time_complete o g :
  time_text o g -> exists g', match_time o = Some g'.
Proof.
  intros (pre & t & sep & ws1 & ws2 & u & rest & -> & Ht & Hsep & Hw1 & Hg
          & Hn & Hw2 & Hu).
  pose proof (match_time_here_complete t sep ws1 g ws2 u rest
                Ht Hsep Hw1 Hg Hn Hw2 Hu) as M.
  induction pre as [|c pre IH].
  - cbn [append]. destruct (t ++ sep ++ ws1 ++ g ++ ws2 ++ u ++ rest);
      cbn [match_time]; rewrite M; eauto.
  - cbn [append match_time].
    destruct (match_time_here
                (String c (pre ++ t ++ sep ++ ws1 ++ g ++ ws2 ++ u ++ rest)));
      eauto.
Qed.

Lemma report_cases o :
  (report o = {| ok := false; ms := VNull |} <->
   ~ exists g, time_text o g) /\
  ((exists g, time_text o g) ->
   exists g, time_text o g /\
             report o = {| ok := true; ms := VNumber (parseFloat g) |}).
Proof.
  unfold report. destruct (match_time o) as [g|] eqn:M.
  - split.
    + split; [discriminate|]. intros N. exfalso. apply N. exists g.
      now apply match_time_sound.
    + intros _. exists g. split; [now apply match_time_sound | reflexivity].
  - assert (N : ~ exists g, time_text o g).
    { intros [g H]. destruct (match_time_complete _ _ H) as [g' H'].
      congruence. }
    split; [split; [intros _; exact N | reflexivity]|].
    intros H. now destruct N.
Qed.

End Pattern.




(** ** Stage B *)

Import Scan.

Lemma valid_tickB total st : valid (tickB total st) = valid st.
Proof. reflexivity. Qed.

Lemma valid_accept item st : valid (accept item st) = (valid st ++ [item])%list.
Proof. reflexivity. Qed.

Lemma app_one_neq {A} (l : list A) x : l <> (l ++ [x])%list.
Proof.
  intros H. apply (f_equal (@List.length A)) in H.
  rewrite length_app in H. cbn in H. lia.
Qed.

Lemma app_one_inj {A} (l : list A) x y : (l ++ [x] = l ++ [y])%list -> x = y.
Proof. intros H. apply app_inv_head in H. now inversion H. Qed.

(** What a Stage B task returns, by the outcomes of its probes. *)
Lemma taskB_cases w hostHeader total i ip st :
  let T := tcpOpen (sockEvents w StageB i) in
  let H := httpHead (httpEvents w StageB i) in
  let P := pingOnce (pingEvents w i) in
  taskB w hostHeader total i ip st =
  match T with
  | Fulfilled true =>
      match (if truthy hostHeader then H else Fulfilled true) with
      | Fulfilled true =>
          match P with
          | Fulfilled p =>
              Ret (tickB total
                     match Probe.ok p, Probe.ms p with
                     | true, VNumber x => accept {| ip := ip; ms := x |} st
                     | _, _ => st
                     end)
          | Pending => Diverges
          | Rejected e => Throw e
          end
      | Fulfilled false => Ret (tickB total st)
      | Pending => Diverges
      | Rejected e => Throw e
      end
  | Fulfilled false => Ret (tickB total st)
  | Pending => Diverges
  | Rejected e => Throw e
  end.
Proof.
  cbv zeta. unfold taskB.
  destruct (tcpOpen (sockEvents w StageB i)) as [|[|]|e]; cbn; try reflexivity.
  destruct (truthy hostHeader); cbn.
  - destruct (httpHead (httpEvents w StageB i)) as [|[|]|e]; cbn;
      try reflexivity.
    destruct (pingOnce (pingEvents w i)); reflexivity.
  - destruct (pingOnce (pingEvents w i)); reflexivity.
Qed.

(** C7.  A Stage B task adds the entry [(ip, x)] to the valid list exactly
    when the TCP probe succeeds, the HTTP probe succeeds if a host header
    is configured, and the ping reports [ok = true] with latency [x]; a
    ping that reports [ok = true] always carries a latency.  With an empty
    host header the HTTP probe is not consulted: whatever its events are,
    a TCP-open, ping-ok address becomes an entry.  A task that returns has
    ticked the progress counter once. *)
Theorem stageB_entry_iff w hostHeader total i ip st :
  let T := tcpOpen (sockEvents w StageB i) in
  let H := httpHead (httpEvents w StageB i) in
  let P := pingOnce (pingEvents w i) in
  (forall x,
     (exists st', taskB w hostHeader total i ip st = Ret st' /\
                  valid st' = (valid st ++ [{| ip := ip; ms := x |}])%list)
     <->
     (T = Fulfilled true /\
      (hostHeader <> "" -> H = Fulfilled true) /\
      exists p, P = Fulfilled p /\ Probe.ok p = true /\
                Probe.ms p = VNumber x)) /\
  (forall p, P = Fulfilled p -> Probe.ok p = true ->
             exists x, Probe.ms p = VNumber x) /\
  (hostHeader = "" ->
   forall p, T = Fulfilled true -> P = Fulfilled p -> Probe.ok p = true ->
   exists st' x, taskB w hostHeader total i ip st = Ret st' /\
                 valid st' = (valid st ++ [{| ip := ip; ms := x |}])%list) /\
  (forall st', taskB w hostHeader total i ip st = Ret st' ->
     stageBDone st' = stageBDone st + 1 /\
     (valid st' = valid st \/
      exists x, valid st' = (valid st ++ [{| ip := ip; ms := x |}])%list)).
Proof.
  cbv zeta.
  pose proof (taskB_cases w hostHeader total i ip st) as C. cbv zeta in C.
  assert (Shape : forall p, pingOnce (pingEvents w i) = Fulfilled p ->
            Probe.ok p = true -> exists x, Probe.ms p = VNumber x).
  { intros p Hp Hok. pose proof (pingOnce_shape (pingEvents w i)) as S.
    rewrite Hp in S. destruct S as [->|[x ->]]; [discriminate|]. cbn. eauto. }
  assert (Tr : truthy hostHeader = true <-> hostHeader <> "").
  { destruct hostHeader; cbn; split; congruence. }
  split; [|split; [exact Shape|split]].
  - intros x. rewrite C. clear C. split.
    + intros (st' & E & V).
      destruct (tcpOpen (sockEvents w StageB i)) as [|[|]|e];
        try discriminate.
      2:{ inversion E; subst st'. rewrite valid_tickB in V.
          now apply app_one_neq in V. }
      split; [reflexivity|].
      destruct (truthy hostHeader) eqn:Eh.
      * destruct (httpHead (httpEvents w StageB i)) as [|[|]|e];
          try discriminate.
        2:{ inversion E; subst st'. rewrite valid_tickB in V.
            now apply app_one_neq in V. }
        split; [reflexivity|].
        destruct (pingOnce (pingEvents w i)) as [|p|e]; try discriminate.
        inversion E; subst st'. rewrite valid_tickB in V.
        exists p. split; [reflexivity|].
        destruct (Probe.ok p); [|now apply app_one_neq in V].
        destruct (Probe.ms p) as [|y]; [now apply app_one_neq in V|].
        rewrite valid_accept in V. apply app_one_inj in V.
        inversion V; subst. auto.
      * split.
        { intros Hne. apply Tr in Hne. congruence. }
        destruct (pingOnce (pingEvents w i)) as [|p|e]; try discriminate.
        inversion E; subst st'. rewrite valid_tickB in V.
        exists p. split; [reflexivity|].
        destruct (Probe.ok p); [|now apply app_one_neq in V].
        destruct (Probe.ms p) as [|y]; [now apply app_one_neq in V|].
        rewrite valid_accept in V. apply app_one_inj in V.
        inversion V; subst. auto.
    + intros (HT & HH & p & HP & Hok & Hms).
      rewrite HT, HP, Hok, Hms.
      destruct (truthy hostHeader) eqn:Eh.
      * rewrite (HH (proj1 Tr eq_refl)). eexists. split; reflexivity.
      * eexists. split; reflexivity.
  - intros -> p HT HP Hok. destruct (Shape p HP Hok) as [x Hms].
    rewrite C, HT, HP, Hok, Hms. cbn [truthy].
    eexists. exists x. split; reflexivity.
  - intros st' E. rewrite C in E. clear C.
    destruct (tcpOpen (sockEvents w StageB i)) as [|[|]|e]; try discriminate.
    2:{ inversion E; subst st'. cbn. auto. }
    destruct (if truthy hostHeader then _ else _) as [|[|]|e];
      try discriminate.
    2:{ inversion E; subst st'. cbn. auto. }
    destruct (pingOnce (pingEvents w i)) as [|p|e]; try discriminate.
    inversion E; subst st'.
    destruct (Probe.ok p); [|cbn; auto].
    destruct (Probe.ms p) as [|y]; cbn; [auto|].
    split; [reflexivity|]. right. eauto.
Qed.

Lemma stageB_entry_iff_witness :
  exists st' x,
    taskB ScanProps.world_open "" 1 0 "10.0.0.1" ScanProps.vars0 = Ret st' /\
    valid st' =
    (valid ScanProps.vars0 ++ [{| ip := "10.0.0.1"; ms := x |}])%list.
Proof.
  destruct (stageB_entry_iff ScanProps.world_open "" 1 0 "10.0.0.1"
              ScanProps.vars0) as (_ & _ & K & _).
  eapply K; reflexivity.
Defined.

(** ** Completion *)

Import ScanProps.

Section FloatOrder.

Lemma Qle_bool_false a b : Qle_bool a b = false <-> (b < a)%Q.
Proof.
  rewrite <- not_true_iff_false, Qle_bool_iff. split.
  - apply Qnot_le_lt.
  - apply Qlt_not_le.
Qed.

Lemma positive_fsub x y :
  positive (fsub x y) = true -> fleb y x = true /\ fleb x y = false.
Proof.
  destruct x as [a| | |], y as [b| | |]; cbn; try discriminate; auto.
  rewrite negb_true_iff, Qle_bool_false. intros H. split.
  - apply Qle_bool_iff. lra.
  - apply Qle_bool_false. lra.
Qed.

Lemma not_positive_fsub x y :
  isNaN x = false -> isNaN y = false ->
  positive (fsub x y) = false -> fleb x y = true.
Proof.
  destruct x as [a| | |], y as [b| | |]; cbn; try discriminate; auto.
  intros _ _. rewrite negb_false_iff, Qle_bool_iff. intros H.
  apply Qle_bool_iff. lra.
Qed.

(** An entry with a latency below [x]'s does not have the latency of [x]. *)
Lemma below_not_same x y v :
  positive (fsub x y) = true -> feqb x v = true -> feqb y v = false.
Proof.
  unfold feqb.
  destruct x as [a| | |], y as [b| | |], v as [c| | |]; cbn;
    try discriminate; auto.
  rewrite negb_true_iff, Qle_bool_false, andb_true_iff, !Qle_bool_iff.
  intros H [H1 H2]. apply andb_false_iff. right.
  apply Qle_bool_false. lra.
Qed.

End FloatOrder.

Section Insertion.

Lemma insert_perm x l : Permutation (insert x l) (x :: l).
Proof.
  induction l as [|y l IH]; cbn [insert]; [reflexivity|].
  destruct (positive (comparefn x y)); [|reflexivity].
  rewrite IH. apply perm_swap.
Qed.

Lemma insert_hd x y l :
  by_latency y x -> HdRel by_latency y l -> HdRel by_latency y (insert x l).
Proof.
  intros Hyx H. destruct l as [|z l]; cbn [insert]; [now constructor|].
  destruct (positive (comparefn x z)).
  - inversion H; subst. now constructor.
  - now constructor.
Qed.

Lemma insert_sorted x l :
  isNaN (ms x) = false -> Forall (fun e => isNaN (ms e) = false) l ->
  Sorted by_latency l -> Sorted by_latency (insert x l).
Proof.
  intros Hx Hl Hs. induction l as [|y l IH]; cbn [insert].
  - repeat constructor.
  - inversion Hl as [|? ? Hy Hl']; subst.
    inversion Hs as [|? ? Hs' Hhd]; subst.
    destruct (positive (comparefn x y)) eqn:E.
    + constructor; [now apply IH|].
      apply insert_hd; [|exact Hhd].
      unfold by_latency. now apply positive_fsub in E.
    + constructor; [exact Hs|]. constructor.
      unfold by_latency. now apply not_positive_fsub.
Qed.

Lemma isort_sorted l :
  Forall (fun e => isNaN (ms e) = false) l ->
  Sorted by_latency (fold_right insert [] l).
Proof.
  induction l as [|x l IH]; intros H; cbn [fold_right]; [constructor|].
  inversion H as [|? ? Hx Hl]; subst.
  apply insert_sorted; [exact Hx | | now apply IH].
  apply Forall_forall. intros e He.
  rewrite Forall_forall in Hl. apply Hl.
  revert He. clear. induction l as [|y l IH]; cbn [fold_right]; [auto|].
  intros He. apply (Permutation_in _ (insert_perm y _)) in He.
  destruct He as [->|He]; [now left | right; now apply IH].
Qed.

Lemma isort_perm l : Permutation l (fold_right insert [] l).
Proof.
  induction l as [|x l IH]; cbn [fold_right]; [constructor|].
  rewrite insert_perm. now constructor.
Qed.

(** Insertion puts an entry in front of those already there that have its
    latency. *)
Lemma insert_filter v x l :
  filter (same_latency v) (insert x l) = filter (same_latency v) (x :: l).
Proof.
  induction l as [|y l IH]; cbn [insert]; [reflexivity|].
  destruct (positive (comparefn x y)) eqn:E; [|reflexivity].
  cbn [filter] in *. rewrite IH.
  destruct (same_latency v x) eqn:Ex; [|reflexivity].
  unfold same_latency in *. now rewrite (below_not_same _ _ _ E Ex).
Qed.

Lemma isort_filter v l :
  filter (same_latency v) (fold_right insert [] l) = filter (same_latency v) l.
Proof.
  induction l as [|x l IH]; cbn [fold_right]; [reflexivity|].
  rewrite insert_filter. cbn [filter]. now rewrite IH.
Qed.

Lemma sort_spec l l' :
  sort l = Ret l' ->
  Sorted by_latency l' /\ Permutation l l' /\
  forall v, filter (same_latency v) l'
            = filter (same_latency v) l.
Proof.
  unfold sort. destruct l as [|x [|y l]].
  - intros H. inversion H; subst. repeat constructor.
  - intros H. inversion H; subst. repeat constructor.
  - destruct (existsb _ _) eqn:E; [discriminate|].
    intros H. injection H as <-.
    split; [|split].
    + apply (isort_sorted (x :: y :: l)). apply Forall_forall. intros e He.
      destruct (isNaN (ms e)) eqn:N; [|reflexivity].
      assert (X : existsb (fun e => isNaN (ms e)) (x :: y :: l) = true).
      { apply existsb_exists. eauto. }
      congruence.
    + apply (isort_perm (x :: y :: l)).
    + intros v. apply (isort_filter v (x :: y :: l)).
Qed.

End Insertion.

Section Discovery.

Lemma validFound_app a b :
  validFound (a ++ b) = (validFound a ++ validFound b)%list.
Proof. unfold validFound. apply flat_map_app. Qed.

Lemma finish_spec blocks st res notes :
  finish blocks st = Ret (res, notes) ->
  notes = emitted st /\
  sort (valid st) = Ret (Result.valid res) /\
  Result.txt res = join (String "010" "") (map ip (Result.valid res)) /\
  exists rows,
    mapM csvRow (Result.valid res) = Ret rows /\
    Result.csv res
    = "ip,ping_ms" ++ String "010" (join (String "010" "") rows).
Proof.
  unfold finish. destruct (sort (valid st)) as [sorted| | |];
    cbn [bind]; try discriminate.
  destruct (mapM csvRow sorted) as [rows| | |] eqn:E;
    cbn [bind]; try discriminate.
  intros H. injection H as <- <-. cbn.
  split; [reflexivity|]. split; [reflexivity|]. split; [reflexivity|].
  exists rows. split; [exact E | reflexivity].
Qed.

End Discovery.
(* ===================================================================== *)
(** * Further properties of the address helpers *)
(* ===================================================================== *)

Section Octets.

(** The four numbers that [intToIp] writes are the base-256 digits of the
    unsigned value. *)
Lemma intToIp_digits n :
  let u := ToUint32 n in
  shr n 24 = u / 2 ^ 24 /\
  band (sar n 16) 255 = (u / 2 ^ 16) mod 2 ^ 8 /\
  band (sar n 8) 255 = (u / 2 ^ 8) mod 2 ^ 8 /\
  band n 255 = u mod 2 ^ 8.
Proof.
  cbv zeta. rewrite shr_24, sar_16, sar_8, !band_255.
  destruct (ToInt32_cong n) as [k Hk].
  pose proof (ToInt32_range n) as Hr.
  pose proof (ToUint32_range n) as Hu.
  assert (Eu : ToInt32 n = ToUint32 n + (ToInt32 n / 2 ^ 32) * 2 ^ 32).
  { rewrite <- (ToUint32_ToInt32 n), ToUint32_eq.
    pose proof (Z.div_mod (ToInt32 n) (2 ^ 32)). lia. }
  remember (ToInt32 n) as x eqn:Ex. remember (ToUint32 n) as u eqn:Eu'.
  remember (x / 2 ^ 32) as j eqn:Ej. clear Ex Eu' Ej Hk k.
  assert (D16 : x / 2 ^ 16 = u / 2 ^ 16 + j * 2 ^ 16).
  { rewrite Eu. replace (u + j * 2 ^ 32) with (u + (j * 2 ^ 16) * 2 ^ 16) by lia.
    apply Z.div_add. lia. }
  assert (D8 : x / 2 ^ 8 = u / 2 ^ 8 + j * 2 ^ 24).
  { rewrite Eu. replace (u + j * 2 ^ 32) with (u + (j * 2 ^ 24) * 2 ^ 8) by lia.
    apply Z.div_add. lia. }
  assert (R16 : - 2 ^ 31 <= x / 2 ^ 16 < 2 ^ 31).
  { split; [apply Z.div_le_lower_bound | apply Z.div_lt_upper_bound]; lia. }
  assert (R8 : - 2 ^ 31 <= x / 2 ^ 8 < 2 ^ 31).
  { split; [apply Z.div_le_lower_bound | apply Z.div_lt_upper_bound]; lia. }
  rewrite (ToInt32_small _ R16), (ToInt32_small _ R8).
  split; [reflexivity|]. split; [|split].
  - rewrite D16. replace (j * 2 ^ 16) with ((j * 2 ^ 8) * 2 ^ 8) by lia.
    apply Z.mod_add. lia.
  - rewrite D8. replace (j * 2 ^ 24) with ((j * 2 ^ 16) * 2 ^ 8) by lia.
    apply Z.mod_add. lia.
  - rewrite Eu. replace (j * 2 ^ 32) with ((j * 2 ^ 24) * 2 ^ 8) by lia.
    apply Z.mod_add. lia.
Qed.

Lemma base256 u :
  0 <= u < 2 ^ 32 ->
  octet (u / 2 ^ 24) /\ octet ((u / 2 ^ 16) mod 2 ^ 8) /\
  octet ((u / 2 ^ 8) mod 2 ^ 8) /\ octet (u mod 2 ^ 8) /\
  u = (u / 2 ^ 24) * 2 ^ 24 + ((u / 2 ^ 16) mod 2 ^ 8) * 2 ^ 16
      + ((u / 2 ^ 8) mod 2 ^ 8) * 2 ^ 8 + u mod 2 ^ 8.
Proof.
  intros Hu. unfold octet.
  pose proof (Z.div_mod u (2 ^ 8)) as E0.
  pose proof (Z.mod_pos_bound u (2 ^ 8)) as B0.
  pose proof (Z.div_mod (u / 2 ^ 8) (2 ^ 8)) as E1.
  pose proof (Z.mod_pos_bound (u / 2 ^ 8) (2 ^ 8)) as B1.
  assert (Q16 : u / 2 ^ 8 / 2 ^ 8 = u / 2 ^ 16).
  { rewrite Z.div_div by lia. reflexivity. }
  pose proof (Z.div_mod (u / 2 ^ 16) (2 ^ 8)) as E2.
  pose proof (Z.mod_pos_bound (u / 2 ^ 16) (2 ^ 8)) as B2.
  assert (Q24 : u / 2 ^ 16 / 2 ^ 8 = u / 2 ^ 24).
  { rewrite Z.div_div by lia. reflexivity. }
  assert (H24 : 0 <= u / 2 ^ 24 < 2 ^ 8).
  { split; [apply Z.div_pos | apply Z.div_lt_upper_bound]; lia. }
  rewrite Q16 in E1. rewrite Q24 in E2.
  remember (u / 2 ^ 24) as a. remember ((u / 2 ^ 16) mod 2 ^ 8) as b.
  remember ((u / 2 ^ 8) mod 2 ^ 8) as c. remember (u mod 2 ^ 8) as d.
  remember (u / 2 ^ 16) as p. remember (u / 2 ^ 8) as q.
  lia.
Qed.

Lemma intToIp_as_dotted n :
  exists a b c d,
    octet a /\ octet b /\ octet c /\ octet d /\
    intToIp n = dotted a b c d /\
    ToUint32 n = a * 2 ^ 24 + b * 2 ^ 16 + c * 2 ^ 8 + d /\
    fold4 a b c d = ToInt32 n.
Proof.
  pose proof (intToIp_digits n) as D. cbv zeta in D.
  destruct D as (D1 & D2 & D3 & D4).
  destruct (base256 (ToUint32 n) (ToUint32_range n)) as (Oa & Ob & Oc & Od & E).
  exists (ToUint32 n / 2 ^ 24), ((ToUint32 n / 2 ^ 16) mod 2 ^ 8),
         ((ToUint32 n / 2 ^ 8) mod 2 ^ 8), (ToUint32 n mod 2 ^ 8).
  split; [exact Oa|]. split; [exact Ob|]. split; [exact Oc|].
  split; [exact Od|]. split; [|split; [exact E|]].
  - unfold intToIp. rewrite D1, D2, D3, D4. reflexivity.
  - rewrite <- (fold4_int32 _ _ _ _ Oa Ob Oc Od).
    rewrite <- (ToInt32_ToUint32 (fold4 _ _ _ _)).
    rewrite (fold4_unsigned _ _ _ _ Oa Ob Oc Od), <- E.
    apply ToInt32_ToUint32.
Qed.

End Octets.

(** X1.  Whatever number it is given (negative, or beyond 32 bits),
    [intToIp] writes four decimal octets in 0..255 joined by dots: the
    base-256 digits of the number taken modulo 2^32. *)
Theorem intToIp_four_octets n :
  exists a b c d,
    (0 <= a <= 255 /\ 0 <= b <= 255 /\ 0 <= c <= 255 /\ 0 <= d <= 255) /\
    intToIp n = dotted a b c d /\
    n mod 2 ^ 32 = a * 2 ^ 24 + b * 2 ^ 16 + c * 2 ^ 8 + d.
Proof.
  destruct (intToIp_as_dotted n) as (a & b & c & d & Ha & Hb & Hc & Hd & E & U & _).
  exists a, b, c, d. rewrite <- ToUint32_eq. unfold octet in *. auto.
Qed.

(** X2.  Reading back what [intToIp] wrote gives the number itself as a
    signed 32-bit value, hence the same unsigned address after [>>> 0];
    so two numbers with the same text are the same address. *)
Theorem ipToInt_intToIp n :
  ipToInt (intToIp n) = Ret (ToInt32 n) /\
  (m <- ipToInt (intToIp n) ;; Ret (shr m 0)) = Ret (n mod 2 ^ 32) /\
  (forall n', intToIp n = intToIp n' -> n mod 2 ^ 32 = n' mod 2 ^ 32).
Proof.
  assert (R : forall k, ipToInt (intToIp k) = Ret (ToInt32 k)).
  { intros k.
    destruct (intToIp_as_dotted k)
      as (a & b & c & d & Ha & Hb & Hc & Hd & E & _ & F).
    rewrite E, (ipToInt_dotted a b c d Ha Hb Hc Hd). now rewrite F. }
  split; [apply R|]. split.
  - rewrite R. cbn [bind]. rewrite shr_0, ToUint32_ToInt32. reflexivity.
  - intros n' E. pose proof (R n) as Rn. rewrite E, R in Rn.
    injection Rn as Rn. rewrite <- !ToUint32_eq.
    rewrite <- (ToUint32_ToInt32 n), <- (ToUint32_ToInt32 n'). now rewrite Rn.
Qed.

(** The bounds in closed form: the base with its host bits cleared, and
    the last address of that network. *)
Lemma networkBounds_closed baseInt p :
  0 <= p <= 32 ->
  first (networkBounds baseInt p)
  = 2 ^ (32 - p) * (ToUint32 baseInt / 2 ^ (32 - p)) /\
  last (networkBounds baseInt p)
  = first (networkBounds baseInt p) + 2 ^ (32 - p) - 1.
Proof.
  intros Hp. pose proof (networkBounds_spec baseInt p Hp) as S.
  cbv zeta in S. destruct S as (S1 & S2 & S3 & S4 & S5 & S6).
  remember (first (networkBounds baseInt p)) as f eqn:Ef.
  remember (last (networkBounds baseInt p)) as l eqn:El.
  remember (ToUint32 baseInt) as u eqn:Eu. clear Ef El Eu.
  assert (P : 0 < 2 ^ (32 - p)) by (apply Z.pow_pos_nonneg; lia).
  remember (2 ^ (32 - p)) as m eqn:Em. clear Em.
  split; [|lia].
  pose proof (Z.div_mod f m) as Df. rewrite S6 in Df.
  assert (Q : u / m = f / m).
  { symmetry. apply (Z.div_unique u m (f / m) (u - f)); lia. }
  rewrite Q. lia.
Qed.

Lemma bounds_eq (r r' : bounds) :
  first r = first r' -> last r = last r' -> r = r'.
Proof. destruct r, r'. cbn. now intros -> ->. Qed.

(** X3.  The range that [parseCIDR] returns is the network that contains
    the base address: [first] is the base with its [32 - p] host bits
    cleared, [last] is [first + 2^(32-p) - 1], and the base lies between
    them. *)
Theorem parseCIDR_network a b c d p :
  octet a -> octet b -> octet c -> octet d -> 0 <= p <= 32 ->
  exists r,
    parseCIDR (dotted a b c d ++ "/" ++ ToString p) = Ret r /\
    let u := a * 2 ^ 24 + b * 2 ^ 16 + c * 2 ^ 8 + d in
    first r = 2 ^ (32 - p) * (u / 2 ^ (32 - p)) /\
    last r = first r + 2 ^ (32 - p) - 1 /\
    first r <= u <= last r.
Proof.
  intros Ha Hb Hc Hd Hp.
  exists (networkBounds (fold4 a b c d) p).
  split; [now apply parseCIDR_dotted|]. cbv zeta.
  destruct (networkBounds_closed (fold4 a b c d) p Hp) as [F L].
  pose proof (networkBounds_spec (fold4 a b c d) p Hp) as S.
  cbv zeta in S. destruct S as (_ & _ & _ & _ & S5 & _).
  rewrite (fold4_unsigned a b c d Ha Hb Hc Hd) in F, S5.
  split; [exact F|]. split; [exact L | exact S5].
Qed.

Lemma parseCIDR_network_witness :
  exists r,
    parseCIDR (dotted 10 1 2 3 ++ "/" ++ ToString 20) = Ret r /\
    let u := 10 * 2 ^ 24 + 1 * 2 ^ 16 + 2 * 2 ^ 8 + 3 in
    first r = 2 ^ (32 - 20) * (u / 2 ^ (32 - 20)) /\
    last r = first r + 2 ^ (32 - 20) - 1 /\
    first r <= u <= last r.
Proof.
  apply (parseCIDR_network 10 1 2 3 20); unfold octet; lia.
Defined.

(** X4.  Every address of a range names the same range: parsing the text
    of any address between [first] and [last], with the same prefix
    length, returns the same bounds. *)
Theorem parseCIDR_same_network a b c d p r x :
  octet a -> octet b -> octet c -> octet d -> 0 <= p <= 32 ->
  parseCIDR (dotted a b c d ++ "/" ++ ToString p) = Ret r ->
  first r <= x <= last r ->
  parseCIDR (intToIp x ++ "/" ++ ToString p) = Ret r.
Proof.
  intros Ha Hb Hc Hd Hp E Hx.
  rewrite (parseCIDR_dotted a b c d p Ha Hb Hc Hd Hp) in E.
  injection E as <-.
  destruct (networkBounds_closed (fold4 a b c d) p Hp) as [F L].
  pose proof (networkBounds_spec (fold4 a b c d) p Hp) as S.
  cbv zeta in S. destruct S as (S1 & S2 & S3 & S4 & _ & S6).
  destruct (intToIp_as_dotted x)
    as (a' & b' & c' & d' & Ha' & Hb' & Hc' & Hd' & Ex & Ux & Fx).
  rewrite Ex, (parseCIDR_dotted a' b' c' d' p Ha' Hb' Hc' Hd' Hp).
  f_equal.
  destruct (networkBounds_closed (fold4 a' b' c' d') p Hp) as [F' L'].
  assert (U : ToUint32 (fold4 a' b' c' d') = x).
  { rewrite Fx, ToUint32_ToInt32. apply ToUint32_small. lia. }
  rewrite U in F'.
  assert (P : 0 < 2 ^ (32 - p)) by (apply Z.pow_pos_nonneg; lia).
  remember (first (networkBounds (fold4 a b c d) p)) as f.
  remember (last (networkBounds (fold4 a b c d) p)) as l.
  remember (2 ^ (32 - p)) as m.
  assert (Q : x / m = f / m).
  { pose proof (Z.div_mod f m) as Df. rewrite S6 in Df.
    symmetry. apply (Z.div_unique x m (f / m) (x - f)); lia. }
  apply bounds_eq.
  - rewrite F', Q, <- Heqf.
    pose proof (Z.div_mod f m) as Df. rewrite S6 in Df. lia.
  - rewrite L', F', Q, <- Heql.
    pose proof (Z.div_mod f m) as Df. rewrite S6 in Df. lia.
Qed.

Lemma parseCIDR_same_network_witness :
  parseCIDR (intToIp 167776000 ++ "/" ++ ToString 20)
  = Ret {| first := 167772160; last := 167776255 |}.
Proof.
  apply (parseCIDR_same_network 10 0 0 0 20); unfold octet; try lia.
  - vm_compute. reflexivity.
  - cbn. lia.
Defined.

(** ** Further properties of the block enumeration *)

(** The number of partitions that a network of prefix length [p] meets. *)
Lemma block_count f p :
  1 <= p <= 32 -> 0 <= f -> f mod 2 ^ (32 - p) = 0 ->
  (align24 (f + 2 ^ (32 - p) - 1) - align24 f) / 256 + 1
  = 2 ^ (24 - Z.min p 24).
Proof.
  intros Hp Hf Hm. unfold align24.
  replace (256 * ((f + 2 ^ (32 - p) - 1) / 256) - 256 * (f / 256))
    with (((f + 2 ^ (32 - p) - 1) / 256 - f / 256) * 256) by lia.
  rewrite Z.div_mul by lia.
  pose proof (Z.div_mod f (2 ^ (32 - p))) as Df. rewrite Hm in Df.
  assert (P : 0 < 2 ^ (32 - p)) by (apply Z.pow_pos_nonneg; lia).
  assert (K : 0 <= f / 2 ^ (32 - p)) by (apply Z.div_pos; lia).
  remember (f / 2 ^ (32 - p)) as k eqn:Ek. clear Ek.
  destruct (Z_le_gt_dec p 24) as [Hle|Hgt].
  - (* the network is a whole number of partitions *)
    rewrite Z.min_l by lia.
    assert (E : 2 ^ (32 - p) = 256 * 2 ^ (24 - p)).
    { change 256 with (2 ^ 8). rewrite <- Z.pow_add_r by lia. f_equal. lia. }
    assert (P' : 0 < 2 ^ (24 - p)) by (apply Z.pow_pos_nonneg; lia).
    rewrite E in *. remember (2 ^ (24 - p)) as h eqn:Eh. clear Eh E.
    assert (Q1 : f / 256 = h * k).
    { symmetry. apply (Z.div_unique f 256 (h * k) 0); lia. }
    assert (Q2 : (f + 256 * h - 1) / 256 = h * k + h - 1).
    { symmetry. apply (Z.div_unique _ 256 (h * k + h - 1) 255); lia. }
    rewrite Q1, Q2. lia.
  - (* the network lies inside one partition *)
    rewrite Z.min_r by lia. change (2 ^ (24 - 24)) with 1.
    assert (E : 256 = 2 ^ (32 - p) * 2 ^ (p - 24)).
    { change 256 with (2 ^ 8). rewrite <- Z.pow_add_r by lia. f_equal. lia. }
    assert (P' : 0 < 2 ^ (p - 24)) by (apply Z.pow_pos_nonneg; lia).
    remember (2 ^ (32 - p)) as m eqn:Em. remember (2 ^ (p - 24)) as h eqn:Eh.
    clear Em Eh.
    pose proof (Z.div_mod k h) as Dk.
    pose proof (Z.mod_pos_bound k h) as Bk.
    remember (k / h) as q0. remember (k mod h) as t.
    assert (T : m * t + m <= 256) by (rewrite E; nia).
    assert (Q1 : f / 256 = q0).
    { symmetry. apply (Z.div_unique f 256 q0 (m * t)); nia. }
    assert (Q2 : (f + m - 1) / 256 = q0).
    { symmetry. apply (Z.div_unique _ 256 q0 (m * t + m - 1)); nia. }
    rewrite Q1, Q2. lia.
Qed.

(** X5.  For a prefix length from 1 to 32, [list24Blocks] returns the
    partition starts from the aligned first address to the aligned last
    address, stepping by 256: [2^(24-p)] blocks for [p <= 24] and the one
    enclosing block for [p > 24], each a multiple of 256 below 2^32, in
    ascending order. *)
Theorem list24Blocks_enumerates a b c d p :
  octet a -> octet b -> octet c -> octet d -> 1 <= p <= 32 ->
  exists r blocks,
    parseCIDR (dotted a b c d ++ "/" ++ ToString p) = Ret r /\
    list24Blocks (dotted a b c d ++ "/" ++ ToString p) = Ret blocks /\
    blocks = map (fun i => align24 (first r) + 256 * Z.of_nat i)
                 (seq 0 (List.length blocks)) /\
    Z.of_nat (List.length blocks) = 2 ^ (24 - Z.min p 24) /\
    align24 (first r) + 256 * (Z.of_nat (List.length blocks) - 1)
    = align24 (last r) /\
    Forall (fun blk => blk mod 256 = 0 /\ 0 <= blk < 2 ^ 32) blocks.
Proof.
  intros Ha Hb Hc Hd Hp.
  assert (Hp0 : 0 <= p <= 32) by lia.
  destruct (list24Blocks_prefix_ge_1 a b c d p Ha Hb Hc Hd Hp) as (r & E & L).
  pose proof E as E'.
  rewrite (parseCIDR_dotted a b c d p Ha Hb Hc Hd Hp0) in E'.
  injection E' as Er.
  destruct (networkBounds_closed (fold4 a b c d) p Hp0) as [_ Cl].
  pose proof (networkBounds_spec (fold4 a b c d) p Hp0) as S.
  cbv zeta in S. destruct S as (S1 & S2 & S3 & _ & _ & S6).
  rewrite Er in Cl, S1, S2, S3, S6.
  pose proof (block_count (first r) p Hp S1 S6) as Cnt.
  rewrite <- Cl in Cnt.
  assert (Pn : 0 < 2 ^ (24 - Z.min p 24)) by (apply Z.pow_pos_nonneg; lia).
  remember ((align24 (last r) - align24 (first r)) / 256 + 1) as n eqn:En.
  exists r. eexists. split; [exact E|]. split; [exact L|].
  rewrite length_map, length_seq.
  split; [reflexivity|]. split; [lia|]. split.
  - rewrite Z2Nat.id by lia. subst n. unfold align24.
    replace (256 * (last r / 256) - 256 * (first r / 256))
      with ((last r / 256 - first r / 256) * 256) by lia.
    rewrite Z.div_mul by lia. lia.
  - apply Forall_forall. intros blk Hin. apply in_map_iff in Hin.
    destruct Hin as (i & <- & Hi). apply in_seq in Hi.
    assert (Hl : align24 (first r) + 256 * (n - 1) = align24 (last r)).
    { subst n. unfold align24.
      replace (256 * (last r / 256) - 256 * (first r / 256))
        with ((last r / 256 - first r / 256) * 256) by lia.
      rewrite Z.div_mul by lia. lia. }
    unfold align24 in *.
    assert (0 <= first r / 256) by (apply Z.div_pos; lia).
    assert (last r / 256 < 2 ^ 24) by (apply Z.div_lt_upper_bound; lia).
    split.
    + replace (256 * (first r / 256) + 256 * Z.of_nat i)
        with ((first r / 256 + Z.of_nat i) * 256) by lia.
      apply Z.mod_mul. lia.
    + lia.
Qed.

Lemma list24Blocks_enumerates_witness :
  exists r blocks,
    parseCIDR (dotted 151 101 0 0 ++ "/" ++ ToString 16) = Ret r /\
    list24Blocks (dotted 151 101 0 0 ++ "/" ++ ToString 16) = Ret blocks /\
    blocks = map (fun i => align24 (first r) + 256 * Z.of_nat i)
                 (seq 0 (List.length blocks)) /\
    Z.of_nat (List.length blocks) = 2 ^ (24 - Z.min 16 24) /\
    align24 (first r) + 256 * (Z.of_nat (List.length blocks) - 1)
    = align24 (last r) /\
    Forall (fun blk => blk mod 256 = 0 /\ 0 <= blk < 2 ^ 32) blocks.
Proof.
  apply (list24Blocks_enumerates 151 101 0 0 16); unfold octet; lia.
Defined.

(** With prefix length 0 the enumeration is empty for every base. *)
Lemma list24Blocks_prefix_0 a b c d :
  octet a -> octet b -> octet c -> octet d ->
  list24Blocks (dotted a b c d ++ "/" ++ ToString 0) = Ret [].
Proof.
  intros Ha Hb Hc Hd. unfold list24Blocks.
  rewrite (parseCIDR_dotted a b c d 0 Ha Hb Hc Hd) by lia. cbn [bind].
  destruct (networkBounds_closed (fold4 a b c d) 0 ltac:(lia)) as [F L].
  change (2 ^ (32 - 0)) with (2 ^ 32) in *.
  pose proof (ToUint32_range (fold4 a b c d)) as R.
  rewrite Z.div_small in F by exact R. rewrite F in L.
  rewrite F, L. vm_compute. reflexivity.
Qed.

(** ** Further properties of the sampling *)

Import MoreProps.

Lemma list_eqb_eq l : forall l', list_eqb l l' = true -> l = l'.
Proof.
  induction l as [|x l IH]; intros [|y l'] H; cbn in H; try discriminate;
    [reflexivity|].
  apply andb_true_iff in H. destruct H as [E H].
  apply Z.eqb_eq in E. subst. f_equal. now apply IH.
Qed.

Lemma all_nested_ok : forallb nested_ok (map Z.of_nat (seq 0 255)) = true.
Proof. vm_compute. reflexivity. Qed.

Lemma all_covered_ok : forallb covered_ok (map Z.of_nat (seq 1 254)) = true.
Proof. vm_compute. reflexivity. Qed.

Lemma nested_ok_eq t :
  nested_ok t =
  match sample_loop Scan.sample_fuel t [] 0 with
  | Ret l => list_eqb l (firstn (Z.to_nat t) full_offsets)
  | _ => false
  end.
Proof. reflexivity. Qed.

Lemma sample_loop_firstn t :
  0 <= t <= 254 ->
  sample_loop Scan.sample_fuel t [] 0
  = Ret (firstn (Z.to_nat t) full_offsets).
Proof.
  intros H.
  assert (N : nested_ok t = true).
  { pose proof all_nested_ok as A. rewrite forallb_forall in A.
    apply A. apply in_map_iff. exists (Z.to_nat t). split; [lia|].
    apply in_seq. lia. }
  rewrite nested_ok_eq in N.
  remember (sample_loop Scan.sample_fuel t [] 0) as o eqn:Eo. clear Eo.
  destruct o as [l| | |]; try discriminate.
  f_equal. apply list_eqb_eq. exact N.
Qed.

Lemma full_offsets_cover off : 1 <= off <= 254 -> In off full_offsets.
Proof.
  intros H.
  assert (C : covered_ok off = true).
  { pose proof all_covered_ok as A. rewrite forallb_forall in A.
    apply A. apply in_map_iff. exists (Z.to_nat off). split; [lia|].
    apply in_seq. lia. }
  unfold covered_ok in C. apply existsb_exists in C.
  destruct C as (x & Hx & E). apply Z.eqb_eq in E. subst x. exact Hx.
Qed.

(** The offsets that [sampleIPsIn24] uses for [k >= 1], in closed form. *)
Lemma sampleIPsIn24_firstn fuel b k :
  1 <= k -> (2540 <= fuel)%nat ->
  sampleIPsIn24 fuel b k =
  Ret (map (fun off => intToIp (shr (b + off) 0))
           (firstn (Z.to_nat (Z.min k 254)) full_offsets)).
Proof.
  intros Hk Hf.
  destruct (sample_offsets k Hk) as (offs & Hl & _ & _ & R).
  assert (E : offs = firstn (Z.to_nat (Z.min k 254)) full_offsets).
  { destruct (R Scan.sample_fuel b) as [L' _];
      [rewrite sample_fuel_eq; lia|].
    rewrite sample_loop_min, sample_loop_firstn in L' by lia.
    remember (firstn (Z.to_nat (Z.min k 254)) full_offsets) as l eqn:El.
    clear El. congruence. }
  destruct (R fuel b Hf) as [_ ->]. rewrite E. reflexivity.
Qed.

(** X6.  Asking for more samples keeps the earlier ones: for
    [1 <= k <= k'] the addresses sampled for [k] are the first
    [min(k, 254)] of those sampled for [k']. *)
Theorem sampleIPsIn24_nested b k k' :
  1 <= k -> k <= k' ->
  exists ips ips',
    (forall fuel, (2540 <= fuel)%nat ->
       sampleIPsIn24 fuel b k = Ret ips /\
       sampleIPsIn24 fuel b k' = Ret ips') /\
    ips = firstn (Z.to_nat (Z.min k 254)) ips'.
Proof.
  intros Hk Hkk.
  eexists. eexists. split.
  - intros fuel Hf. split; apply sampleIPsIn24_firstn; lia || exact Hf.
  - rewrite firstn_map, firstn_firstn.
    replace (Nat.min (Z.to_nat (Z.min k 254)) (Z.to_nat (Z.min k' 254)))
      with (Z.to_nat (Z.min k 254)) by lia.
    reflexivity.
Qed.

Lemma sampleIPsIn24_nested_witness :
  exists ips ips',
    (forall fuel, (2540 <= fuel)%nat ->
       sampleIPsIn24 fuel 167772160 3 = Ret ips /\
       sampleIPsIn24 fuel 167772160 12 = Ret ips') /\
    ips = firstn (Z.to_nat (Z.min 3 254)) ips'.
Proof.
  apply (sampleIPsIn24_nested 167772160 3 12); lia.
Defined.

(** X7.  With [k >= 254] the sampling loop stops and every host offset
    from 1 to 254 of the block is sampled: the result has exactly 254
    addresses. *)
Theorem sampleIPsIn24_covers b k :
  254 <= k ->
  exists ips,
    (forall fuel, (2540 <= fuel)%nat -> sampleIPsIn24 fuel b k = Ret ips) /\
    List.length ips = 254%nat /\
    forall off, 1 <= off <= 254 -> In (intToIp (shr (b + off) 0)) ips.
Proof.
  intros Hk.
  assert (Len : List.length full_offsets = 254%nat) by (vm_compute; reflexivity).
  eexists. split; [intros fuel Hf; apply sampleIPsIn24_firstn; lia || exact Hf|].
  rewrite Z.min_r by lia.
  replace (Z.to_nat 254) with (List.length full_offsets)
    by (rewrite Len; reflexivity).
  rewrite firstn_all.
  split; [rewrite length_map; exact Len|].
  intros off Hoff.
  apply (in_map (fun off => intToIp (shr (b + off) 0))).
  apply full_offsets_cover. exact Hoff.
Qed.

Lemma sampleIPsIn24_covers_witness :
  exists ips,
    (forall fuel, (2540 <= fuel)%nat ->
       sampleIPsIn24 fuel 167772160 300 = Ret ips) /\
    List.length ips = 254%nat /\
    forall off, 1 <= off <= 254 -> In (intToIp (shr (167772160 + off) 0)) ips.
Proof.
  apply (sampleIPsIn24_covers 167772160 300). lia.
Defined.

(** ** Expansion of a block *)

Lemma NoDup_map_in {A B} (f : A -> B) (l : list A) :
  (forall x y, In x l -> In y l -> f x = f y -> x = y) ->
  NoDup l -> NoDup (map f l).
Proof.
  intros Hinj Hn. induction Hn as [|x l Hx Hn IH]; cbn [map]; constructor.
  - intros Hin. apply in_map_iff in Hin. destruct Hin as (y & E & Hy).
    apply Hx. rewrite (Hinj x y); auto; [now left | now right].
  - apply IH. intros u v Hu Hv. apply Hinj; now right.
Qed.

(** X8.  In a block that starts at [a.b.c.0], [ipsOf24] lists the
    addresses [a.b.c.0], [a.b.c.1], ... in order, [min(limit, 256)] of
    them and none when the limit is zero or negative: the network
    address and, from limit 256 on, the address [a.b.c.255] are included,
    no address comes twice and never more than 256 come out. *)
Theorem ipsOf24_spec a b c limit :
  octet a -> octet b -> octet c ->
  let ips := ipsOf24 (a * 2 ^ 24 + b * 2 ^ 16 + c * 2 ^ 8) limit in
  ips = map (fun i => dotted a b c (Z.of_nat i))
            (seq 0 (Z.to_nat (Z.min limit 256))) /\
  Z.of_nat (List.length ips) = Z.max 0 (Z.min limit 256) /\
  NoDup ips /\
  (1 <= limit -> nth_error ips 0 = Some (dotted a b c 0)) /\
  (256 <= limit -> nth_error ips 255 = Some (dotted a b c 255)).
Proof.
  intros Ha Hb Hc. cbv zeta.
  assert (E : ipsOf24 (a * 2 ^ 24 + b * 2 ^ 16 + c * 2 ^ 8) limit
              = map (fun i => dotted a b c (Z.of_nat i))
                    (seq 0 (Z.to_nat (Z.min limit 256)))).
  { unfold ipsOf24. apply map_ext_in. intros i Hi. apply in_seq in Hi.
    apply intToIp_in_block; try assumption. unfold octet. lia. }
  rewrite E. split; [reflexivity|]. split; [|split; [|split]].
  - rewrite length_map, length_seq. lia.
  - assert (G : forall n, (n <= 256)%nat ->
                  NoDup (map (fun i => dotted a b c (Z.of_nat i)) (seq 0 n))).
    { intros n Hn. apply NoDup_map_in; [|apply seq_NoDup].
      intros i j Hi Hj Hij. apply in_seq in Hi. apply in_seq in Hj.
      apply dotted_last_inj in Hij; try assumption; unfold octet; lia. }
    apply G. lia.
  - intros Hl. rewrite nth_error_map, nth_error_seq.
    replace (Nat.ltb 0 (Z.to_nat (Z.min limit 256))) with true
      by (symmetry; apply Nat.ltb_lt; lia).
    reflexivity.
  - intros Hl. rewrite nth_error_map, nth_error_seq.
    replace (Nat.ltb 255 (Z.to_nat (Z.min limit 256))) with true
      by (symmetry; apply Nat.ltb_lt; lia).
    reflexivity.
Qed.

Lemma ipsOf24_spec_witness :
  let ips := ipsOf24 (10 * 2 ^ 24 + 0 * 2 ^ 16 + 7 * 2 ^ 8) 300 in
  ips = map (fun i => dotted 10 0 7 (Z.of_nat i))
            (seq 0 (Z.to_nat (Z.min 300 256))) /\
  Z.of_nat (List.length ips) = Z.max 0 (Z.min 300 256) /\
  NoDup ips /\
  (1 <= 300 -> nth_error ips 0 = Some (dotted 10 0 7 0)) /\
  (256 <= 300 -> nth_error ips 255 = Some (dotted 10 0 7 255)).
Proof.
  apply (ipsOf24_spec 10 0 7 300); unfold octet; lia.
Defined.

(** ** Further properties of the probes *)

Import MoreProbeProps.

Section TcpSocket.

Lemma tcp_on_ok st ev : tcp_ok st -> tcp_ok (tcp_on st ev).
Proof.
  unfold tcp_ok, tcp_on. intros H.
  destruct (existsb (sock_event_eqb ev) (listeners st)); [|exact H].
  destruct ev; cbn; destruct (tcp_promise st); cbn; auto.
Qed.

Lemma tcp_fold_ok evs : forall st, tcp_ok st -> tcp_ok (fold_left tcp_on evs st).
Proof.
  induction evs as [|ev evs IH]; intros st H; [exact H|].
  cbn [fold_left]. apply IH. now apply tcp_on_ok.
Qed.

Lemma tcp_on_destroyed st ev :
  destroyed st = true -> destroyed (tcp_on st ev) = true.
Proof.
  intros H. unfold tcp_on.
  destruct (existsb (sock_event_eqb ev) (listeners st)); [|exact H].
  destruct ev; reflexivity.
Qed.

Lemma tcp_fold_destroyed evs : forall st,
  destroyed st = true -> destroyed (fold_left tcp_on evs st) = true.
Proof.
  induction evs as [|ev evs IH]; intros st H; [exact H|].
  cbn [fold_left]. apply IH. now apply tcp_on_destroyed.
Qed.

Lemma tcp_socket_released evs :
  let st := fold_left tcp_on evs tcp_init in
  (destroyed st = true <-> exists b, tcp_promise st = Fulfilled b) /\
  (evs <> [] -> destroyed st = true) /\
  (evs = [] -> destroyed st = false /\ tcp_promise st = Pending).
Proof.
  cbv zeta. split; [|split].
  - pose proof (tcp_fold_ok evs tcp_init eq_refl) as K. unfold tcp_ok in K.
    destruct (tcp_promise (fold_left tcp_on evs tcp_init)) as [|b|e];
      [|split; eauto|destruct K].
    rewrite K. split; [discriminate | intros [b Hb]; discriminate].
  - destruct evs as [|ev evs]; [congruence|]. intros _.
    cbn [fold_left]. apply tcp_fold_destroyed. destruct ev; reflexivity.
  - intros ->. split; reflexivity.
Qed.

End TcpSocket.

(** X9.  The socket of a TCP check is destroyed exactly when the check
    has its answer: after any events it is destroyed if and only if the
    promise is fulfilled, which is the case as soon as one event has
    arrived, whether it was a connection, a timeout or an error. *)
Theorem tcpOpen_destroys_socket evs :
  let st := fold_left tcp_on evs tcp_init in
  (destroyed st = true <-> exists b, tcpOpen evs = Fulfilled b) /\
  (evs <> [] -> destroyed st = true) /\
  (evs = [] -> destroyed st = false /\ tcpOpen evs = Pending).
Proof. exact (tcp_socket_released evs). Qed.

Lemma tcpOpen_destroys_socket_witness :
  destroyed (fold_left tcp_on [SockTimeout; SockError] tcp_init) = true.
Proof.
  apply (tcpOpen_destroys_socket [SockTimeout; SockError]). discriminate.
Defined.

Section PingChild.

Lemma ping_killed_keeps evs : forall st,
  killed st = true -> killed (fold_left ping_on evs st) = true.
Proof.
  induction evs as [|ev evs IH]; intros st H; [exact H|].
  cbn [fold_left]. apply IH.
  destruct ev; cbn; try exact H. destruct (killer_armed st); [reflexivity|exact H].
Qed.

Lemma ping_disarmed_keeps evs : forall st,
  killer_armed st = false ->
  killed (fold_left ping_on evs st) = killed st.
Proof.
  induction evs as [|ev evs IH]; intros st H; [reflexivity|].
  cbn [fold_left]. rewrite IH.
  - destruct ev; cbn; try reflexivity. now rewrite H.
  - destruct ev; cbn; try exact H; try reflexivity. now rewrite H.
Qed.

Lemma ping_killer_fold evs : forall st,
  killer_armed st = true -> killed st = false ->
  killed (fold_left ping_on evs st) = killer_first evs.
Proof.
  induction evs as [|ev evs IH]; intros st Ha Hk; [exact Hk|].
  cbn [fold_left killer_first]. destruct ev.
  - apply IH; cbn; assumption.
  - apply IH; cbn; assumption.
  - apply ping_killed_keeps. cbn. now rewrite Ha.
  - rewrite ping_disarmed_keeps by reflexivity. cbn. exact Hk.
  - rewrite ping_disarmed_keeps by reflexivity. cbn. exact Hk.
Qed.

End PingChild.

(** X10.  The ping child is killed exactly when the kill timer fires
    before the child has closed or failed: [close] and [error] clear the
    timer, so a ping that ends in time is never killed afterwards. *)
Theorem pingOnce_kill_timer evs :
  killed (fold_left ping_on evs ping_init) = killer_first evs /\
  forall pre post,
    forallb (fun ev => match ev with PingKiller => false | _ => true end) pre
      = true ->
    killed (fold_left ping_on (pre ++ PingClose :: post) ping_init) = false /\
    killed (fold_left ping_on (pre ++ PingError :: post) ping_init) = false.
Proof.
  assert (K : forall l, killed (fold_left ping_on l ping_init) = killer_first l).
  { intros l. apply ping_killer_fold; reflexivity. }
  split; [apply K|]. intros pre post H. rewrite !K.
  induction pre as [|ev pre IH]; [split; reflexivity|].
  cbn [forallb] in H. apply andb_true_iff in H. destruct H as [He Hp].
  destruct ev; cbn [app killer_first]; try discriminate; auto.
Qed.

Lemma pingOnce_kill_timer_witness :
  killed (fold_left ping_on
            ([PingStdout "64 bytes: time=3 ms"] ++ PingClose :: [PingKiller])
            ping_init) = false.
Proof.
  apply (pingOnce_kill_timer []). reflexivity.
Defined.

Section Latency.

Lemma round_half_even_nonneg m : (0 <= m)%Q -> 0 <= round_half_even m.
Proof.
  intros H. unfold round_half_even.
  assert (F : 0 <= Qfloor m).
  { change 0 with (Qfloor 0). now apply Qfloor_resp_le. }
  destruct (Qcompare _ _); [destruct (Z.even _)| |]; lia.
Qed.

Lemma pow2_pos e : (0 < pow2 e)%Q.
Proof.
  unfold pow2. destruct (0 <=? e) eqn:E.
  - apply Z.leb_le in E. unfold Qlt. cbn.
    pose proof (Z.pow_pos_nonneg 2 e). lia.
  - unfold Qlt. cbn. lia.
Qed.

Lemma round64_not_negative x : not_negative (round64 x).
Proof.
  unfold round64. destruct (Qle_bool x 0) eqn:E; [cbn; lra|].
  apply Qle_bool_false in E.
  match goal with |- context [pow2 (Z.max ?e (-1022) - 52)] =>
    remember (pow2 (Z.max e (-1022) - 52)) as ulp eqn:Eu end.
  assert (U : (0 < ulp)%Q) by (subst ulp; apply pow2_pos).
  destruct (Qle_bool (pow2 1024) _); [exact I|]. unfold not_negative.
  rewrite Qred_correct.
  assert (M : (0 <= x / ulp)%Q).
  { apply Qle_shift_div_l; [exact U|]. lra. }
  pose proof (round_half_even_nonneg _ M) as R.
  apply Qmult_le_0_compat; [|lra].
  unfold Qle. cbn. lia.
Qed.

Lemma parseFloat_not_negative g : not_negative (parseFloat g).
Proof.
  unfold parseFloat. destruct (spanDigits g) as [ip r].
  destruct r as [|ch r'].
  - destruct ip; [exact I | apply round64_not_negative].
  - assert (D : not_negative
        (match ip with
         | "" => FNaN
         | String _ _ => round64 (decimal ip "")
         end)) by (destruct ip; [exact I | apply round64_not_negative]).
    destruct ch as [[] [] [] [] [] [] [] []]; try exact D.
    destruct (spanDigits r') as [fp t].
    destruct ip, fp; try exact I; apply round64_not_negative.
Qed.

End Latency.

(** X11.  A latency reported by the ping probe is never negative: when
    the promise is fulfilled with a number, it is a finite number from 0
    up, positive infinity or NaN; and the number is there exactly when
    [ok] is true. *)
Theorem pingOnce_latency_not_negative evs r :
  pingOnce evs = Fulfilled r ->
  (Probe.ok r = true <-> exists x, Probe.ms r = VNumber x) /\
  forall x, Probe.ms r = VNumber x -> not_negative x.
Proof.
  intros H.
  assert (S : ping_promise (fold_left ping_on evs ping_init) = Fulfilled r)
    by exact H.
  assert (G : forall l st,
            (forall r', ping_promise st = Fulfilled r' ->
               r' = {| Probe.ok := false; Probe.ms := VNull |} \/ exists o, r' = report o) ->
            forall r', ping_promise (fold_left ping_on l st) = Fulfilled r' ->
               r' = {| Probe.ok := false; Probe.ms := VNull |} \/ exists o, r' = report o).
  { induction l as [|ev l IH]; intros st Hst r' Hr'; [now apply Hst|].
    cbn [fold_left] in Hr'. apply (IH (ping_on st ev)); [|exact Hr'].
    intros r0 H0. destruct ev; cbn in H0; try (now apply Hst).
    - destruct (killer_armed st); now apply Hst.
    - destruct (ping_promise st) eqn:P; cbn in H0.
      + injection H0 as <-. right. eauto.
      + apply Hst. exact H0.
      + discriminate.
    - destruct (ping_promise st) eqn:P; cbn in H0.
      + injection H0 as <-. now left.
      + apply Hst. exact H0.
      + discriminate. }
  destruct (G evs ping_init ltac:(intros r'; discriminate) r S) as [->|[o ->]].
  - cbn. split; [split; [discriminate | intros [x Hx]; discriminate]|].
    intros x Hx. discriminate.
  - unfold report. destruct (match_time o) as [g|]; cbn.
    + split; [split; eauto|]. intros x Hx. injection Hx as <-.
      apply parseFloat_not_negative.
    + split; [split; [discriminate | intros [x Hx]; discriminate]|].
      intros x Hx. discriminate.
Qed.

Lemma pingOnce_latency_not_negative_witness :
  (Probe.ok (report "rtt time=0.045 ms") = true <->
   exists x, Probe.ms (report "rtt time=0.045 ms") = VNumber x) /\
  forall x,
    Probe.ms (report "rtt time=0.045 ms") = VNumber x -> not_negative x.
Proof.
  apply (pingOnce_latency_not_negative
           [PingStdout "rtt time=0.045 ms"; PingClose]).
  reflexivity.
Defined.


Section HttpRequest.

Lemma http_fold_destroyed evs : forall st,
  req_destroyed (fold_left http_on evs st) = true <->
  req_destroyed st = true \/ In HttpTimeout evs.
Proof.
  induction evs as [|ev evs IH]; intros st; cbn [fold_left In].
  - split; [now left | intros [H|[]]; exact H].
  - rewrite IH. destruct ev; cbn [http_on].
    + destruct (response_pending st); cbn [req_destroyed];
        (split; [intros [H|H]; [now left | right; now right]
                |intros [H|[H|H]]; [now left | discriminate | now right]]).
    + cbn [req_destroyed]. split; [intros _; right; now left | now left].
    + cbn [req_destroyed].
      split; [intros [H|H]; [now left | right; now right]
             |intros [H|[H|H]]; [now left | discriminate | now right]].
Qed.

End HttpRequest.

(** X28.  An HTTP request is destroyed by its timeout and by nothing
    else: after any events it is destroyed exactly when a timeout was
    among them, so a request that is answered or that fails is left to
    the runtime; and a timeout that comes first makes the check answer
    false. *)
Theorem httpHead_destroyed_by_timeout evs :
  (req_destroyed (fold_left http_on evs http_init) = true <->
   In HttpTimeout evs) /\
  forall rest, evs = HttpTimeout :: rest -> httpHead evs = Fulfilled false.
Proof.
  split.
  - rewrite http_fold_destroyed. cbn [http_init req_destroyed].
    split; [intros [H|H]; [discriminate | exact H] | now right].
  - intros rest ->. apply (httpHead_first HttpTimeout rest).
Qed.

Lemma httpHead_destroyed_by_timeout_witness :
  req_destroyed (fold_left http_on [HttpResponse; HttpTimeout] http_init)
  = true.
Proof.
  apply (proj2 (proj1 (httpHead_destroyed_by_timeout
                         [HttpResponse; HttpTimeout]))).
  right. left. reflexivity.
Defined.
(** ** Further properties of the queue *)

Import MoreQueueProps.

Section QueueOrder.

Variable limit : Z.

Lemma seq_suffix l1 : forall a n l2,
  seq a n = (l1 ++ l2)%list ->
  l2 = seq (a + List.length l1) (List.length l2) /\
  n = (List.length l1 + List.length l2)%nat.
Proof.
  induction l1 as [|x l1 IH]; intros a n l2 H; cbn [app List.length] in *.
  - rewrite Nat.add_0_r. subst l2. rewrite length_seq. auto.
  - destruct n as [|n]; [discriminate|]. cbn [seq] in H.
    injection H as _ H. apply IH in H. destruct H as [H1 H2].
    split; [|lia]. rewrite H1 at 1. f_equal. lia.
Qed.

Lemma pump_fifo st :
  (List.length (q st) <= submitted st)%nat ->
  q st = seq (submitted st - List.length (q st)) (List.length (q st)) ->
  fifo (pump limit st).
Proof.
  intros Hle Hq. unfold pump, fifo.
  destruct (pump_loop limit (active st) (q st) (running st))
    as [[a' q'] r'] eqn:E.
  apply pump_loop_spec in E. destruct E as (moved & Eq & _).
  cbn. rewrite Eq in Hq at 1. symmetry in Hq. apply seq_suffix in Hq.
  destruct Hq as [H1 H2]. unfold job in *. split; [lia|].
  rewrite H1 at 1. f_equal. lia.
Qed.

Lemma step_fifo st ev st' :
  fifo st -> step limit st ev = Some st' -> fifo st'.
Proof.
  intros [Hle Hq] H. destruct ev as [|j o|j]; cbn [step] in H.
  - injection H as <-. apply pump_fifo; cbn; rewrite length_app; cbn.
    + lia.
    + rewrite Hq at 1. rewrite Nat.add_1_r, seq_S. unfold job in *.
      f_equal; f_equal; lia.
  - destruct (mem_job j (running st)); [|discriminate].
    injection H as <-. split; cbn; assumption.
  - destruct (mem_job j (finishing st)); [|discriminate].
    injection H as <-. apply pump_fifo; cbn; assumption.
Qed.

Lemma run_fifo evs : forall st st',
  fifo st -> run limit st evs = Some st' -> fifo st'.
Proof.
  induction evs as [|ev evs IH]; intros st st' F H; cbn [run] in H.
  - injection H as <-. exact F.
  - destruct (step limit st ev) as [st1|] eqn:E; [|discriminate].
    apply (IH st1 st'); [|exact H]. apply (step_fifo st ev st1 F E).
Qed.

Lemma fifo_init : fifo init.
Proof. split; cbn; [lia | reflexivity]. Qed.

(** A settled promise is left as it is. *)
Lemma step_keeps_settled st ev st' j p :
  step limit st ev = Some st' ->
  In (j, p) (futures st) -> p <> Pending -> In (j, p) (futures st').
Proof.
  intros H Hin Hp. destruct ev as [|j' o|j']; cbn [step] in H.
  - injection H as <-.
    match goal with |- context [futures (pump limit ?s)] =>
      destruct (pump_owed limit s) as (_ & _ & -> & _) end.
    cbn. apply in_or_app. now left.
  - destruct (mem_job j' (running st)); [|discriminate].
    injection H as <-. cbn. unfold settle_future. apply in_map_iff.
    exists (j, p). split; [|exact Hin]. cbn [fst snd].
    destruct (Nat.eqb j j'); [|reflexivity].
    destruct p; [congruence | reflexivity | reflexivity].
  - destruct (mem_job j' (finishing st)); [|discriminate].
    injection H as <-.
    match goal with |- context [futures (pump limit ?s)] =>
      destruct (pump_owed limit s) as (_ & _ & -> & _) end.
    exact Hin.
Qed.

Lemma run_keeps_settled evs : forall st st' j p,
  run limit st evs = Some st' ->
  In (j, p) (futures st) -> p <> Pending -> In (j, p) (futures st').
Proof.
  induction evs as [|ev evs IH]; intros st st' j p H Hin Hp; cbn [run] in H.
  - injection H as <-. exact Hin.
  - destruct (step limit st ev) as [st1|] eqn:E; [|discriminate].
    apply (IH st1 st' j p H); [|exact Hp].
    apply (step_keeps_settled st ev st1 j p E Hin Hp).
Qed.

Lemma pump_loop_full : forall q0 a r,
  limit <= a -> pump_loop limit a q0 r = (a, q0, r).
Proof.
  intros [|j q0] a r H; cbn [pump_loop]; [reflexivity|].
  destruct (Z.ltb_spec a limit); [lia | reflexivity].
Qed.

Lemma step_starved st ev st' :
  limit <= 0 -> starved st -> step limit st ev = Some st' ->
  ev = Submit /\ starved st'.
Proof.
  intros HL (Ha & Hr & Hf & Hq & Hp) H.
  destruct ev as [|j o|j]; cbn [step] in H.
  - split; [reflexivity|]. injection H as <-. unfold pump. cbn -[seq].
    rewrite pump_loop_full by lia. unfold starved. cbn -[seq].
    split; [exact Ha|]. split; [exact Hr|]. split; [exact Hf|]. split.
    + rewrite Hq, seq_S. reflexivity.
    + intros j p Hin. apply in_app_or in Hin.
      destruct Hin as [Hin|[E|[]]]; [now apply (Hp j) | congruence].
  - rewrite Hr in H. discriminate.
  - rewrite Hf in H. discriminate.
Qed.

End QueueOrder.

(** X12.  Jobs are admitted in the order of their submission: in every
    state that the queue reaches, the waiting jobs are the most recently
    submitted ones, in submission order, and every job that is executing
    or finishing was submitted before each of them. *)
Theorem queue_is_fifo limit evs st :
  1 <= limit ->
  run limit init evs = Some st ->
  q st = seq (submitted st - List.length (q st)) (List.length (q st)) /\
  forall j, In j (running st ++ finishing st) ->
            (j < submitted st - List.length (q st))%nat.
Proof.
  intros HL Hrun.
  pose proof (run_fifo limit evs init st fifo_init Hrun) as [Hle Hq].
  pose proof (run_Inv limit evs init st (Inv_init limit HL) Hrun) as I.
  destruct I as [_ _ _ _ Hn Hk _].
  split; [exact Hq|]. intros j Hj.
  assert (Hlive : In j (live st)) by (unfold live; apply in_or_app; now right).
  pose proof (Hk j Hlive) as Hlt.
  destruct (Nat.lt_ge_cases j (submitted st - List.length (q st)))
    as [Lt|Ge]; [exact Lt|].
  exfalso. apply (NoDup_app_disjoint _ _ j Hn); [|exact Hj].
  rewrite Hq. apply in_seq. lia.
Qed.

Lemma queue_is_fifo_witness :
  exists st,
    run 1 init [Submit; Submit; Submit; Settle 0%nat (Resolves "a")]
      = Some st /\
    q st = seq (submitted st - List.length (q st)) (List.length (q st)) /\
    forall j, In j (running st ++ finishing st) ->
              (j < submitted st - List.length (q st))%nat.
Proof.
  eexists. split; [reflexivity|].
  apply (queue_is_fifo 1
           [Submit; Submit; Submit; Settle 0%nat (Resolves "a")]);
    [lia | reflexivity].
Defined.

(** X13.  With a limit of zero or less the queue never starts a job:
    only submissions can happen, every job stays in the queue and every
    promise returned to a caller stays pending. *)
Theorem queue_limit_zero_starves limit evs st :
  limit <= 0 ->
  run limit init evs = Some st ->
  forallb is_submit evs = true /\
  running st = [] /\ finishing st = [] /\
  q st = seq 0 (List.length evs) /\
  forall j p, In (j, p) (futures st) -> p = Pending.
Proof.
  intros HL.
  assert (G : forall l s s',
            starved s -> run limit s l = Some s' ->
            forallb is_submit l = true /\ starved s' /\
            submitted s' = (submitted s + List.length l)%nat).
  { induction l as [|ev l IH]; intros s s' S H; cbn [run] in H.
    - injection H as <-. cbn. auto.
    - destruct (step limit s ev) as [s1|] eqn:E; [|discriminate].
      destruct (step_starved limit s ev s1 HL S E) as [-> S1].
      destruct (IH s1 s' S1 H) as (A & B & C).
      cbn [forallb is_submit andb List.length].
      split; [exact A|]. split; [exact B|].
      rewrite C. cbn [step] in E. injection E as <-.
      match goal with |- context [submitted (pump limit ?x)] =>
        destruct (pump_owed limit x) as (_ & _ & _ & ->) end.
      cbn. lia. }
  intros Hrun.
  assert (S0 : starved init).
  { unfold starved. cbn. repeat split; auto. intros j p []. }
  destruct (G evs init st S0 Hrun) as (A & (Ha & Hr & Hf & Hq & Hp) & C).
  cbn in C. rewrite C in Hq. auto.
Qed.

Lemma queue_limit_zero_starves_witness :
  exists st,
    run 0 init [Submit; Submit] = Some st /\
    forallb is_submit [Submit; Submit] = true /\
    running st = [] /\ finishing st = [] /\
    q st = seq 0 (List.length [Submit; Submit]) /\
    forall j p, In (j, p) (futures st) -> p = Pending.
Proof.
  eexists. split; [reflexivity|].
  apply (queue_limit_zero_starves 0 [Submit; Submit]); [lia | reflexivity].
Defined.

(** X14.  A caller's promise settles once: when it is fulfilled or
    rejected in some state of the queue, it holds the same outcome after
    any further events, and no other outcome is ever recorded for that
    job. *)
Theorem queue_settles_once limit evs st evs' st' j p :
  1 <= limit ->
  run limit init evs = Some st ->
  run limit st evs' = Some st' ->
  In (j, p) (futures st) -> p <> Pending ->
  In (j, p) (futures st') /\
  forall p', In (j, p') (futures st') -> p' = p.
Proof.
  intros HL Hrun Hrun' Hin Hp.
  pose proof (run_keeps_settled limit evs' st st' j p Hrun' Hin Hp) as K.
  split; [exact K|]. intros p' Hin'.
  pose proof (run_Inv limit evs init st (Inv_init limit HL) Hrun) as I.
  pose proof (run_Inv limit evs' st st' I Hrun') as I'.
  destruct I' as [_ _ _ Hf _ _ _].
  (* the jobs of the recorded promises are all different *)
  assert (N : NoDup (map fst (futures st'))) by (rewrite Hf; apply seq_NoDup).
  remember (futures st') as fs eqn:Efs. clear Efs Hf.
  induction fs as [|[j0 p0] fs IH]; [destruct K|].
  cbn [map fst] in N. inversion N as [|? ? Hx Hn]; subst.
  destruct K as [E|K], Hin' as [E'|Hin'].
  - congruence.
  - injection E as -> ->. exfalso. apply Hx.
    apply in_map_iff. exists (j, p'). auto.
  - injection E' as -> ->. exfalso. apply Hx.
    apply in_map_iff. exists (j, p). auto.
  - now apply IH.
Qed.

Lemma queue_settles_once_witness :
  exists st st',
    run 2 init [Submit; Submit; Settle 0%nat (Rejects "boom")] = Some st /\
    run 2 st [Finally 0%nat; Settle 1%nat (Resolves "ok"); Submit] = Some st' /\
    In (0%nat, Rejected "boom") (futures st') /\
    forall p', In (0%nat, p') (futures st') -> p' = Rejected "boom".
Proof.
  eexists. eexists. split; [reflexivity|]. split; [reflexivity|].
  eapply (queue_settles_once 2 [Submit; Submit; Settle 0%nat (Rejects "boom")]
            _ [Finally 0%nat; Settle 1%nat (Resolves "ok"); Submit]);
    [lia | reflexivity | reflexivity | cbn; auto | discriminate].
Defined.

(* ===================================================================== *)
(** * The double nearest to a quotient of integers *)
(* ===================================================================== *)

Section Rounding.

Local Open Scope Q_scope.

Lemma pow2_nonneg_eq e : (0 <= e)%Z -> pow2 e = inject_Z (2 ^ e).
Proof.
  intros H. unfold pow2. destruct (Z.leb_spec 0 e); [reflexivity | lia].
Qed.

Lemma pow2_neg_inv j : (0 <= j)%Z -> pow2 (- j) * inject_Z (2 ^ j) == 1.
Proof.
  intros H. destruct (Z.eq_dec j 0) as [->|N]; [reflexivity|].
  unfold pow2. destruct (Z.leb_spec 0 (- j)); [lia|].
  rewrite Z.opp_involutive.
  assert (P : (0 < 2 ^ j)%Z) by (apply Z.pow_pos_nonneg; lia).
  remember (2 ^ j)%Z as b eqn:Eb. clear Eb.
  unfold Qeq, Qmult, inject_Z. cbn [Qnum Qden].
  rewrite Pos.mul_1_r, Z2Pos.id by exact P. lia.
Qed.

Lemma pow2_succ e : pow2 (e + 1) == 2 * pow2 e.
Proof.
  destruct (Z_lt_le_dec e 0) as [N|P].
  - pose proof (pow2_neg_inv (- e) ltac:(lia)) as A.
    rewrite Z.opp_involutive in A.
    destruct (Z.eq_dec e (-1)) as [->|Ne]; [reflexivity|].
    pose proof (pow2_neg_inv (- (e + 1)) ltac:(lia)) as B.
    rewrite Z.opp_involutive in B.
    replace (- e)%Z with (- (e + 1) + 1)%Z in A by lia.
    rewrite Z.pow_add_r, Z.pow_1_r, inject_Z_mult in A by lia.
    remember (inject_Z (2 ^ (- (e + 1)))) as c eqn:Ec.
    assert (C : 0 < c).
    { subst c. change 0 with (inject_Z 0). rewrite <- Zlt_Qlt.
      apply Z.pow_pos_nonneg; lia. }
    clear Ec. remember (pow2 (e + 1)) as u. remember (pow2 e) as v.
    apply (Qmult_inj_r _ _ c); [lra|]. rewrite B.
    change (inject_Z 2) with 2 in A. lra.
  - rewrite !pow2_nonneg_eq by lia.
    rewrite Z.pow_add_r, Z.pow_1_r, inject_Z_mult by lia.
    change (inject_Z 2) with 2. ring.
Qed.

Lemma pow2_add e n :
  (0 <= n)%Z -> pow2 (e + n) == inject_Z (2 ^ n) * pow2 e.
Proof.
  intros H. revert e. pattern n. apply natlike_ind; [| |exact H].
  - intros e. rewrite Z.add_0_r. change (inject_Z (2 ^ 0)) with 1. ring.
  - intros k Hk IH e. replace (e + Z.succ k)%Z with ((e + k) + 1)%Z by lia.
    rewrite pow2_succ, IH, Z.pow_succ_r, inject_Z_mult by exact Hk.
    change (inject_Z 2) with 2. ring.
Qed.

Lemma pow2_le a b : (a <= b)%Z -> pow2 a <= pow2 b.
Proof.
  intros H. replace b with (a + (b - a))%Z by lia.
  rewrite pow2_add by lia.
  assert (P : (1 <= 2 ^ (b - a))%Z)
    by (pose proof (Z.pow_pos_nonneg 2 (b - a)); lia).
  rewrite Zle_Qle in P. change (inject_Z 1) with 1 in P.
  pose proof (pow2_pos a) as A.
  remember (inject_Z (2 ^ (b - a))) as c. remember (pow2 a) as u.
  nra.
Qed.

(** The exponent that [round64] computes is not above the number. *)
Lemma exponent_below (x : Q) :
  0 < x ->
  let e0 := (Z.log2 (Qnum x) - Z.log2 (Zpos (Qden x)))%Z in
  let e := if Qle_bool (pow2 e0) x then e0 else (e0 - 1)%Z in
  pow2 e <= x.
Proof.
  intros Hx. cbv zeta.
  destruct (Qle_bool (pow2 _) x) eqn:E; [now apply Qle_bool_iff|].
  destruct x as [a b]. cbn [Qnum Qden].
  assert (Ha : (0 < a)%Z) by (unfold Qlt in Hx; cbn in Hx; lia).
  pose proof (Z.log2_spec a Ha) as [La _].
  pose proof (Z.log2_spec (Zpos b) ltac:(lia)) as [_ Lb].
  pose proof (Z.log2_nonneg a) as Na.
  pose proof (Z.log2_nonneg (Zpos b)) as Nb.
  remember (Z.log2 a) as la. remember (Z.log2 (Zpos b)) as lb.
  pose proof (pow2_add (la - lb - 1) (lb + 1) ltac:(lia)) as A.
  replace (la - lb - 1 + (lb + 1))%Z with la in A by lia.
  rewrite (pow2_nonneg_eq la Na) in A.
  rewrite <- Z.add_1_r in Lb.
  remember (2 ^ la)%Z as pa. remember (2 ^ (lb + 1))%Z as pb.
  assert (Pb : (0 < pb)%Z) by lia.
  pose proof (pow2_pos (la - lb - 1)) as U.
  remember (pow2 (la - lb - 1)) as u. clear Hequ.
  rewrite Zle_Qle in La. rewrite Zlt_Qlt in Lb. rewrite Zlt_Qlt in Pb.
  change (inject_Z 0) with 0 in Pb.
  assert (B : 0 < inject_Z (Zpos b))
    by (change 0 with (inject_Z 0); rewrite <- Zlt_Qlt; lia).
  assert (X : a # b == inject_Z a / inject_Z (Zpos b))
    by (rewrite Qmake_Qdiv; reflexivity).
  rewrite X. apply Qle_shift_div_l; [exact B|].
  remember (inject_Z a) as qa. remember (inject_Z (Zpos b)) as qb.
  remember (inject_Z pa) as qpa. remember (inject_Z pb) as qpb.
  nra.
Qed.

Lemma Qfloor_quotient (y : Q) (N : Z) (p : BinNums.positive) :
  y == N # p -> Qfloor y = (N / Zpos p)%Z.
Proof. intros ->. reflexivity. Qed.

(** Rounding a quotient [N / p] to an integer, by its remainder. *)
Lemma round_half_even_quotient (y : Q) (N : Z) (p : BinNums.positive) :
  y == N # p ->
  let f := (N / Zpos p)%Z in
  let r := (N mod Zpos p)%Z in
  (f <= round_half_even y <= f + 1)%Z /\
  ((2 * r < Zpos p)%Z -> round_half_even y = f).
Proof.
  intros E. cbv zeta. unfold round_half_even.
  rewrite (Qfloor_quotient y N p E).
  split.
  - destruct (Qcompare _ _); [destruct (Z.even _)| |]; lia.
  - intros R.
    assert (L : y - inject_Z (N / Zpos p) < 1 # 2).
    { rewrite E. pose proof (Z.div_mod N (Zpos p) ltac:(lia)) as DM.
      remember (N / Zpos p)%Z as f. remember (N mod Zpos p)%Z as r.
      unfold Qlt, Qminus, Qplus, Qopp, inject_Z. cbn [Qnum Qden].
      rewrite Pos.mul_1_r. nia. }
    assert (C : Qcompare (y - inject_Z (N / Zpos p)) (1 # 2) = Lt)
      by (apply Qlt_alt; exact L).
    rewrite C. reflexivity.
Qed.

Lemma pow2_neg_make j :
  (0 <= j)%Z -> pow2 (- j) == 1 # Z.to_pos (2 ^ j).
Proof.
  intros H. destruct (Z.eq_dec j 0) as [->|N]; [reflexivity|].
  unfold pow2. destruct (Z.leb_spec 0 (- j)); [lia|].
  rewrite Z.opp_involutive. reflexivity.
Qed.

(** Integer facts on the rounded significand: with [N = n * J] divided
    by [p], where [p < 2 * J], rounding to the nearest integer stays
    within the multiples of [J] that enclose [n / p]. *)
Lemma significand_bounds (n p J m : Z) :
  (0 < p)%Z -> (0 < J)%Z -> (0 <= n)%Z -> (p < 2 * J)%Z ->
  let f := (n * J / p)%Z in
  let r := ((n * J) mod p)%Z in
  (f <= m <= f + 1)%Z -> ((2 * r < p)%Z -> m = f) ->
  (n / p * J <= m < (n / p + 1) * J)%Z /\
  ((n mod p = 0)%Z -> m = (n / p * J)%Z).
Proof.
  intros Hp HJ Hn HpJ f r Hm Hr.
  pose proof (Z.div_mod n p ltac:(lia)) as D1.
  pose proof (Z.mod_pos_bound n p Hp) as B1.
  pose proof (Z.div_mod (n * J) p ltac:(lia)) as D2.
  pose proof (Z.mod_pos_bound (n * J) p Hp) as B2.
  fold f in D2. fold r in D2, B2.
  remember (n / p)%Z as k eqn:Ek. remember (n mod p)%Z as s eqn:Es.
  clearbody f r. clear Ek Es.
  assert (E : (p * f + r = k * J * p + s * J)%Z) by (rewrite <- D2, D1; ring).
  assert (F1 : (k * J <= f)%Z) by nia.
  assert (F2 : (f <= (k + 1) * J - 1)%Z) by nia.
  split; [split; [lia|]|].
  - destruct (Z.eq_dec f ((k + 1) * J - 1)) as [Ef|Nf]; [|lia].
    assert (R : (2 * r < p)%Z) by nia.
    rewrite (Hr R). lia.
  - intros S0. subst s.
    assert (R0 : r = 0%Z) by nia.
    assert (Ef : f = (k * J)%Z) by nia.
    rewrite Hr by lia. exact Ef.
Qed.

(** The double nearest to a quotient [n / p] of positive integers below
    2^53 has the floor of the quotient, and is the quotient when the
    division is exact. *)
Lemma round64_quotient (x : Q) (n : Z) (p : BinNums.positive) :
  (0 < n < 2 ^ 53)%Z -> (Zpos p < 2 ^ 53)%Z -> x == n # p ->
  exists q,
    round64 x = Fin q /\
    Qfloor q = (n / Zpos p)%Z /\
    ((n mod Zpos p = 0)%Z -> q == inject_Z (n / Zpos p)).
Proof.
  intros Hn Hp Ex.
  assert (Hx : 0 < x) by (rewrite Ex; unfold Qlt; cbn; lia).
  assert (X53 : x < pow2 53).
  { rewrite Ex, (pow2_nonneg_eq 53) by lia.
    remember (2 ^ 53)%Z as c. unfold Qlt, inject_Z. cbn [Qnum Qden]. nia. }
  unfold round64.
  assert (N0 : Qle_bool x 0 = false) by (apply Qle_bool_false; exact Hx).
  rewrite N0. cbv zeta.
  pose proof (exponent_below x Hx) as E1. cbv zeta in E1.
  remember (if Qle_bool
               (pow2 (Z.log2 (Qnum x) - Z.log2 (Zpos (Qden x)))) x
            then (Z.log2 (Qnum x) - Z.log2 (Zpos (Qden x)))%Z
            else (Z.log2 (Qnum x) - Z.log2 (Zpos (Qden x)) - 1)%Z)
    as e eqn:Ee.
  clear Ee.
  assert (E52 : (e <= 52)%Z).
  { destruct (Z_le_gt_dec e 52) as [L|G]; [exact L|]. exfalso.
    pose proof (pow2_le 53 e ltac:(lia)) as M. lra. }
  remember (52 - Z.max e (-1022))%Z as j eqn:Ej.
  assert (Hj : (0 <= j)%Z) by lia.
  replace (Z.max e (-1022) - 52)%Z with (- j)%Z by lia.
  remember (2 ^ j)%Z as J eqn:EJ.
  assert (HJ : (0 < J)%Z) by (subst J; apply Z.pow_pos_nonneg; lia).
  pose proof (pow2_neg_make j Hj) as U. rewrite <- EJ in U.
  assert (HpJ : (Zpos p < 2 * J)%Z).
  { destruct (Z_le_gt_dec (-1022) e) as [L|G].
    - assert (Ej' : e = (- j + 52)%Z) by lia.
      rewrite Ej', pow2_add, U, Ex in E1 by lia.
      clear - E1 Hn HJ.
      remember (2 ^ 52)%Z as c eqn:Ec.
      assert (C2 : (2 ^ 53 = 2 * c)%Z) by (subst c; reflexivity).
      rewrite C2 in Hn. clear Ec C2.
      unfold Qle, Qmult, inject_Z in E1. cbn [Qnum Qden] in E1.
      rewrite Pos.mul_1_l, Z2Pos.id in E1 by exact HJ. nia.
    - assert (M : (2 ^ 53 <= 2 ^ j)%Z)
        by (apply Z.pow_le_mono_r; lia).
      rewrite <- EJ in M. lia. }
  remember (pow2 (- j)) as ulp eqn:Eu. clear Eu.
  assert (Y : x / ulp == (n * J) # p).
  { rewrite Ex, U. unfold Qeq, Qdiv, Qmult, Qinv. cbn [Qnum Qden].
    rewrite Z2Pos.id by exact HJ. rewrite Pos.mul_1_r. ring. }
  destruct (round_half_even_quotient _ _ _ Y) as [M1 M2].
  remember (round_half_even (x / ulp)) as m eqn:Em. clear Em.
  destruct (significand_bounds n (Zpos p) J m ltac:(lia) HJ ltac:(lia)
              HpJ M1 M2) as [[K1 K2] K3].
  remember (n / Zpos p)%Z as k eqn:Ek.
  assert (Hk : (0 <= k < 2 ^ 53)%Z).
  { subst k. split; [apply Z.div_pos; lia|].
    apply Z.div_lt_upper_bound; [lia|]. remember (2 ^ 53)%Z as c. nia. }
  assert (R : inject_Z m * ulp == m # Z.to_pos J).
  { rewrite U. unfold Qeq, Qmult, inject_Z. cbn [Qnum Qden].
    rewrite Pos.mul_1_l. ring. }
  assert (Big : Qle_bool (pow2 1024) (inject_Z m * ulp) = false).
  { apply Qle_bool_false. rewrite R.
    pose proof (pow2_le 53 1024 ltac:(lia)) as B.
    rewrite (pow2_nonneg_eq 53) in B by lia.
    remember (pow2 1024) as big. clear Heqbig.
    apply Qlt_le_trans with (inject_Z (2 ^ 53)); [|exact B].
    remember (2 ^ 53)%Z as c. unfold Qlt, inject_Z. cbn [Qnum Qden].
    rewrite Z2Pos.id by exact HJ. nia. }
  rewrite Big. eexists. split; [reflexivity|]. split.
  - rewrite Qred_correct, R. unfold Qfloor.
    rewrite Z2Pos.id by exact HJ.
    symmetry. apply (Z.div_unique m J k (m - k * J)); lia.
  - intros S0. rewrite Qred_correct, R, (K3 S0).
    unfold Qeq, inject_Z. cbn [Qnum Qden].
    rewrite Z2Pos.id by exact HJ. ring.
Qed.

End Rounding.
(* ===================================================================== *)
(** * Range lists read from text, the Fastly list, the progress bar *)
(* ===================================================================== *)

Import Caller Fetch CallerProps.

Section Trim.

Lemma append_nil_r s : s ++ "" = s.
Proof. induction s as [|c s IH]; cbn; [reflexivity | now rewrite IH]. Qed.

Lemma append_assoc a b c : (a ++ b) ++ c = a ++ (b ++ c).
Proof. induction a as [|x a IH]; cbn; [reflexivity | now rewrite IH]. Qed.

Lemma rev_string_acc s : forall acc,
  rev_string s acc = rev_string s "" ++ acc.
Proof.
  induction s as [|c r IH]; intros acc; cbn [rev_string]; [reflexivity|].
  rewrite (IH (String c acc)), (IH (String c "")), append_assoc.
  reflexivity.
Qed.

Lemma rev_string_app a : forall b acc,
  rev_string (a ++ b) acc = rev_string b (rev_string a acc).
Proof.
  induction a as [|x a IH]; intros b acc; cbn; [reflexivity | apply IH].
Qed.

Lemma rev_string_twice s : forall acc acc',
  rev_string (rev_string s acc) acc' = rev_string acc (s ++ acc').
Proof.
  induction s as [|c r IH]; intros acc acc'; cbn [rev_string];
    [reflexivity|].
  rewrite IH. reflexivity.
Qed.

Lemma rev_string_involutive s : rev_string (rev_string s "") "" = s.
Proof. rewrite rev_string_twice. cbn. apply append_nil_r. Qed.

Lemma has_rev_string c s : forall acc,
  has c (rev_string s acc) = has c s || has c acc.
Proof.
  induction s as [|x s IH]; intros acc; cbn [rev_string has];
    [reflexivity|].
  rewrite IH. cbn [has].
  destruct (Ascii.eqb x c), (has c s), (has c acc); reflexivity.
Qed.

Lemma trimStart_split s : exists w, s = w ++ trimStart s.
Proof.
  induction s as [|c s [w IH]]; [now exists ""|]. cbn [trimStart].
  destruct (isWhite c).
  - exists (String c w). cbn. now rewrite <- IH.
  - now exists "".
Qed.

Lemma trimStart_headOk s : headOk (trimStart s).
Proof.
  induction s as [|c s IH]; cbn [trimStart]; [exact I|].
  destruct (isWhite c) eqn:E; [exact IH | exact E].
Qed.

Lemma headOk_trimStart s : headOk s -> trimStart s = s.
Proof. destruct s as [|c s]; cbn; [reflexivity | now intros ->]. Qed.

Lemma headOk_prefix r x : headOk (r ++ x) -> r <> "" -> headOk r.
Proof. destruct r as [|c r]; cbn; [congruence | auto]. Qed.

Lemma has_trimStart c s : has c s = false -> has c (trimStart s) = false.
Proof.
  destruct (trimStart_split s) as [w E]. intros H. rewrite E, has_app in H.
  now apply orb_false_iff in H.
Qed.

Lemma has_trim c s : has c s = false -> has c (trim s) = false.
Proof.
  intros H. unfold trim. rewrite has_rev_string. cbn [has].
  rewrite orb_false_r. apply has_trimStart. rewrite has_rev_string.
  cbn [has]. rewrite orb_false_r. now apply has_trimStart.
Qed.

(** Trimming a trimmed text changes nothing. *)
Lemma trim_trim s : trim (trim s) = trim s.
Proof.
  unfold trim at 2 3.
  remember (trimStart s) as t eqn:Et.
  remember (trimStart (rev_string t "")) as u eqn:Eu.
  assert (Ht : headOk t) by (subst t; apply trimStart_headOk).
  assert (Hu : headOk u) by (subst u; apply trimStart_headOk).
  destruct (trimStart_split (rev_string t "")) as [w Ew]. rewrite <- Eu in Ew.
  assert (T : t = rev_string u "" ++ rev_string w "").
  { rewrite <- (rev_string_involutive t), Ew, rev_string_app.
    apply rev_string_acc. }
  unfold trim.
  assert (R : trimStart (rev_string u "") = rev_string u "").
  { destruct (rev_string u "") as [|c r] eqn:E; [reflexivity|].
    apply headOk_trimStart. rewrite T in Ht. exact Ht. }
  rewrite R, rev_string_involutive, (headOk_trimStart u Hu). reflexivity.
Qed.

Lemma split_pieces sep s p : In p (split sep s) -> has sep p = false.
Proof.
  revert p. induction s as [|c s IH]; intros p; cbn [split].
  - intros [<-|[]]. reflexivity.
  - destruct (Ascii.eqb c sep) eqn:E.
    + intros [<-|H]; [reflexivity | now apply IH].
    + destruct (split sep s) as [|h t].
      * intros [<-|[]]. cbn [has]. now rewrite E.
      * intros [<-|H].
        -- cbn [has]. rewrite E. apply IH. now left.
        -- apply IH. now right.
Qed.

Lemma split_join sep ls :
  ls <> [] -> (forall x, In x ls -> has sep x = false) ->
  split sep (join (String sep "") ls) = ls.
Proof.
  induction ls as [|x ls IH]; [congruence|]. intros _ H.
  destruct ls as [|y ls].
  - cbn [join]. apply split_without, H. now left.
  - change (join (String sep "") (x :: y :: ls))
      with (x ++ String sep (join (String sep "") (y :: ls))).
    rewrite split_at by (apply H; now left).
    rewrite IH; [reflexivity | discriminate |].
    intros z Hz. apply H. now right.
Qed.

Lemma filter_all {A} (f : A -> bool) l :
  (forall x, In x l -> f x = true) -> filter f l = l.
Proof.
  induction l as [|x l IH]; intros H; [reflexivity|]. cbn [filter].
  rewrite (H x) by now left. rewrite IH; [reflexivity|].
  intros y Hy. apply H. now right.
Qed.

Lemma map_fixed {A} (f : A -> A) l :
  (forall x, In x l -> f x = x) -> map f l = l.
Proof.
  induction l as [|x l IH]; intros H; [reflexivity|]. cbn [map].
  rewrite (H x) by now left. rewrite IH; [reflexivity|].
  intros y Hy. apply H. now right.
Qed.

Lemma cidrLines_all_clean text l : In l (cidrLines text) -> clean l.
Proof.
  unfold cidrLines. intros H. apply filter_In in H. destruct H as [H T].
  apply in_map_iff in H. destruct H as [p [<- Hp]].
  split; [|split].
  - intros E. rewrite E in T. discriminate.
  - apply trim_trim.
  - apply has_trim. now apply (split_pieces _ text).
Qed.

Lemma trim_heads l :
  trim l = l -> headOk l /\ headOk (rev_string l "").
Proof.
  intros T. split.
  - rewrite <- T. unfold trim.
    remember (trimStart (rev_string (trimStart l) "")) as u eqn:Eu.
    destruct (trimStart_split (rev_string (trimStart l) "")) as [w Ew].
    rewrite <- Eu in Ew.
    assert (E : trimStart l = rev_string u "" ++ rev_string w "").
    { rewrite <- (rev_string_involutive (trimStart l)), Ew, rev_string_app.
      apply rev_string_acc. }
    destruct (rev_string u "") as [|c r] eqn:R; [exact I|].
    pose proof (trimStart_headOk l) as Hh. rewrite E in Hh. exact Hh.
  - rewrite <- T. unfold trim. rewrite rev_string_involutive.
    apply trimStart_headOk.
Qed.

(** A carriage return after a clean line is trimmed away. *)
Lemma trim_cr x : clean x -> trim (x ++ String "013" "") = x.
Proof.
  intros (N & T & _). destruct (trim_heads x T) as [H1 H2].
  unfold trim.
  assert (S1 : trimStart (x ++ String "013" "") = x ++ String "013" "").
  { apply headOk_trimStart. destruct x as [|c x]; [congruence | exact H1]. }
  rewrite S1, rev_string_app. cbn [rev_string].
  change (trimStart (String "013" (rev_string x "")))
    with (trimStart (rev_string x "")).
  rewrite (headOk_trimStart _ H2). apply rev_string_involutive.
Qed.

Lemma lines_crlf ls :
  ls <> [] -> (forall l, In l ls -> clean l) ->
  map trim (split "010" (join (String "013" (String "010" "")) ls)) = ls.
Proof.
  induction ls as [|x ls IH]; [congruence|]. intros _ H.
  assert (Hx : clean x) by (apply H; now left).
  destruct ls as [|y ls].
  - cbn [join]. destruct Hx as (_ & T & L).
    rewrite (split_without _ _ L). cbn [map]. now rewrite T.
  - change (join (String "013" (String "010" "")) (x :: y :: ls))
      with (x ++ String "013"
                   (String "010"
                      (join (String "013" (String "010" "")) (y :: ls)))).
    replace (x ++ String "013"
                    (String "010"
                       (join (String "013" (String "010" "")) (y :: ls))))
      with ((x ++ String "013" "")
            ++ String "010"
                 (join (String "013" (String "010" "")) (y :: ls)))
      by (rewrite append_assoc; reflexivity).
    rewrite split_at.
    + cbn [map]. rewrite (trim_cr x Hx). rewrite IH; [reflexivity | discriminate|].
      intros z Hz. apply H. now right.
    + rewrite has_app. destruct Hx as (_ & _ & L). rewrite L. reflexivity.
Qed.

End Trim.

(** X15.  Every line that the range-list reader returns is a piece of
    the text between two line feeds, trimmed: it is not empty, trimming
    it again changes nothing, it holds no line feed, and it neither
    begins nor ends with white space, so that no blank line reaches the
    scan and the carriage return of a Windows line end is removed with
    the other white space at the ends of the piece.  (A carriage return
    inside a piece is kept.) *)
Theorem cidrLines_clean text l :
  In l (cidrLines text) ->
  (exists piece, In piece (split "010" text) /\ l = trim piece) /\
  l <> "" /\ trim l = l /\ has "010" l = false /\
  headOk l /\ headOk (rev_string l "").
Proof.
  intros H. destruct (cidrLines_all_clean text l H) as [N [T L]].
  split.
  - unfold cidrLines in H. apply filter_In in H. destruct H as [H _].
    apply in_map_iff in H. destruct H as [piece [E Hp]].
    exists piece. split; [exact Hp | now symmetry].
  - split; [exact N|]. split; [exact T|]. split; [exact L|].
    apply (trim_heads l T).
Qed.

Lemma cidrLines_clean_witness :
  let l := "151.101.0.0/16" in
  (exists piece,
     In piece (split "010"
                 (" 151.101.0.0/16 " ++ String "013" (String "010" ""))) /\
     l = trim piece) /\
  l <> "" /\ trim l = l /\ has "010" l = false /\
  headOk l /\ headOk (rev_string l "").
Proof.
  apply (cidrLines_clean
           (" 151.101.0.0/16 " ++ String "013" (String "010" "")) _).
  vm_compute. left. reflexivity.
Defined.



(** X17.  A list of clean lines written with Windows line ends
    (carriage return, line feed) reads back as the same list: the carriage
    returns do not reach the ranges. *)
Theorem cidrLines_crlf ls :
  (forall l, In l ls -> clean l) ->
  cidrLines (join (String "013" (String "010" "")) ls) = ls.
Proof.
  intros H. destruct ls as [|x ls]; [reflexivity|].
  unfold cidrLines. rewrite lines_crlf; [|discriminate | exact H].
  apply filter_all. intros l Hl. destruct (H l Hl) as [N _].
  destruct l; [congruence | reflexivity].
Qed.

Lemma cidrLines_crlf_witness :
  cidrLines (join (String "013" (String "010" ""))
               ["151.101.0.0/16"; "23.235.32.0/20"])
  = ["151.101.0.0/16"; "23.235.32.0/20"].
Proof.
  apply cidrLines_crlf. intros l [<-|[<-|[]]]; vm_compute;
    (split; [discriminate | split; reflexivity]).
Defined.

Section Percentage.

Lemma nearest_quotient (x : Q) (n : Z) (p : BinNums.positive) :
  0 <= n < 2 ^ 53 -> Zpos p < 2 ^ 53 -> (x == n # p)%Q ->
  exists q,
    nearest x = Fin q /\
    Qfloor q = n / Zpos p /\
    (n mod Zpos p = 0 -> (q == inject_Z (n / Zpos p))%Q).
Proof.
  intros Hn Hp Ex. unfold nearest.
  assert (P : Qle_bool 0 x = true).
  { apply Qle_bool_iff. rewrite Ex. unfold Qle. cbn. lia. }
  rewrite P. destruct (Z.eq_dec n 0) as [->|N].
  - exists 0%Q. unfold round64.
    assert (Z0 : Qle_bool x 0 = true).
    { apply Qle_bool_iff. rewrite Ex. unfold Qle. cbn. lia. }
    rewrite Z0. split; [reflexivity|]. split; [reflexivity|].
    intros _. reflexivity.
  - apply (round64_quotient x n p); [lia | exact Hp | exact Ex].
Qed.

(** Within 2^53 the percentage is the quotient of the integers. *)
Lemma progressPct_exact done total :
  0 < total -> 0 <= done -> done * 100 < 2 ^ 53 -> total < 2 ^ 53 ->
  progressPct done total = Ret (done * 100 / total).
Proof.
  intros Ht Hd Hb Hc. unfold progressPct.
  remember (2 ^ 53) as c eqn:Ec.
  assert (B1 : (c <? Z.abs done) = false) by (apply Z.ltb_ge; lia).
  assert (B2 : (c <? Z.abs total) = false) by (apply Z.ltb_ge; lia).
  rewrite B2.
  destruct (Z.leb_spec total 0) as [L|_]; [lia|]. rewrite B1.
  destruct total as [|p|p]; try lia.
  destruct (nearest_quotient (inject_Z done * inject_Z 100) (done * 100) 1)
    as (q1 & -> & _ & Q1).
  { subst c. lia. }
  { subst c. reflexivity. }
  { rewrite <- inject_Z_mult. reflexivity. }
  specialize (Q1 (Z.mod_1_r _)). rewrite Z.div_1_r in Q1.
  destruct (nearest_quotient (q1 / inject_Z (Zpos p)) (done * 100) p)
    as (q2 & -> & F & _).
  { subst c. lia. }
  { subst c. exact Hc. }
  { rewrite Q1. symmetry. apply Qmake_Qdiv. }
  rewrite F. reflexivity.
Qed.

End Percentage.

(** X18.  The percentage of the progress bar, for counters such that
    [total * 100] is below 2^53 (the product and the quotient are
    computed on doubles): with a positive total and [0 <= done <= total]
    it is the integer quotient of [done * 100] by [total], it lies
    between 0 and 100, it is 100 exactly when [done = total], it is 0
    exactly when less than a hundredth is done, and it never goes down
    when [done] goes up. *)
Theorem progressPct_bounds done total :
  0 < total -> 0 <= done <= total -> total * 100 < 2 ^ 53 ->
  exists pct,
    progressPct done total = Ret pct /\
    pct = done * 100 / total /\
    0 <= pct <= 100 /\
    (pct = 100 <-> done = total) /\
    (pct = 0 <-> done * 100 < total) /\
    (forall done' pct',
       done <= done' <= total -> progressPct done' total = Ret pct' ->
       pct <= pct').
Proof.
  intros Ht Hd Hb. remember (2 ^ 53) as c eqn:Ec.
  exists (done * 100 / total).
  split; [apply progressPct_exact; subst c; lia|].
  split; [reflexivity|].
  assert (M : forall done' pct',
                done <= done' <= total ->
                progressPct done' total = Ret pct' ->
                done * 100 / total <= pct').
  { intros done' pct' Hle E.
    rewrite progressPct_exact in E by (subst c; lia).
    injection E as <-. apply Z.div_le_mono; lia. }
  pose proof (Z.div_mod (done * 100) total ltac:(lia)) as DM.
  pose proof (Z.mod_pos_bound (done * 100) total Ht) as MB.
  remember (done * 100 / total) as qt eqn:Eq.
  remember ((done * 100) mod total) as r eqn:Er.
  clear Eq Er.
  split; [split; nia|]. split; [split; intros; nia|].
  split; [split; intros; nia|]. exact M.
Qed.

Lemma progressPct_bounds_witness :
  exists pct,
    progressPct 7 9 = Ret pct /\
    pct = 7 * 100 / 9 /\
    0 <= pct <= 100 /\
    (pct = 100 <-> 7 = 9) /\
    (pct = 0 <-> 7 * 100 < 9) /\
    (forall done' pct',
       7 <= done' <= 9 -> progressPct done' 9 = Ret pct' -> pct <= pct').
Proof. apply (progressPct_bounds 7 9); lia. Defined.

(** X19.  However the range list is acquired, the scan never goes on with
    an empty one: it is the configured list, or the non-empty address list
    of a successful Fastly response, or, after a failed fetch, the clean
    lines of the fallback file, of which there is at least one. *)
Theorem gatherCidrs_never_empty w config fetched l log0 :
  Scan.fastly w = fetchFastlyCidrs fetched ->
  Scan.gatherCidrs w config = Ret (l, log0) ->
  l <> [] /\
  (l = Scan.cidrs config \/
   (Scan.cidrs config = [] /\
    exists res, fetched = Ret res /\ res_ok res = true /\
                json res = Ret (JDoc (Some l))) \/
   (Scan.cidrs config = [] /\
    (exists msg, fetchFastlyCidrs fetched = Throw msg) /\
    exists path text,
      Scan.readFile w path = Ret text /\ l = cidrLines text /\
      forall x, In x l -> clean x)).
Proof.
  intros F. unfold Scan.gatherCidrs.
  destruct (Scan.cidrs config) as [|c cs] eqn:C.
  - rewrite F. destruct (fetchFastlyCidrs fetched) as [l0|msg| |] eqn:EF;
      try discriminate.
    + intros H. injection H as <- <-.
      unfold fetchFastlyCidrs in EF.
      destruct fetched as [res|m| |]; cbn [bind] in EF; try discriminate.
      destruct (res_ok res) eqn:O; cbn [negb] in EF; [|discriminate].
      destruct (json res) as [[|[a|]]| | |] eqn:J; cbn [bind] in EF;
        try discriminate.
      destruct a as [|x a]; [discriminate|]. injection EF as <-.
      split; [discriminate|]. right. left. split; [reflexivity|].
      exists res. split; [reflexivity|]. split; [exact O | exact J].
    + match goal with |- context [Scan.readFile w ?p] =>
        remember p as path eqn:Ep; destruct (Scan.readFile w path)
          as [text|msg2| |] eqn:R end; try discriminate.
      change (filter Scan.truthy (map JS.trim (JS.split "010" text)))
        with (cidrLines text).
      destruct (cidrLines text) as [|x r] eqn:L; [discriminate|].
      intros H. injection H as <- _.
      split; [discriminate|]. right. right. split; [reflexivity|].
      split; [now exists msg|]. exists path, text.
      split; [exact R|]. split; [now rewrite L|].
      intros y Hy. apply (cidrLines_all_clean text). now rewrite L.
  - intros H. injection H as <- _. split; [discriminate | now left].
Qed.

Lemma gatherCidrs_never_empty_witness :
  exists l log0,
    Scan.gatherCidrs MoreScanProps.world_fetch MoreScanProps.config_auto
    = Ret (l, log0) /\ l <> [].
Proof.
  eexists. eexists. split; [vm_compute; reflexivity|].
  refine (proj1 (gatherCidrs_never_empty MoreScanProps.world_fetch
                   MoreScanProps.config_auto MoreScanProps.fetched_one
                   _ _ _ _)); [reflexivity | vm_compute; reflexivity].
Defined.
(* ===================================================================== *)
(** * The scan as a whole *)
(* ===================================================================== *)

Import MoreScanProps.

Section Gathering.

Lemma parseCIDR_throw_msg cidr msg :
  parseCIDR cidr = Throw msg -> msg = "Bad CIDR: " ++ cidr.
Proof.
  rewrite parseCIDR_unfold. destruct (bitsOf cidr) as [bits|].
  2:{ intros H. now injection H as <-. }
  destruct (falsy (baseOf cidr) || (bits <? 0) || (bits >? 32)).
  - intros H. now injection H as <-.
  - destruct (ipToInt_cases (ToString_opt (baseOf cidr))) as [[z E]|E];
      rewrite E; cbn [bind]; discriminate.
Qed.

Lemma flatMapM_throws {A B} (f : A -> outcome (list B)) pre c post msg :
  (forall x, In x pre -> exists bs, f x = Ret bs) ->
  f c = Throw msg -> flatMapM f (pre ++ c :: post) = Throw msg.
Proof.
  intros Hpre Hc. induction pre as [|x pre IH]; cbn [app flatMapM].
  - rewrite Hc. reflexivity.
  - destruct (Hpre x (or_introl eq_refl)) as [bs ->]. cbn [bind].
    rewrite IH; [reflexivity|]. intros y Hy. apply Hpre. now right.
Qed.

Lemma gather_explicit w cfg :
  cidrs cfg <> [] -> gatherCidrs w cfg = Ret (cidrs cfg, []).
Proof.
  unfold gatherCidrs. destruct (cidrs cfg); [congruence | reflexivity].
Qed.

Lemma gather_quiet w cfg l log0 :
  gatherCidrs w cfg = Ret (l, log0) ->
  stagesOf log0 = [] /\ validFound log0 = [] /\
  forall s, progressOf s log0 = [].
Proof.
  unfold gatherCidrs. destruct (cidrs cfg).
  - destruct (fastly w) as [l0|msg| |]; try discriminate.
    + intros H. injection H as <- <-. now split.
    + destruct (readFile w _) as [text|msg2| |]; try discriminate.
      destruct (filter truthy _); [discriminate|].
      intros H. injection H as <- <-. now split.
  - intros H. injection H as <- <-. now split.
Qed.

Lemma prefix_0_no_blocks l :
  (forall x, In x l ->
     exists a b c d, octet a /\ octet b /\ octet c /\ octet d /\
                     x = dotted a b c d ++ "/" ++ ToString 0) ->
  flatMapM list24Blocks l = Ret [].
Proof.
  induction l as [|x l IH]; intros H; [reflexivity|]. cbn [flatMapM].
  destruct (H x (or_introl eq_refl)) as (a & b & c & d & Ha & Hb & Hc & Hd & ->).
  rewrite (list24Blocks_prefix_0 a b c d Ha Hb Hc Hd). cbn [bind].
  rewrite IH; [reflexivity|]. intros y Hy. apply H. now right.
Qed.

Lemma sample_loop_none fuel k : k <= 0 -> sample_loop fuel k [] 0 = Ret [].
Proof.
  intros H. destruct fuel; cbn [sample_loop List.length];
    (destruct (Z.ltb_spec (Z.of_nat 0) (Z.min k 254)) as [L|L];
     [cbn in L; lia | reflexivity]).
Qed.

Lemma sampleTargetsOf_none blocks k :
  k <= 0 -> sampleTargetsOf blocks k = Ret [].
Proof.
  intros H. induction blocks as [|b blocks IH]; [reflexivity|].
  cbn [sampleTargetsOf]. unfold sampleIPsIn24.
  rewrite (sample_loop_none _ _ H). cbn [bind]. rewrite IH. cbn [bind].
  unfold slice0. cbn [List.length]. rewrite firstn_nil. reflexivity.
Qed.

Lemma sampleTargetsOf_blocks blocks k : forall targets t,
  sampleTargetsOf blocks k = Ret targets ->
  In t targets -> In (block t) blocks.
Proof.
  induction blocks as [|b blocks IH]; intros targets t; cbn [sampleTargetsOf].
  - intros H. injection H as <-. intros [].
  - destruct (sampleIPsIn24 sample_fuel b k) as [picks| | |];
      cbn [bind]; try discriminate.
    destruct (sampleTargetsOf blocks k) as [rest| | |];
      cbn [bind]; try discriminate.
    intros H. injection H as <-. rewrite in_app_iff, in_map_iff.
    intros [[ip0 [<- _]]|Hr]; [now left|]. right. now apply (IH rest).
Qed.

Lemma run_tasks_none {T} (task : nat -> T -> vars -> outcome vars) order :
  forall st, run_tasks task [] order st = Ret st.
Proof.
  induction order as [|i order IH]; intros st; cbn [run_tasks];
    [reflexivity|].
  destruct i; cbn [nth_error]; apply IH.
Qed.

Lemma completes_perm n order :
  completes n order = true -> Permutation order (seq 0 n).
Proof.
  unfold completes. intros H. apply andb_true_iff in H. destruct H as [L A].
  apply Nat.eqb_eq in L. symmetry.
  apply NoDup_Permutation_bis.
  - apply seq_NoDup.
  - rewrite length_seq. lia.
  - intros i Hi. rewrite forallb_forall in A. specialize (A i Hi).
    apply existsb_exists in A. destruct A as [j [Hj E]].
    apply Nat.eqb_eq in E. now subst j.
Qed.

Lemma perm_completes n order :
  Permutation order (seq 0 n) -> completes n order = true.
Proof.
  intros P. unfold completes. apply andb_true_iff. split.
  - apply Nat.eqb_eq. rewrite (Permutation_length P). apply length_seq.
  - apply forallb_forall. intros i Hi. apply existsb_exists. exists i.
    split; [|apply Nat.eqb_refl].
    apply (Permutation_in _ (Permutation_sym P) Hi).
Qed.

(** A stage that ends has run its tasks, each once, through a queue that
    admits them. *)
Lemma run_stage_ret {T} c (task : nat -> T -> vars -> outcome vars)
  targets order st st' :
  run_stage c task targets order st = Ret st' ->
  run_tasks task targets order st = Ret st' /\
  (targets = [] \/
   (1 <= c /\ Permutation order (seq 0 (List.length targets)))).
Proof.
  unfold run_stage. destruct targets as [|t ts].
  - intros H. rewrite run_tasks_none. split; [exact H | now left].
  - destruct (Z.leb_spec 1 c) as [C|C]; cbn [andb]; [|discriminate].
    destruct (completes (List.length (t :: ts)) order) eqn:E;
      [|discriminate].
    intros H. split; [exact H|]. right. split; [exact C|].
    now apply completes_perm.
Qed.

Lemma run_stage_run {T} c (task : nat -> T -> vars -> outcome vars)
  targets order st :
  1 <= c -> Permutation order (seq 0 (List.length targets)) ->
  run_stage c task targets order st = run_tasks task targets order st.
Proof.
  intros C P. unfold run_stage. destruct targets as [|t ts].
  - now rewrite run_tasks_none.
  - destruct (Z.leb_spec 1 c) as [_|C']; [|lia]. cbn [andb].
    now rewrite (perm_completes _ _ P).
Qed.

End Gathering.

Section StageFacts.

Lemma In_set_add x b l : In x (set_add b l) <-> x = b \/ In x l.
Proof.
  unfold set_add. destruct (existsb (Z.eqb b) l) eqn:E.
  - split; [now right|]. intros [->|H]; [|exact H].
    apply existsb_exists in E. destruct E as [y [Hy Ey]].
    apply Z.eqb_eq in Ey. now subst y.
  - rewrite in_app_iff. cbn [In].
    split; [intros [H|[<-|[]]]; auto | intros [->|H]; auto].
Qed.

Lemma NoDup_set_add b l : NoDup l -> NoDup (set_add b l).
Proof.
  intros N. unfold set_add. destruct (existsb (Z.eqb b) l) eqn:E; [exact N|].
  apply (Permutation_NoDup (Permutation_cons_append l b)).
  constructor; [|exact N]. intros Hin.
  assert (X : existsb (Z.eqb b) l = true).
  { apply existsb_exists. exists b. split; [exact Hin | apply Z.eqb_refl]. }
  congruence.
Qed.

Lemma arrived_in {T} (targets : list T) i order t :
  nth_error targets i = Some t ->
  arrived targets (i :: order) = i :: arrived targets order.
Proof.
  intros N. unfold arrived. cbn [filter].
  assert (L : (i < List.length targets)%nat)
    by (apply nth_error_Some; congruence).
  apply Nat.ltb_lt in L. now rewrite L.
Qed.

Lemma arrived_out {T} (targets : list T) i order :
  nth_error targets i = None ->
  arrived targets (i :: order) = arrived targets order.
Proof.
  intros N. unfold arrived. cbn [filter].
  apply nth_error_None in N.
  destruct (Nat.ltb_spec i (List.length targets)); [lia | reflexivity].
Qed.

Lemma arrived_all {T} (targets : list T) order :
  Permutation order (seq 0 (List.length targets)) ->
  List.length (arrived targets order) = List.length targets.
Proof.
  intros P. unfold arrived. rewrite filter_all.
  - rewrite (Permutation_length P). apply length_seq.
  - intros i Hi. apply Nat.ltb_lt.
    apply (Permutation_in _ P), in_seq in Hi. lia.
Qed.

Lemma arrived_bound {T} (targets : list T) order :
  NoDup order ->
  (List.length (arrived targets order) <= List.length targets)%nat.
Proof.
  intros N. rewrite <- (length_seq (List.length targets) 0).
  apply NoDup_incl_length.
  - unfold arrived. now apply NoDup_filter.
  - intros i Hi. unfold arrived in Hi. apply filter_In in Hi.
    destruct Hi as [_ L]. apply Nat.ltb_lt in L. apply in_seq. lia.
Qed.

Lemma countUp_S from total n :
  countUp from total (S n) = (from + 1, total) :: countUp (from + 1) total n.
Proof.
  unfold countUp. cbn [seq map]. f_equal.
  rewrite <- seq_shift, map_map. apply map_ext. intros k.
  f_equal. lia.
Qed.

Lemma progressOf_app s a b :
  progressOf s (a ++ b) = (progressOf s a ++ progressOf s b)%list.
Proof. unfold progressOf. apply flat_map_app. Qed.

Lemma stagesOf_app a b :
  stagesOf (a ++ b) = (stagesOf a ++ stagesOf b)%list.
Proof. unfold stagesOf. apply flat_map_app. Qed.

Lemma progressOf_noteA l :
  progressOf "A" (map noteA l) = l /\ progressOf "B" (map noteA l) = [] /\
  stagesOf (map noteA l) = [] /\ validFound (map noteA l) = [].
Proof.
  induction l as [|[d t] l (I1 & I2 & I3 & I4)]; [now split|].
  split; [|split; [|split]].
  - change (progressOf "A" (map noteA ((d, t) :: l)))
      with ((d, t) :: progressOf "A" (map noteA l)).
    now rewrite I1.
  - exact I2.
  - exact I3.
  - exact I4.
Qed.

(** What a Stage A task returns. *)
Lemma taskA_cases w h total i t st st' :
  taskA w h total i t st = Ret st' ->
  st' = tickA total (if answersA w h i then hot_add (block t) st else st).
Proof.
  unfold taskA, answersA.
  destruct (tcpOpen (sockEvents w StageA i)) as [|[|]|e];
    cbn [await bind]; try discriminate.
  - destruct (truthy h).
    + destruct (httpHead (httpEvents w StageA i)) as [|[|]|e];
        cbn [await bind]; try discriminate; intros H; now injection H as <-.
    + cbn [bind]. intros H. now injection H as <-.
  - intros H. now injection H as <-.
Qed.

Lemma In_mark w h targets hot i b :
  In b (mark w h targets hot i) <->
  In b hot \/
  exists t, nth_error targets i = Some t /\ block t = b /\
            answersA w h i = true.
Proof.
  unfold mark. destruct (nth_error targets i) as [t|].
  - destruct (answersA w h i).
    + rewrite In_set_add. split.
      * intros [->|H]; [right; eauto | now left].
      * intros [H|[t' [E [<- _]]]]; [now right|]. left. congruence.
    + split; [now left|]. intros [H|[t' [_ [_ E]]]]; [exact H | discriminate].
  - split; [now left|]. intros [H|[t' [E _]]]; [exact H | discriminate].
Qed.

Lemma In_fold_mark w h targets order : forall hot b,
  In b (fold_left (mark w h targets) order hot) <->
  In b hot \/
  exists i t, In i order /\ nth_error targets i = Some t /\ block t = b /\
              answersA w h i = true.
Proof.
  induction order as [|i order IH]; intros hot b; cbn [fold_left].
  - split; [now left|]. intros [H|[i [t [[] _]]]]. exact H.
  - rewrite IH, In_mark. split.
    + intros [[H|[t [N [B A]]]]|[j [t [Hj R]]]].
      * now left.
      * right. exists i, t. split; [now left | auto].
      * right. exists j, t. split; [now right | exact R].
    + intros [H|[j [t [[<-|Hj] [N [B A]]]]]].
      * left. now left.
      * left. right. eauto.
      * right. exists j, t. auto.
Qed.

Lemma NoDup_fold_mark w h targets order : forall hot,
  NoDup hot -> NoDup (fold_left (mark w h targets) order hot).
Proof.
  induction order as [|i order IH]; intros hot N; cbn [fold_left];
    [exact N|].
  apply IH. unfold mark. destruct (nth_error targets i) as [t|]; [|exact N].
  destruct (answersA w h i); [now apply NoDup_set_add | exact N].
Qed.

(** Stage A as a whole: the hot blocks are marked task by task, one
    progress notification is made per task, nothing else changes. *)
Lemma stageA_run w h total targets : forall order st st',
  run_tasks (taskA w h total) targets order st = Ret st' ->
  hotBlocks st' = fold_left (mark w h targets) order (hotBlocks st) /\
  valid st' = valid st /\
  emitted st'
  = (emitted st ++
     map noteA (countUp (stageADone st) total
                  (List.length (arrived targets order))))%list /\
  stageBDone st' = stageBDone st.
Proof.
  induction order as [|i order IH]; intros st st' H; cbn [run_tasks] in H.
  - injection H as <-. cbn. now rewrite app_nil_r.
  - destruct (nth_error targets i) as [t|] eqn:N.
    + destruct (taskA w h total i t st) as [st1| | |] eqn:T;
        cbn [bind] in H; try discriminate.
      apply taskA_cases in T. destruct (IH _ _ H) as (A1 & A2 & A3 & A4).
      rewrite (arrived_in _ _ _ _ N). cbn [fold_left List.length].
      rewrite countUp_S. unfold mark at 2. rewrite N.
      rewrite A1, A2, A3, A4, T. clear.
      destruct (answersA w h i); cbn; rewrite <- app_assoc;
        (split; [reflexivity | split; [reflexivity | split; reflexivity]]).
    + rewrite (arrived_out _ _ _ N). cbn [fold_left]. unfold mark at 2.
      rewrite N. apply (IH _ _ H).
Qed.

(** What a Stage B task does to the shared variables. *)
Lemma taskB_effect w h total i ip0 st st' :
  taskB w h total i ip0 st = Ret st' ->
  st' = tickB total st \/
  exists x, st' = tickB total (accept {| ip := ip0; ms := x |} st).
Proof.
  rewrite taskB_cases.
  destruct (tcpOpen (sockEvents w StageB i)) as [|[|]|e]; try discriminate.
  2:{ intros H. injection H as <-. now left. }
  destruct (if truthy h then httpHead (httpEvents w StageB i)
            else Fulfilled true) as [|[|]|e]; try discriminate.
  2:{ intros H. injection H as <-. now left. }
  destruct (pingOnce (pingEvents w i)) as [|p|e]; try discriminate.
  intros H. injection H as <-.
  destruct (Probe.ok p); [|now left].
  destruct (Probe.ms p); [now left|]. right. eauto.
Qed.

(** Stage B as a whole. *)
Lemma stageB_run w h total targets : forall order st st',
  run_tasks (taskB w h total) targets order st = Ret st' ->
  exists tail,
    emitted st' = (emitted st ++ tail)%list /\
    valid st' = (valid st ++ validFound tail)%list /\
    hotBlocks st' = hotBlocks st /\
    progressOf "B" tail
    = countUp (stageBDone st) total (List.length (arrived targets order)) /\
    progressOf "A" tail = [] /\ stagesOf tail = [] /\
    (List.length (validFound tail)
     <= List.length (arrived targets order))%nat /\
    forall e, In e (validFound tail) ->
      exists i, In i order /\ nth_error targets i = Some (ip e).
Proof.
  induction order as [|i order IH]; intros st st' H; cbn [run_tasks] in H.
  - injection H as <-. exists []. cbn. rewrite !app_nil_r.
    split; [reflexivity|]. split; [reflexivity|]. split; [reflexivity|].
    split; [reflexivity|]. split; [reflexivity|]. split; [reflexivity|].
    split; [lia|]. intros e [].
  - destruct (nth_error targets i) as [ip0|] eqn:N.
    + destruct (taskB w h total i ip0 st) as [st1| | |] eqn:T;
        cbn [bind] in H; try discriminate.
      apply taskB_effect in T.
      destruct (IH _ _ H) as (tail & E1 & E2 & E3 & E4 & E5 & E6 & E7 & E8).
      rewrite (arrived_in _ _ _ _ N). cbn [List.length]. rewrite countUp_S.
      destruct T as [T|[x T]]; rewrite T in *; clear T st1.
      * exists (OnProgress "B" (stageBDone st + 1) total :: tail).
        cbn in E1, E2, E3.
        change (stageBDone (tickB total st)) with (stageBDone st + 1) in E4.
        split; [rewrite E1, <- app_assoc; reflexivity|].
        split; [rewrite E2; reflexivity|]. split; [exact E3|].
        split; [change (progressOf "B"
                          (OnProgress "B" (stageBDone st + 1) total :: tail))
                  with ((stageBDone st + 1, total) :: progressOf "B" tail);
                rewrite E4; reflexivity|].
        split; [exact E5|]. split; [exact E6|].
        split; [change (validFound (OnProgress "B" (stageBDone st + 1) total
                                      :: tail)) with (validFound tail); lia|].
        intros e He. destruct (E8 e He) as [j [Hj Nj]].
        exists j. split; [now right | exact Nj].
      * exists (OnValid {| ip := ip0; ms := x |}
                :: OnProgress "B" (stageBDone st + 1) total :: tail).
        cbn in E1, E2, E3.
        change (stageBDone (tickB total (accept {| ip := ip0; ms := x |} st)))
          with (stageBDone st + 1) in E4.
        split; [rewrite E1, <- !app_assoc; reflexivity|].
        split; [rewrite E2, <- app_assoc; reflexivity|]. split; [exact E3|].
        split; [change (progressOf "B"
                          (OnValid {| ip := ip0; ms := x |}
                           :: OnProgress "B" (stageBDone st + 1) total
                           :: tail))
                  with ((stageBDone st + 1, total) :: progressOf "B" tail);
                rewrite E4; reflexivity|].
        split; [exact E5|]. split; [exact E6|].
        change (validFound (OnValid {| ip := ip0; ms := x |}
                  :: OnProgress "B" (stageBDone st + 1) total :: tail))
          with ({| ip := ip0; ms := x |} :: validFound tail).
        split; [cbn [List.length]; lia|].
        intros e [<-|He].
        -- exists i. split; [now left | exact N].
        -- destruct (E8 e He) as [j [Hj Nj]].
           exists j. split; [now right | exact Nj].
    + destruct (IH _ _ H) as (tail & E1 & E2 & E3 & E4 & E5 & E6 & E7 & E8).
      rewrite (arrived_out _ _ _ N). exists tail.
      split; [exact E1|]. split; [exact E2|]. split; [exact E3|].
      split; [exact E4|]. split; [exact E5|]. split; [exact E6|].
      split; [exact E7|].
      intros e He. destruct (E8 e He) as [j [Hj Nj]].
      exists j. split; [now right | exact Nj].
Qed.

Lemma length_expandTargets cfg hot :
  List.length (expandTargets cfg hot)
  = (List.length hot * Z.to_nat (Z.min (expandLimitPer24 cfg) 256))%nat.
Proof.
  unfold expandTargets. induction hot as [|b hot IH]; [reflexivity|].
  cbn [flat_map List.length]. rewrite length_app, IH. unfold ipsOf24.
  rewrite length_map, length_seq. reflexivity.
Qed.

Lemma In_expandTargets cfg hot x :
  In x (expandTargets cfg hot) ->
  exists b off, In b hot /\ 0 <= off < Z.min (expandLimitPer24 cfg) 256 /\
                x = intToIp (shr (b + off) 0).
Proof.
  unfold expandTargets. rewrite in_flat_map. intros [b [Hb Hx]].
  unfold ipsOf24 in Hx. apply in_map_iff in Hx. destruct Hx as [n [<- Hn]].
  apply in_seq in Hn. exists b, (Z.of_nat n).
  split; [exact Hb|]. split; [lia | reflexivity].
Qed.

Lemma finish_counts blocks st res notes :
  finish blocks st = Ret (res, notes) ->
  Result.hotBlocks res = len (hotBlocks st) /\
  Result.totalBlocks res = len blocks /\
  Result.validCount res = len (Result.valid res) /\
  Permutation (valid st) (Result.valid res) /\
  notes = emitted st.
Proof.
  unfold finish. destruct (sort (valid st)) as [sorted| | |] eqn:S;
    cbn [bind]; try discriminate.
  destruct (mapM csvRow sorted) as [rows| | |];
    cbn [bind]; try discriminate.
  intros H. injection H as <- <-. cbn.
  split; [reflexivity|]. split; [reflexivity|]. split; [reflexivity|].
  split; [apply (sort_spec _ _ S) | reflexivity].
Qed.

Lemma finish_nothing blocks st :
  valid st = [] ->
  finish blocks st
  = Ret ({| Result.hotBlocks := len (hotBlocks st);
            Result.totalBlocks := len blocks;
            Result.validCount := 0;
            Result.valid := [];
            Result.txt := "";
            Result.csv := "ip,ping_ms" ++ String "010" "" |}, emitted st).
Proof. intros V. unfold finish. rewrite V. reflexivity. Qed.

(** The stages of a scan that completes. *)
Lemma scan_split w cfg res notes :
  runSmartScan w cfg = Ret (res, notes) ->
  exists blocks stB,
    scanStages w cfg = Ret (blocks, stB) /\
    finish blocks stB = Ret (res, notes).
Proof.
  unfold runSmartScan.
  destruct (scanStages w cfg) as [[blocks stB]| | |]; cbn [bind];
    try discriminate.
  intros H. exists blocks, stB. split; [reflexivity | exact H].
Qed.

Lemma stages_ret w cfg blocks stB :
  scanStages w cfg = Ret (blocks, stB) ->
  exists l log0 targets stA,
    gatherCidrs w cfg = Ret (l, log0) /\
    planStageA l (samplesPer24 cfg) = Ret (blocks, targets) /\
    run_stage (concurrency cfg)
      (taskA w (hostHeader cfg) (len targets)) targets
      (orderA w (List.length targets)) (startA log0 (len targets))
    = Ret stA /\
    run_stage (concurrency cfg)
      (taskB w (hostHeader cfg) (len (expandTargets cfg (hotBlocks stA))))
      (expandTargets cfg (hotBlocks stA))
      (orderB w (List.length (expandTargets cfg (hotBlocks stA))))
      (emit (OnStage "B" "Stage B (expand)"
               (len (expandTargets cfg (hotBlocks stA)))) stA)
    = Ret stB.
Proof.
  unfold scanStages.
  destruct (gatherCidrs w cfg) as [[l log0]| | |] eqn:G;
    cbn [bind]; try discriminate.
  destruct (planStageA l (samplesPer24 cfg))
    as [[bs targets]| | |] eqn:P; cbn [bind]; try discriminate.
  match goal with |- context [run_stage ?c ?t ?ts ?o ?s] =>
    destruct (run_stage c t ts o s) as [stA| | |] eqn:EA end;
    cbn [bind]; try discriminate.
  match goal with |- context [run_stage ?c ?t ?ts ?o ?s] =>
    destruct (run_stage c t ts o s) as [stB'| | |] eqn:EB end;
    cbn [bind]; try discriminate.
  intros H. injection H as <- <-. exists l, log0, targets, stA.
  split; [reflexivity|]. split; [exact P|].
  split; [exact EA | exact EB].
Qed.

Lemma scan_stages w cfg res notes :
  runSmartScan w cfg = Ret (res, notes) ->
  exists l log0 blocks targets stA stB,
    gatherCidrs w cfg = Ret (l, log0) /\
    planStageA l (samplesPer24 cfg) = Ret (blocks, targets) /\
    run_tasks (taskA w (hostHeader cfg) (len targets)) targets
      (orderA w (List.length targets)) (startA log0 (len targets))
    = Ret stA /\
    run_tasks
      (taskB w (hostHeader cfg) (len (expandTargets cfg (hotBlocks stA))))
      (expandTargets cfg (hotBlocks stA))
      (orderB w (List.length (expandTargets cfg (hotBlocks stA))))
      (emit (OnStage "B" "Stage B (expand)"
               (len (expandTargets cfg (hotBlocks stA)))) stA)
    = Ret stB /\
    finish blocks stB = Ret (res, notes).
Proof.
  intros H. destruct (scan_split _ _ _ _ H) as (blocks & stB & S & F).
  destruct (stages_ret _ _ _ _ S) as (l & log0 & targets & stA & G & P & EA & EB).
  exists l, log0, blocks, targets, stA, stB.
  split; [exact G|]. split; [exact P|].
  split; [apply (run_stage_ret _ _ _ _ _ _ EA)|].
  split; [apply (run_stage_ret _ _ _ _ _ _ EB) | exact F].
Qed.

Lemma plan_targets l k blocks targets :
  planStageA l k = Ret (blocks, targets) ->
  blocks <> [] /\ forall t, In t targets -> In (block t) blocks.
Proof.
  unfold planStageA.
  destruct (flatMapM list24Blocks l) as [bs| | |]; cbn [bind];
    try discriminate.
  destruct bs as [|b bs]; [discriminate|].
  destruct (sampleTargetsOf (b :: bs) k) as [ts| | |] eqn:S; cbn [bind];
    try discriminate.
  intros H. injection H as <- <-. split; [discriminate|].
  intros t Ht. apply (sampleTargetsOf_blocks _ _ _ _ S Ht).
Qed.

End StageFacts.

(** X20.  A range that cannot be parsed stops the scan before anything is
    probed: when the ranges before it enumerate, the scan throws the
    error of that range, [Bad CIDR: ] followed by its text, whatever the
    network would have answered and whatever ranges come after it. *)
Theorem scan_rejects_bad_range w cfg pre c post msg :
  cidrs cfg = (pre ++ c :: post)%list ->
  (forall x, In x pre -> exists bs, list24Blocks x = Ret bs) ->
  parseCIDR c = Throw msg ->
  msg = "Bad CIDR: " ++ c /\ runSmartScan w cfg = Throw msg.
Proof.
  intros E Hpre Hc. split; [now apply parseCIDR_throw_msg|].
  unfold runSmartScan, scanStages.
  rewrite gather_explicit by (rewrite E; now destruct pre).
  cbn [bind]. unfold planStageA. rewrite E.
  rewrite (flatMapM_throws list24Blocks pre c post msg Hpre).
  - reflexivity.
  - unfold list24Blocks. rewrite Hc. reflexivity.
Qed.

Lemma scan_rejects_bad_range_witness :
  "Bad CIDR: 10.0.0.0/33" = "Bad CIDR: " ++ "10.0.0.0/33" /\
  runSmartScan world_open (config_of ["10.0.0.0/24"; "10.0.0.0/33"] 1 3)
  = Throw "Bad CIDR: 10.0.0.0/33".
Proof.
  apply (scan_rejects_bad_range world_open
           (config_of ["10.0.0.0/24"; "10.0.0.0/33"] 1 3)
           ["10.0.0.0/24"] "10.0.0.0/33" []).
  - reflexivity.
  - intros x [<-|[]]. eexists. vm_compute. reflexivity.
  - vm_compute. reflexivity.
Defined.

(** X21.  A scan whose ranges all have prefix length 0 stops with
    [No /24 blocks to scan.]: such a range enumerates no block, so the
    whole address space cannot be scanned. *)
Theorem scan_of_prefix_0_ranges w cfg :
  cidrs cfg <> [] ->
  (forall x, In x (cidrs cfg) ->
     exists a b c d, octet a /\ octet b /\ octet c /\ octet d /\
                     x = dotted a b c d ++ "/" ++ ToString 0) ->
  runSmartScan w cfg = Throw "No /24 blocks to scan.".
Proof.
  intros N H. unfold runSmartScan, scanStages.
  rewrite gather_explicit by exact N.
  cbn [bind]. unfold planStageA. rewrite (prefix_0_no_blocks _ H).
  reflexivity.
Qed.

Lemma scan_of_prefix_0_ranges_witness :
  runSmartScan world_open (config_of ["0.0.0.0/0"; "10.1.2.3/0"] 1 3)
  = Throw "No /24 blocks to scan.".
Proof.
  apply scan_of_prefix_0_ranges; [discriminate|].
  intros x [<-|[<-|[]]].
  - exists 0, 0, 0, 0. unfold octet.
    split; [lia|]. split; [lia|]. split; [lia|]. split; [lia|].
    vm_compute. reflexivity.
  - exists 10, 1, 2, 3. unfold octet.
    split; [lia|]. split; [lia|]. split; [lia|]. split; [lia|].
    vm_compute. reflexivity.
Defined.

(** X22.  With [samplesPer24] zero or negative nothing is probed: there
    is no sample target, so no block becomes hot, both stages are
    announced with total 0 and without a progress call, and the scan
    completes with an empty result. *)
Theorem scan_without_samples w cfg l log0 blocks :
  samplesPer24 cfg <= 0 ->
  gatherCidrs w cfg = Ret (l, log0) ->
  flatMapM list24Blocks l = Ret blocks -> blocks <> [] ->
  runSmartScan w cfg
  = Ret ({| Result.hotBlocks := 0;
            Result.totalBlocks := len blocks;
            Result.validCount := 0;
            Result.valid := [];
            Result.txt := "";
            Result.csv := "ip,ping_ms" ++ String "010" "" |},
         (log0 ++ [OnStage "A" "Stage A (sample)" 0;
                   OnStage "B" "Stage B (expand)" 0])%list).
Proof.
  intros K G F N. unfold runSmartScan, scanStages. rewrite G. cbn [bind].
  unfold planStageA. rewrite F. cbn [bind].
  destruct blocks as [|b bs]; [congruence|].
  rewrite (sampleTargetsOf_none _ _ K).
  cbn [bind run_stage hotBlocks flat_map].
  rewrite finish_nothing by reflexivity.
  cbn [emit emitted hotBlocks]. rewrite <- app_assoc. reflexivity.
Qed.

Lemma scan_without_samples_witness :
  runSmartScan world_open (config_of ["10.0.0.0/23"] 0 3)
  = Ret ({| Result.hotBlocks := 0;
            Result.totalBlocks := len [167772160; 167772416];
            Result.validCount := 0;
            Result.valid := [];
            Result.txt := "";
            Result.csv := "ip,ping_ms" ++ String "010" "" |},
         ([] ++ [OnStage "A" "Stage A (sample)" 0;
                 OnStage "B" "Stage B (expand)" 0])%list).
Proof.
  apply (scan_without_samples world_open (config_of ["10.0.0.0/23"] 0 3)
           ["10.0.0.0/23"] [] [167772160; 167772416]).
  - cbn. lia.
  - reflexivity.
  - vm_compute. reflexivity.
  - discriminate.
Defined.

(** X23.  When every Stage A task completes, the hot blocks of a
    completed scan are exactly the blocks of the sample targets whose
    probes answered (TCP, and HTTP when a host header is configured):
    one answering sample is enough.  They are distinct and are among the
    enumerated blocks, so the count of hot blocks does not exceed the
    count of blocks. *)
Theorem stageA_hot_blocks w cfg res notes :
  runSmartScan w cfg = Ret (res, notes) ->
  (forall n, Permutation (orderA w n) (seq 0 n)) ->
  exists l log0 blocks targets hot,
    gatherCidrs w cfg = Ret (l, log0) /\
    planStageA l (samplesPer24 cfg) = Ret (blocks, targets) /\
    Result.totalBlocks res = len blocks /\
    Result.hotBlocks res = len hot /\
    NoDup hot /\
    (forall b, In b hot <->
       exists i t, nth_error targets i = Some t /\ block t = b /\
                   answersA w (hostHeader cfg) i = true) /\
    (forall b, In b hot -> In b blocks) /\
    0 <= Result.hotBlocks res <= Result.totalBlocks res.
Proof.
  intros H PA.
  destruct (scan_stages _ _ _ _ H)
    as (l & log0 & blocks & targets & stA & stB & G & P & EA & EB & F).
  destruct (stageA_run _ _ _ _ _ _ _ EA) as (A1 & _).
  destruct (stageB_run _ _ _ _ _ _ _ EB) as (tail & _ & _ & B3 & _).
  destruct (finish_counts _ _ _ _ F) as (C1 & C2 & _).
  change (hotBlocks (startA log0 (len targets))) with (@nil Z) in A1.
  change (hotBlocks stB = hotBlocks stA) in B3.
  destruct (plan_targets _ _ _ _ P) as [_ PT].
  assert (Char : forall b, In b (hotBlocks stA) <->
            exists i t, nth_error targets i = Some t /\ block t = b /\
                        answersA w (hostHeader cfg) i = true).
  { intros b. rewrite A1, In_fold_mark. split.
    - intros [[]|(i & t & _ & R)]. eauto.
    - intros (i & t & N & R). right. exists i, t. split; [|auto].
      apply (Permutation_in _ (Permutation_sym (PA _))), in_seq.
      assert (i < List.length targets)%nat
        by (apply nth_error_Some; congruence).
      lia. }
  assert (ND : NoDup (hotBlocks stA)).
  { rewrite A1. apply NoDup_fold_mark. constructor. }
  assert (Inc : forall b, In b (hotBlocks stA) -> In b blocks).
  { intros b Hb. apply Char in Hb. destruct Hb as (i & t & N & <- & _).
    apply PT. apply (nth_error_In _ _ N). }
  exists l, log0, blocks, targets, (hotBlocks stA).
  split; [exact G|]. split; [exact P|]. split; [exact C2|].
  split; [now rewrite C1, B3|]. split; [exact ND|].
  split; [exact Char|]. split; [exact Inc|].
  rewrite C1, C2, B3. unfold len.
  pose proof (NoDup_incl_length ND Inc). lia.
Qed.

Lemma stageA_hot_blocks_witness :
  exists res notes,
    runSmartScan world_open config_small = Ret (res, notes) /\
    exists l log0 blocks targets hot,
      gatherCidrs world_open config_small = Ret (l, log0) /\
      planStageA l (samplesPer24 config_small) = Ret (blocks, targets) /\
      Result.totalBlocks res = len blocks /\
      Result.hotBlocks res = len hot /\
      NoDup hot /\
      (forall b, In b hot <->
         exists i t, nth_error targets i = Some t /\ block t = b /\
                     answersA world_open (hostHeader config_small) i
                     = true) /\
      (forall b, In b hot -> In b blocks) /\
      0 <= Result.hotBlocks res <= Result.totalBlocks res.
Proof.
  eexists. eexists. split; [vm_compute; reflexivity|].
  eapply (stageA_hot_blocks world_open config_small).
  - vm_compute. reflexivity.
  - intros n. apply Permutation_refl.
Defined.

(** X24.  When no Stage A sample answers, a completed scan has found
    nothing and has probed nothing in Stage B: no block is hot, Stage B
    is announced with total 0, no address is announced valid, the text
    output is empty and the CSV output is the header line alone. *)
Theorem scan_nothing_hot w cfg res notes :
  runSmartScan w cfg = Ret (res, notes) ->
  (forall i, answersA w (hostHeader cfg) i = false) ->
  Result.hotBlocks res = 0 /\ Result.validCount res = 0 /\
  Result.valid res = [] /\ Result.txt res = "" /\
  Result.csv res = "ip,ping_ms" ++ String "010" "" /\
  validFound notes = [] /\ progressOf "B" notes = [] /\
  In ("B", 0) (stagesOf notes).
Proof.
  intros H No.
  destruct (scan_stages _ _ _ _ H)
    as (l & log0 & blocks & targets & stA & stB & G & P & EA & EB & F).
  destruct (stageA_run _ _ _ _ _ _ _ EA) as (A1 & A2 & A3 & _).
  change (hotBlocks (startA log0 (len targets))) with (@nil Z) in A1.
  change (valid (startA log0 (len targets))) with (@nil entry) in A2.
  assert (Hot : hotBlocks stA = []).
  { destruct (hotBlocks stA) as [|b r] eqn:E; [reflexivity|]. exfalso.
    assert (X : In b (fold_left (mark w (hostHeader cfg) targets)
                        (orderA w (List.length targets)) []))
      by (rewrite <- A1; now left).
    apply In_fold_mark in X. destruct X as [[]|(i & t & _ & _ & _ & X)].
    rewrite No in X. discriminate. }
  rewrite Hot in EB. change (expandTargets cfg []) with (@nil string) in EB.
  rewrite run_tasks_none in EB. injection EB as <-.
  rewrite finish_nothing in F by exact A2. injection F as <- <-.
  cbn [Result.hotBlocks Result.validCount Result.valid Result.txt
       Result.csv emit hotBlocks emitted].
  rewrite Hot, A3.
  change (emitted (startA log0 (len targets)))
    with (log0 ++ [OnStage "A" "Stage A (sample)" (len targets)])%list.
  destruct (gather_quiet _ _ _ _ G) as (Q1 & Q2 & Q3).
  destruct (progressOf_noteA
              (countUp (stageADone (startA log0 (len targets)))
                 (len targets)
                 (List.length
                    (arrived targets (orderA w (List.length targets))))))
    as (N1 & N2 & N3 & N4).
  split; [reflexivity|]. split; [reflexivity|]. split; [reflexivity|].
  split; [reflexivity|]. split; [reflexivity|].
  split; [|split].
  - rewrite !validFound_app, Q2, N4. reflexivity.
  - rewrite !progressOf_app, Q3, N2. reflexivity.
  - rewrite !stagesOf_app, Q1, N3. cbn. right. now left.
Qed.

Lemma scan_nothing_hot_witness :
  exists res notes,
    runSmartScan world_closed config_small = Ret (res, notes) /\
    Result.hotBlocks res = 0 /\ Result.validCount res = 0 /\
    Result.valid res = [] /\ Result.txt res = "" /\
    Result.csv res = "ip,ping_ms" ++ String "010" "" /\
    validFound notes = [] /\ progressOf "B" notes = [] /\
    In ("B", 0) (stagesOf notes).
Proof.
  eexists. eexists. split; [vm_compute; reflexivity|].
  apply (scan_nothing_hot world_closed config_small).
  - vm_compute. reflexivity.
  - intros i. reflexivity.
Defined.

(** X25.  Stage B stays inside the hot blocks: every address of the
    valid list of a completed scan is one of the first
    [min(expandLimitPer24, 256)] addresses of the block of a sample
    target that answered in Stage A.  When no Stage B task completes
    twice, the valid count is at most the number of hot blocks times
    that limit. *)
Theorem stageB_within_hot w cfg res notes :
  runSmartScan w cfg = Ret (res, notes) ->
  (forall n, NoDup (orderB w n)) ->
  exists l log0 blocks targets,
    gatherCidrs w cfg = Ret (l, log0) /\
    planStageA l (samplesPer24 cfg) = Ret (blocks, targets) /\
    (forall e, In e (Result.valid res) ->
       exists i t off,
         nth_error targets i = Some t /\
         answersA w (hostHeader cfg) i = true /\
         0 <= off < Z.min (expandLimitPer24 cfg) 256 /\
         ip e = intToIp (shr (block t + off) 0)) /\
    Result.validCount res
    <= Result.hotBlocks res * Z.max 0 (Z.min (expandLimitPer24 cfg) 256).
Proof.
  intros H NB.
  destruct (scan_stages _ _ _ _ H)
    as (l & log0 & blocks & targets & stA & stB & G & P & EA & EB & F).
  destruct (stageA_run _ _ _ _ _ _ _ EA) as (A1 & A2 & _).
  destruct (stageB_run _ _ _ _ _ _ _ EB)
    as (tail & _ & B2 & B3 & _ & _ & _ & B7 & B8).
  destruct (finish_counts _ _ _ _ F) as (C1 & _ & C3 & C4 & _).
  change (hotBlocks (startA log0 (len targets))) with (@nil Z) in A1.
  change (valid (startA log0 (len targets))) with (@nil entry) in A2.
  change (hotBlocks stB = hotBlocks stA) in B3.
  change (valid stB = (valid stA ++ validFound tail)%list) in B2.
  rewrite A2 in B2. cbn [app] in B2.
  exists l, log0, blocks, targets.
  split; [exact G|]. split; [exact P|]. split.
  - intros e He. apply (Permutation_in _ (Permutation_sym C4)) in He.
    rewrite B2 in He. destruct (B8 e He) as (j & _ & Nj).
    apply nth_error_In, In_expandTargets in Nj.
    destruct Nj as (b & off & Hb & Ho & E).
    rewrite A1 in Hb. apply In_fold_mark in Hb.
    destruct Hb as [[]|(i & t & _ & N & <- & A)].
    exists i, t, off. auto.
  - rewrite C3, C1, B3. unfold len.
    rewrite <- (Permutation_length C4), B2.
    pose proof (arrived_bound (expandTargets cfg (hotBlocks stA)) _
                  (NB (List.length (expandTargets cfg (hotBlocks stA)))))
      as AB.
    rewrite length_expandTargets in AB at 2.
    assert (M : Z.of_nat (Z.to_nat (Z.min (expandLimitPer24 cfg) 256))
                = Z.max 0 (Z.min (expandLimitPer24 cfg) 256)) by lia.
    rewrite <- M, <- Nat2Z.inj_mul. apply Nat2Z.inj_le. lia.
Qed.

Lemma stageB_within_hot_witness :
  exists res notes,
    runSmartScan world_open config_small = Ret (res, notes) /\
    exists l log0 blocks targets,
      gatherCidrs world_open config_small = Ret (l, log0) /\
      planStageA l (samplesPer24 config_small) = Ret (blocks, targets) /\
      (forall e, In e (Result.valid res) ->
         exists i t off,
           nth_error targets i = Some t /\
           answersA world_open (hostHeader config_small) i = true /\
           0 <= off < Z.min (expandLimitPer24 config_small) 256 /\
           ip e = intToIp (shr (block t + off) 0)) /\
      Result.validCount res
      <= Result.hotBlocks res
         * Z.max 0 (Z.min (expandLimitPer24 config_small) 256).
Proof.
  eexists. eexists. split; [vm_compute; reflexivity|].
  eapply (stageB_within_hot world_open config_small).
  - vm_compute. reflexivity.
  - intros n. apply NoDup_rev, seq_NoDup.
Defined.

(** X26.  The notifications of a completed scan in which every task of
    each stage completes once: Stage A and then Stage B are announced
    with their totals; the progress of a stage counts 1, 2, ... up to its
    total, each call carrying that total; Stage B is announced only after
    the last progress call of Stage A, and before it no address is
    announced valid; the total of Stage B is the number of hot blocks
    times [min(expandLimitPer24, 256)], or 0 when that is negative. *)
Theorem scan_progress w cfg res notes :
  runSmartScan w cfg = Ret (res, notes) ->
  (forall n, Permutation (orderA w n) (seq 0 n)) ->
  (forall n, Permutation (orderB w n) (seq 0 n)) ->
  exists (nA nB : nat) before after,
    stagesOf notes = [("A", Z.of_nat nA); ("B", Z.of_nat nB)] /\
    progressOf "A" notes = countUp 0 (Z.of_nat nA) nA /\
    progressOf "B" notes = countUp 0 (Z.of_nat nB) nB /\
    notes = (before ++ OnStage "B" "Stage B (expand)" (Z.of_nat nB)
                       :: after)%list /\
    progressOf "A" after = [] /\ progressOf "B" before = [] /\
    validFound before = [] /\
    Z.of_nat nB
    = Result.hotBlocks res * Z.max 0 (Z.min (expandLimitPer24 cfg) 256).
Proof.
  intros H PA PB.
  destruct (scan_stages _ _ _ _ H)
    as (l & log0 & blocks & targets & stA & stB & G & P & EA & EB & F).
  destruct (stageA_run _ _ _ _ _ _ _ EA) as (_ & _ & A3 & A4).
  destruct (stageB_run _ _ _ _ _ _ _ EB)
    as (tail & B1 & _ & B3 & B4 & B5 & B6 & _).
  destruct (finish_counts _ _ _ _ F) as (C1 & _ & _ & _ & C5).
  change (hotBlocks stB = hotBlocks stA) in B3.
  rewrite (arrived_all _ _ (PA _)) in A3.
  rewrite (arrived_all _ _ (PB _)) in B4.
  change (stageADone (startA log0 (len targets))) with 0 in A3.
  change (stageBDone (startA log0 (len targets))) with 0 in A4.
  change (emitted (startA log0 (len targets)))
    with (log0 ++ [OnStage "A" "Stage A (sample)" (len targets)])%list in A3.
  remember (expandTargets cfg (hotBlocks stA)) as expand eqn:Ex.
  change (stageBDone (emit (OnStage "B" "Stage B (expand)" (len expand)) stA))
    with (stageBDone stA) in B4.
  rewrite A4 in B4.
  change (emitted (emit (OnStage "B" "Stage B (expand)" (len expand)) stA))
    with (emitted stA ++ [OnStage "B" "Stage B (expand)" (len expand)])%list
    in B1.
  destruct (gather_quiet _ _ _ _ G) as (Q1 & Q2 & Q3).
  destruct (progressOf_noteA
              (countUp 0 (len targets) (List.length targets)))
    as (N1 & N2 & N3 & N4).
  exists (List.length targets), (List.length expand), (emitted stA), tail.
  fold (len targets). fold (len expand).
  rewrite C5, B1, A3.
  split; [|split; [|split; [|split; [|split; [|split; [|split]]]]]].
  - rewrite !stagesOf_app, Q1, N3, B6. reflexivity.
  - rewrite !progressOf_app, Q3, N1, B5. cbn [progressOf flat_map app].
    rewrite !app_nil_r. reflexivity.
  - rewrite !progressOf_app, Q3, N2, B4. reflexivity.
  - rewrite <- app_assoc. reflexivity.
  - exact B5.
  - rewrite !progressOf_app, Q3, N2. reflexivity.
  - rewrite !validFound_app, Q2, N4. reflexivity.
  - rewrite C1, B3. unfold len. rewrite Ex, length_expandTargets.
    rewrite Nat2Z.inj_mul. f_equal. lia.
Qed.

Lemma scan_progress_witness :
  exists res notes,
    runSmartScan world_open config_small = Ret (res, notes) /\
    exists (nA nB : nat) before after,
      stagesOf notes = [("A", Z.of_nat nA); ("B", Z.of_nat nB)] /\
      progressOf "A" notes = countUp 0 (Z.of_nat nA) nA /\
      progressOf "B" notes = countUp 0 (Z.of_nat nB) nB /\
      notes = (before ++ OnStage "B" "Stage B (expand)" (Z.of_nat nB)
                         :: after)%list /\
      progressOf "A" after = [] /\ progressOf "B" before = [] /\
      validFound before = [] /\
      Z.of_nat nB
      = Result.hotBlocks res
        * Z.max 0 (Z.min (expandLimitPer24 config_small) 256).
Proof.
  eexists. eexists. split; [vm_compute; reflexivity|].
  apply (scan_progress world_open config_small).
  - vm_compute. reflexivity.
  - intros n. apply Permutation_refl.
  - intros n. symmetry. apply Permutation_rev.
Defined.
(* ===================================================================== *)
(** * A scan whose probes settle completes *)
(* ===================================================================== *)

Section Completion.

Lemma ping_on_settled st ev :
  ping_promise st <> Pending -> ping_promise (ping_on st ev) <> Pending.
Proof.
  intros H. destruct ev; cbn; try exact H.
  - destruct (killer_armed st); exact H.
  - destruct (ping_promise st); cbn; congruence.
  - destruct (ping_promise st); cbn; congruence.
Qed.

Lemma ping_fold_settled evs : forall st,
  ping_promise st <> Pending ->
  ping_promise (fold_left ping_on evs st) <> Pending.
Proof.
  induction evs as [|ev evs IH]; intros st H; [exact H|].
  cbn [fold_left]. apply IH. now apply ping_on_settled.
Qed.

Lemma ping_fold_closes evs : forall st,
  closes evs = true -> ping_promise (fold_left ping_on evs st) <> Pending.
Proof.
  unfold closes. induction evs as [|ev evs IH]; intros st H;
    [discriminate|].
  cbn [existsb] in H. cbn [fold_left].
  destruct (is_data ev) eqn:D; cbn [negb orb] in H.
  - now apply IH.
  - apply ping_fold_settled.
    destruct ev; try discriminate; cbn;
      destruct (ping_promise st); cbn; congruence.
Qed.

Lemma pingOnce_settles evs :
  closes evs = true -> exists r, pingOnce evs = Fulfilled r.
Proof.
  intros H. pose proof (ping_fold_closes evs ping_init H) as S.
  pose proof (pingOnce_shape evs) as Sh. unfold pingOnce in *.
  destruct (ping_promise (fold_left ping_on evs ping_init)) as [|r|e];
    [congruence | eauto | destruct Sh].
Qed.

Lemma tcpOpen_settles evs : evs <> [] -> exists b, tcpOpen evs = Fulfilled b.
Proof.
  destruct evs as [|ev rest]; [congruence|]. intros _.
  rewrite tcpOpen_first. eauto.
Qed.

Lemma httpHead_settles evs :
  evs <> [] -> exists b, httpHead evs = Fulfilled b.
Proof.
  destruct evs as [|ev rest]; [congruence|]. intros _.
  rewrite httpHead_first. eauto.
Qed.

Lemma sampleTargetsOf_total blocks k :
  exists targets, sampleTargetsOf blocks k = Ret targets.
Proof.
  destruct (Z_le_gt_dec k 0) as [K|K].
  - exists []. now apply sampleTargetsOf_none.
  - destruct (sample_offsets k ltac:(lia)) as (offs & _ & _ & _ & R).
    eexists. apply (sampleTargetsOf_offsets k offs R blocks).
Qed.

Lemma run_tasks_total {T} (task : nat -> T -> vars -> outcome vars)
  (P : vars -> Prop) targets :
  (forall i t st, P st -> exists st', task i t st = Ret st' /\ P st') ->
  forall order st, P st ->
    exists st', run_tasks task targets order st = Ret st' /\ P st'.
Proof.
  intros Htask order. induction order as [|i order IH]; intros st Hst;
    cbn [run_tasks].
  - eauto.
  - destruct (nth_error targets i) as [t|]; [|now apply IH].
    destruct (Htask i t st Hst) as (st1 & -> & H1). cbn [bind].
    now apply IH.
Qed.

Variable w : world.
Variable h : string.

Hypothesis sockets : forall s i, sockEvents w s i <> [].
Hypothesis requests : truthy h = true -> forall s i, httpEvents w s i <> [].
Hypothesis children : forall i, closes (pingEvents w i) = true.
Hypothesis latencies : forall i r x,
  pingOnce (pingEvents w i) = Fulfilled r -> Probe.ms r = VNumber x ->
  tame x = true.

Lemma taskA_total total i t st :
  fine st -> exists st', taskA w h total i t st = Ret st' /\ fine st'.
Proof.
  intros F. unfold taskA.
  destruct (tcpOpen_settles _ (sockets StageA i)) as [b ->].
  cbn [await bind]. destruct b.
  - destruct (truthy h) eqn:Th.
    + destruct (httpHead_settles _ (requests eq_refl StageA i)) as [b ->].
      cbn [await bind]. eexists. split; [reflexivity|].
      destruct b; exact F.
    + cbn [bind]. eexists. split; [reflexivity | exact F].
  - cbn [bind]. eexists. split; [reflexivity | exact F].
Qed.

Lemma taskB_total total i ip0 st :
  fine st -> exists st', taskB w h total i ip0 st = Ret st' /\ fine st'.
Proof.
  intros F. rewrite taskB_cases.
  destruct (tcpOpen_settles _ (sockets StageB i)) as [b ->].
  destruct b; [|eexists; split; [reflexivity | exact F]].
  assert (X : exists b, (if truthy h then httpHead (httpEvents w StageB i)
                         else Fulfilled true) = Fulfilled b).
  { destruct (truthy h) eqn:Th; [|eauto].
    apply httpHead_settles, (requests eq_refl). }
  destruct X as [b ->].
  destruct b; [|eexists; split; [reflexivity | exact F]].
  destruct (pingOnce_settles _ (children i)) as [r Er]. rewrite Er.
  eexists. split; [reflexivity|].
  destruct (Probe.ok r); [|exact F].
  destruct (Probe.ms r) as [|x] eqn:M; [exact F|].
  unfold fine. rewrite valid_tickB, valid_accept.
  apply Forall_app. split; [exact F|]. constructor; [|constructor].
  apply (latencies i r x Er M).
Qed.

End Completion.

Section Finishing.

Lemma tame_not_NaN x : tame x = true -> isNaN x = false.
Proof. destruct x; intros H; try reflexivity; discriminate H. Qed.

Lemma csvRow_total e :
  tame (ms e) = true -> exists row, csvRow e = Ret row.
Proof.
  unfold csvRow, toFixed3, tame. destruct (ms e) as [q| | |].
  - destruct (Qle_bool (inject_Z (10 ^ 21)) (Qabs q)); [discriminate|].
    intros _. cbn [bind]. eexists. reflexivity.
  - intros _. cbn [bind]. eexists. reflexivity.
  - intros _. cbn [bind]. eexists. reflexivity.
  - discriminate.
Qed.

Lemma mapM_csvRow_total l :
  Forall (fun e => tame (ms e) = true) l -> exists rows, mapM csvRow l = Ret rows.
Proof.
  induction 1 as [|e l He _ [rows IH]]; [now exists []|].
  cbn [mapM]. destruct (csvRow_total e He) as [row ->]. cbn [bind].
  rewrite IH. cbn [bind]. eauto.
Qed.

Lemma sort_total l :
  Forall (fun e => tame (ms e) = true) l -> exists l', sort l = Ret l'.
Proof.
  intros F. unfold sort. destruct l as [|x [|y l]]; eauto.
  destruct (existsb (fun e => isNaN (ms e)) (x :: y :: l)) eqn:E; eauto.
  apply existsb_exists in E. destruct E as [e [He Ne]].
  rewrite Forall_forall in F. rewrite (tame_not_NaN _ (F e He)) in Ne.
  discriminate.
Qed.

Lemma finish_total blocks st :
  fine st -> exists res, finish blocks st = Ret (res, emitted st) /\
                         Result.totalBlocks res = len blocks.
Proof.
  intros F. unfold finish. destruct (sort_total _ F) as [sorted S].
  rewrite S. cbn [bind].
  assert (Fs : Forall (fun e => tame (ms e) = true) sorted).
  { apply Forall_forall. intros e He. unfold fine in F.
    rewrite Forall_forall in F. apply F.
    destruct (sort_spec _ _ S) as (_ & P & _).
    apply (Permutation_in _ (Permutation_sym P) He). }
  destruct (mapM_csvRow_total _ Fs) as [rows ->]. cbn [bind].
  eexists. split; reflexivity.
Qed.

End Finishing.

Section Starting.

Lemma sampleTargetsOf_some b bs k :
  1 <= k ->
  exists t ts, sampleTargetsOf (b :: bs) k = Ret (t :: ts).
Proof.
  intros K. destruct (sample_offsets k K) as (offs & Hl & _ & _ & R).
  rewrite (sampleTargetsOf_offsets k offs R (b :: bs)).
  destruct offs as [|o offs]; [cbn [List.length] in Hl; lia|].
  cbn [flat_map map app]. eauto.
Qed.

End Starting.


(* ===================================================================== *)
(** * Completion: the sorted list and the outputs *)
(* ===================================================================== *)

Section Discovered.

(** What a Stage B task adds to the valid list and to the [onValid]
    calls. *)
Lemma taskB_discovers w h total i a st st' :
  taskB w h total i a st = Ret st' ->
  let d := match acceptsB w h i with
           | Some x => [{| ip := a; ms := x |}]
           | None => []
           end in
  valid st' = (valid st ++ d)%list /\
  validFound (emitted st') = (validFound (emitted st) ++ d)%list.
Proof.
  cbv zeta. rewrite taskB_cases. unfold acceptsB.
  assert (T : forall s, valid (tickB total s) = valid s /\
                        validFound (emitted (tickB total s))
                        = validFound (emitted s)).
  { intros s. split; [reflexivity|]. unfold tickB, emit. cbn [emitted].
    rewrite validFound_app. cbn. apply app_nil_r. }
  destruct (tcpOpen (sockEvents w StageB i)) as [|[|]|e]; try discriminate.
  2:{ intros H. injection H as <-. rewrite !app_nil_r. apply T. }
  destruct (if truthy h then httpHead (httpEvents w StageB i)
            else Fulfilled true) as [|[|]|e]; try discriminate.
  2:{ intros H. injection H as <-. rewrite !app_nil_r. apply T. }
  destruct (pingOnce (pingEvents w i)) as [|p|e]; try discriminate.
  intros H. injection H as <-.
  destruct (Probe.ok p); [|rewrite !app_nil_r; apply T].
  destruct (Probe.ms p) as [|x]; [rewrite !app_nil_r; apply T|].
  destruct (T (accept {| ip := a; ms := x |} st)) as [-> ->].
  split; [reflexivity|]. unfold accept, emit. cbn [emitted].
  apply validFound_app.
Qed.

Lemma stageB_discovers w h total targets : forall order st st',
  run_tasks (taskB w h total) targets order st = Ret st' ->
  valid st' = (valid st ++ discoveredB w h targets order)%list /\
  validFound (emitted st')
  = (validFound (emitted st) ++ discoveredB w h targets order)%list.
Proof.
  induction order as [|i order IH]; intros st st' H; cbn [run_tasks] in H.
  - injection H as <-. unfold discoveredB. cbn [flat_map].
    rewrite !app_nil_r. split; reflexivity.
  - unfold discoveredB. cbn [flat_map]. fold (discoveredB w h targets order).
    destruct (nth_error targets i) as [a|] eqn:N.
    + destruct (taskB w h total i a st) as [st1| | |] eqn:T;
        cbn [bind] in H; try discriminate.
      destruct (taskB_discovers _ _ _ _ _ _ _ T) as [V1 V2].
      destruct (IH _ _ H) as [-> ->]. rewrite V1, V2, <- !app_assoc.
      split; reflexivity.
    + cbn [app]. apply (IH _ _ H).
Qed.

(** An entry whose latency is NaN stands in no ascending list but alone. *)
Lemma sorted_NaN_alone l e :
  Sorted by_latency l -> In e l -> isNaN (ms e) = true -> l = [e].
Proof.
  intros S. induction S as [|a l S IH R]; intros Hin Hn; [destruct Hin|].
  assert (E : forall x, isNaN x = true -> x = FNaN)
    by (intros [q| | |]; cbn; congruence).
  destruct Hin as [<-|Hin].
  - destruct R as [|b l R]; [reflexivity|]. exfalso.
    unfold by_latency in R. rewrite (E _ Hn) in R. discriminate.
  - exfalso. rewrite (IH Hin Hn) in R. inversion R as [|b l' R' Eq]; subst.
    unfold by_latency in R'. rewrite (E _ Hn) in R'.
    destruct (ms a); discriminate.
Qed.

End Discovered.

Lemma sort_defined l :
  existsb (fun e => isNaN (ms e)) l = false -> exists l', sort l = Ret l'.
Proof.
  intros N. unfold sort. destruct l as [|x [|y l]]; eauto.
  rewrite N. eauto.
Qed.



